(** * A street-map query engine: model of [streets.c] and its properties

    The development embeds the data structures and the query functions of
    [streets.c] as Rocq functions and proves the properties of the
    routing, validation, name-search and priority-queue code.

    Conventions of the embedding.
    - A C [double] is a primitive binary64 float; the [float] field
      [max_speed] is promoted to [double] wherever the source uses it, so
      it is a binary64 float too.
    - A C [int] that holds an identifier is a [Z] (identifiers may be
      negative in a query, and [-1] is a sentinel); an [int] that counts
      or indexes an array from zero is a [nat].  Sizes are assumed to stay
      below [2^31], so no wrap-around occurs.
    - An array is a list; an in-place store is stdpp's list insert.  A
      read outside an array, undefined in C, yields a default value, and
      a store outside it does nothing; [malloc] is taken to succeed.
    - A [struct way *] stored in a node is the slot of [m->ways] it was
      copied from ([ssmap_add_node] stores [m->ways[way_ids[i]]]).
    - [printf] output is the string printed.
    - A loop whose end is not structural runs on fuel; the fuel given is
      proved to be enough.
    - The functions of [libm] are not part of the repository; the code
      that calls them is parametrised by a record of them. *)

From Stdlib Require Import ZArith Floats Sorted.
From stdpp Require Import base list relations strings pretty.

Set Warnings "-clear-no-such-hyp".

Local Open Scope Z_scope.

(** ** The C library's mathematical functions *)

Record libm := mk_libm {
  c_sin : float → float;
  c_cos : float → float;
  c_atan2 : float → float → float;
  c_pow : float → float → float
}.

(** ** Data model *)

Record way := mk_way {
  w_id : Z;
  w_name : string;
  w_max_speed : float;
  w_one_way : bool;
  w_node_ids : list Z
}.

Record node := mk_node {
  n_id : Z;
  n_lat : float;
  n_lon : float;
  n_ways : list nat
}.

(** [num_nodes] and [num_ways] are the lengths of the two arrays; a slot
    holding [NULL] is [None]. *)
Record ssmap := mk_ssmap {
  m_nodes : list (option node);
  m_ways : list (option way)
}.

Record heap_node := mk_heap_node {
  hn_node_id : Z;
  hn_distance : float
}.

Record min_heap := mk_min_heap {
  elements : list heap_node;
  size : nat;
  capacity : nat
}.

#[global] Instance way_inhabited : Inhabited way :=
  populate (mk_way 0 "" 0%float false []).
#[global] Instance node_inhabited : Inhabited node :=
  populate (mk_node 0 0%float 0%float []).
#[global] Instance heap_node_inhabited : Inhabited heap_node :=
  populate (mk_heap_node 0 0%float).
#[global] Instance float_inhabited : Inhabited float := populate 0%float.

Definition num_nodes (m : ssmap) : Z := Z.of_nat (length (m_nodes m)).
Definition num_ways (m : ssmap) : Z := Z.of_nat (length (m_ways m)).

(** [m->nodes[id]] and [m->ways[id]] as the source reads them after its
    range checks, and [node->ways[j]] followed through the pointer. *)
Definition get_node (m : ssmap) (id : Z) : option node :=
  if id <? 0 then None else mjoin (m_nodes m !! Z.to_nat id).

Definition get_way (m : ssmap) (id : Z) : option way :=
  if id <? 0 then None else mjoin (m_ways m !! Z.to_nat id).

Definition node_at (m : ssmap) (id : Z) : node := default inhabitant (get_node m id).
Definition way_at (m : ssmap) (id : Z) : way := default inhabitant (get_way m id).
Definition deref_way (m : ssmap) (p : nat) : way :=
  default inhabitant (mjoin (m_ways m !! p)).

(** ** The binary heap *)

Definition create_min_heap (capacity : nat) : min_heap :=
  mk_min_heap (replicate capacity inhabitant) 0 capacity.

Definition swap_heap_node (els : list heap_node) (i j : nat) : list heap_node :=
  match els !! i, els !! j with
  | Some a, Some b => <[j:=a]> (<[i:=b]> els)
  | _, _ => els
  end.

Definition dist_at (els : list heap_node) (i : nat) : float :=
  hn_distance (els !!! i).

(** [min_heapify]: the recursion descends to a child, so [fuel] bounded
    by the heap size is enough (see [min_heapify_go_fuel]). *)
Fixpoint min_heapify_go (fuel : nat) (els : list heap_node) (sz idx : nat)
  : list heap_node :=
  match fuel with
  | O => els
  | S fuel' =>
      let left := (2 * idx + 1)%nat in
      let right := (2 * idx + 2)%nat in
      let smallest := idx in
      let smallest :=
        if (left <? sz)%nat && (dist_at els left <? dist_at els smallest)%float
        then left else smallest in
      let smallest :=
        if (right <? sz)%nat && (dist_at els right <? dist_at els smallest)%float
        then right else smallest in
      if negb (smallest =? idx)%nat
      then min_heapify_go fuel' (swap_heap_node els idx smallest) sz smallest
      else els
  end.

Definition min_heapify (h : min_heap) (idx : nat) : min_heap :=
  mk_min_heap (min_heapify_go (size h) (elements h) (size h) idx)
              (size h) (capacity h).

Definition extract_min (h : min_heap) : heap_node * min_heap :=
  if (size h =? 0)%nat then (mk_heap_node (-1) 0%float, h)
  else
    let root := elements h !!! 0%nat in
    let els := <[0%nat := elements h !!! (size h - 1)%nat]> (elements h) in
    (root, min_heapify (mk_min_heap els (size h - 1) (capacity h)) 0).

(** The loop [while (i != 0 && elements[(i-1)/2].distance >
    elements[i].distance)] shared by [decrease_key] and
    [insert_min_heap]; [i] strictly decreases, so fuel [i] is enough. *)
Fixpoint sift_up (fuel : nat) (els : list heap_node) (i : nat) : list heap_node :=
  match fuel with
  | O => els
  | S fuel' =>
      let p := ((i - 1) / 2)%nat in
      if negb (i =? 0)%nat && (dist_at els i <? dist_at els p)%float
      then sift_up fuel' (swap_heap_node els i p) p
      else els
  end.

(** The scan [for (i = 0; i < size; i++) if (elements[i].node_id ==
    node_id)]: the first index holding [node_id], if any. *)
Fixpoint heap_index_from (els : list heap_node) (n : nat) (node_id : Z) (i : nat)
  : option nat :=
  match n, els with
  | S n', e :: els' =>
      if hn_node_id e =? node_id then Some i
      else heap_index_from els' n' node_id (S i)
  | _, _ => None
  end.

Definition heap_index (h : min_heap) (node_id : Z) : option nat :=
  heap_index_from (elements h) (size h) node_id 0.

Definition decrease_key (h : min_heap) (node_id : Z) (distance : float) : min_heap :=
  match heap_index h node_id with
  | Some i =>
      let els := <[i := mk_heap_node (hn_node_id (elements h !!! i)) distance]>
                   (elements h) in
      mk_min_heap (sift_up i els i) (size h) (capacity h)
  | None => h
  end.

Definition is_in_min_heap (h : min_heap) (node_id : Z) : bool :=
  bool_decide (is_Some (heap_index h node_id)).

Definition insert_min_heap (h : min_heap) (node_id : Z) (distance : float) : min_heap :=
  if (size h =? capacity h)%nat then h
  else
    let i := size h in
    let els := <[i := mk_heap_node node_id distance]> (elements h) in
    mk_min_heap (sift_up i els i) (S (size h)) (capacity h).

(** [find_node_index_in_way]: the first index of [node_id], or [-1]. *)
Fixpoint find_index_from (ids : list Z) (node_id : Z) (i : Z) : Z :=
  match ids with
  | [] => -1
  | x :: ids' => if x =? node_id then i else find_index_from ids' node_id (i + 1)
  end.

Definition find_node_index_in_way (w : way) (node_id : Z) : Z :=
  find_index_from (w_node_ids w) node_id 0.

(** ** Geometry *)

Definition M_PI : float := 0x1.921fb54442d18p+1%float.

(** [#define d2r(deg) ((deg) * M_PI/180.)] *)
Definition d2r (deg : float) : float := (deg * M_PI / 180)%float.

Definition distance_between_nodes (L : libm) (x y : node) : float :=
  let R := 6371%float in
  let lat1 := n_lat x in
  let lon1 := n_lon x in
  let lat2 := n_lat y in
  let lon2 := n_lon y in
  let dlat := d2r (lat2 - lat1) in
  let dlon := d2r (lon2 - lon1) in
  let a := (c_pow L (c_sin L (dlat / 2)) 2
            + c_cos L (d2r lat1) * c_cos L (d2r lat2)
              * c_pow L (c_sin L (dlon / 2)) 2)%float in
  let c := (2 * c_atan2 L (PrimFloat.sqrt a) (PrimFloat.sqrt (1 - a)))%float in
  (R * c)%float.

(** ** Output *)

(** The newline character. *)
Definition nl : string := String (Ascii.ascii_of_nat 10) "".

Definition err_not_exist (id : Z) : string :=
  "error: node " +:+ pretty id +:+ " does not exist." +:+ nl.
Definition err_twice (id : Z) : string :=
  "error: node " +:+ pretty id +:+ " appeared more than once." +:+ nl.
Definition err_no_roads (u v : Z) : string :=
  "error: there are no roads between node " +:+ pretty u +:+ " and node "
  +:+ pretty v +:+ "." +:+ nl.
Definition err_not_direct (u v : Z) : string :=
  "error: cannot go directly from node " +:+ pretty u +:+ " to node "
  +:+ pretty v +:+ "." +:+ nl.
Definition err_reverse (u v : Z) : string :=
  "error: cannot go in reverse from node " +:+ pretty u +:+ " to node "
  +:+ pretty v +:+ "." +:+ nl.

(** [printf("%d ", id)] for every identifier of a list. *)
Definition print_ids (ids : list Z) : string :=
  foldr (λ id s, pretty id +:+ " " +:+ s) "" ids.

(** ** Travel time of a caller-supplied path *)

(** [id < 0 || id >= m->num_nodes || m->nodes[id] == NULL] *)
Definition node_missing (m : ssmap) (id : Z) : bool :=
  (id <? 0) || (id >=? num_nodes m)
  || match get_node m id with None => true | Some _ => false end.

Fixpoint first_missing (m : ssmap) (node_ids : list Z) : option Z :=
  match node_ids with
  | [] => None
  | id :: rest => if node_missing m id then Some id else first_missing m rest
  end.

(** The inner loop of the second pass: [count] of the [j] with
    [node_ids[j] == x]. *)
Fixpoint count_id (node_ids : list Z) (x : Z) : nat :=
  match node_ids with
  | [] => 0%nat
  | y :: rest => if y =? x then S (count_id rest x) else count_id rest x
  end.

Fixpoint first_repeated (all rest : list Z) : option Z :=
  match rest with
  | [] => None
  | x :: rest' =>
      if (1 <? count_id all x)%nat then Some x else first_repeated all rest'
  end.

(** The pairs [(ids[l], ids[l+1])] for [l = 0 .. length ids - 2]. *)
Fixpoint adjacent_pairs (ids : list Z) : list (Z * Z) :=
  match ids with
  | a :: (b :: _) as rest => (a, b) :: adjacent_pairs rest
  | _ => []
  end.

(** [node1->ways[j]->id == node2->ways[k]->id] *)
Definition same_way_id (m : ssmap) (p1 p2 : nat) : bool :=
  w_id (deref_way m p1) =? w_id (deref_way m p2).

Definition pair_fwd (current next : Z) (ab : Z * Z) : bool :=
  (ab.1 =? current) && (ab.2 =? next).

Definition pair_either (current next : Z) (ab : Z * Z) : bool :=
  pair_fwd current next ab || pair_fwd next current ab.

(** The condition of the fifth pass and of the way selection. *)
Definition pair_legal (one_way : bool) (current next : Z) (ab : Z * Z) : bool :=
  if one_way && pair_fwd current next ab then true
  else if negb one_way && pair_either current next ab then true
  else false.

(** The flags of passes three to five.  A [break] leaves the innermost
    loop only and the flag is never cleared, so each flag says whether
    some iteration of the nested loops sets it. *)
Definition error_three_bool (m : ssmap) (node1 node2 : node) : bool :=
  existsb (λ p1, existsb (λ p2, same_way_id m p1 p2) (n_ways node2)) (n_ways node1).

Definition error_four_bool (m : ssmap) (node1 node2 : node) (current next : Z) : bool :=
  existsb (λ p1,
    existsb (λ p2,
      same_way_id m p1 p2
      && existsb (pair_either current next)
           (adjacent_pairs (w_node_ids (deref_way m p1))))
      (n_ways node2))
    (n_ways node1).

Definition error_five_bool (m : ssmap) (node1 node2 : node) (current next : Z) : bool :=
  existsb (λ p1,
    existsb (λ p2,
      same_way_id m p1 p2
      && existsb (pair_legal (w_one_way (deref_way m p1)) current next)
           (adjacent_pairs (w_node_ids (deref_way m p1))))
      (n_ways node2))
    (n_ways node1).

Fixpoint first_bad_pair (ok : Z → Z → bool) (pairs : list (Z * Z)) : option (Z * Z) :=
  match pairs with
  | [] => None
  | (current, next) :: rest =>
      if ok current next then first_bad_pair ok rest else Some (current, next)
  end.

(** The last loop nest: [way_id] starts at [0] and is overwritten by
    every matching [(j, k)], in loop order. *)
Definition select_way_id (m : ssmap) (node1 node2 : node) (current next : Z) : Z :=
  foldl (λ way_id p1,
    foldl (λ way_id p2,
      if same_way_id m p1 p2
         && existsb (pair_legal (w_one_way (deref_way m p1)) current next)
              (adjacent_pairs (w_node_ids (deref_way m p1)))
      then w_id (deref_way m p1) else way_id)
      way_id (n_ways node2))
    0 (n_ways node1).

Definition leg_speed (m : ssmap) (current next : Z) : float :=
  let node1 := node_at m current in
  let node2 := node_at m next in
  w_max_speed (way_at m (select_way_id m node1 node2 current next)).

Definition leg_distance (L : libm) (m : ssmap) (current next : Z) : float :=
  distance_between_nodes L (node_at m current) (node_at m next).

Definition sum_legs (L : libm) (m : ssmap) (node_ids : list Z) : float :=
  foldl (λ travel_time '(current, next),
           (travel_time + leg_distance L m current next / leg_speed m current next)%float)
        0%float (adjacent_pairs node_ids).

(** What the function prints, and the [double] it returns. *)
Definition ssmap_path_travel_time (L : libm) (m : ssmap) (node_ids : list Z)
  : string * float :=
  match first_missing m node_ids with
  | Some id => (err_not_exist id, (-1)%float)
  | None =>
  match first_repeated node_ids node_ids with
  | Some id => (err_twice id, (-1)%float)
  | None =>
  let pairs := adjacent_pairs node_ids in
  match first_bad_pair (λ c n, error_three_bool m (node_at m c) (node_at m n)) pairs with
  | Some (c, n) => (err_no_roads c n, (-1)%float)
  | None =>
  match first_bad_pair (λ c n, error_four_bool m (node_at m c) (node_at m n) c n) pairs with
  | Some (c, n) => (err_not_direct c n, (-1)%float)
  | None =>
  match first_bad_pair (λ c n, error_five_bool m (node_at m c) (node_at m n) c n) pairs with
  | Some (c, n) => (err_reverse c n, (-1)%float)
  | None => ("", (sum_legs L m node_ids * 60)%float)
  end end end end end.

(** ** Shortest path *)

(** The arrays [dist], [visited] and [parent] and the heap. *)
Record dstate := mk_dstate {
  d_dist : list float;
  d_visited : list bool;
  d_parent : list Z;
  d_heap : min_heap
}.

(** The body of [for (offset = -1; offset <= 1; offset += 2)]. *)
Definition explore_offset (L : libm) (m : ssmap) (u : Z) (w : way)
    (node_index offset : Z) (st : dstate) : dstate :=
  let next_node_index := node_index + offset in
  if (0 <=? next_node_index) && (next_node_index <? Z.of_nat (length (w_node_ids w)))
  then
    let v := w_node_ids w !!! Z.to_nat next_node_index in
    if w_one_way w && (offset <? 0) then st
    else if negb (d_visited st !!! Z.to_nat v)
            && negb (d_dist st !!! Z.to_nat u =? infinity)%float
    then
      let alt := (d_dist st !!! Z.to_nat u
                  + distance_between_nodes L (node_at m u) (node_at m v)
                    / w_max_speed w * 60)%float in
      if (alt <? d_dist st !!! Z.to_nat v)%float then
        mk_dstate (<[Z.to_nat v := alt]> (d_dist st))
                  (d_visited st)
                  (<[Z.to_nat v := u]> (d_parent st))
                  (if negb (is_in_min_heap (d_heap st) v)
                   then insert_min_heap (d_heap st) v alt
                   else decrease_key (d_heap st) v alt)
      else st
    else st
  else st.

(** The body of the loop over [m->nodes[u]->ways]. *)
Definition explore_way (L : libm) (m : ssmap) (u : Z) (w : way) (st : dstate) : dstate :=
  let node_index := find_node_index_in_way w u in
  explore_offset L m u w node_index 1 (explore_offset L m u w node_index (-1) st).

Definition explore_node (L : libm) (m : ssmap) (u : Z) (st : dstate) : dstate :=
  foldl (λ st p, explore_way L m u (deref_way m p) st) st (n_ways (node_at m u)).

(** The [while (min_heap->size > 0)] loop; [None] when [fuel] iterations
    did not end it. *)
Fixpoint dijkstra_loop (L : libm) (m : ssmap) (end_id : Z) (fuel : nat) (st : dstate)
  : option dstate :=
  match fuel with
  | O => None
  | S fuel' =>
      if (0 <? size (d_heap st))%nat then
        let '(min_heap_node, h) := extract_min (d_heap st) in
        let u := hn_node_id min_heap_node in
        let st1 := mk_dstate (d_dist st) (<[Z.to_nat u := true]> (d_visited st))
                             (d_parent st) h in
        if u =? end_id then Some st1
        else dijkstra_loop L m end_id fuel' (explore_node L m u st1)
      else Some st
  end.

Definition dijkstra_init (m : ssmap) (start_id : Z) : dstate :=
  let n := length (m_nodes m) in
  mk_dstate (<[Z.to_nat start_id := 0%float]> (replicate n infinity))
            (replicate n false)
            (replicate n (-1))
            (insert_min_heap (create_min_heap n) start_id 0%float).

(** Every iteration marks one more node visited, so [num_nodes + 1]
    rounds of the loop test are enough (see [dijkstra_terminates]). *)
Definition dijkstra (L : libm) (m : ssmap) (start_id end_id : Z) : option dstate :=
  dijkstra_loop L m end_id (S (length (m_nodes m))) (dijkstra_init m start_id).

(** [for (at = end_id; at != -1; at = parent[at]) stack[++top] = at]:
    the stack in push order; [None] when it would not fit the
    [num_nodes] slots of [stack]. *)
Fixpoint trace_parents (fuel : nat) (parent : list Z) (cur : Z) : option (list Z) :=
  if cur =? -1 then Some []
  else match fuel with
       | O => None
       | S fuel' => (cur ::.) <$> trace_parents fuel' parent (parent !!! Z.to_nat cur)
       end.

Inductive path_result :=
  | PathError (id : Z)            (* a missing end point *)
  | PathSame (start_id end_id : Z) (* start and end coincide *)
  | PathNone                       (* nothing is printed *)
  | PathFound (ids : list Z).      (* the identifiers printed, start first *)

Definition path_create_result (L : libm) (m : ssmap) (start_id end_id : Z)
  : option path_result :=
  if node_missing m start_id then Some (PathError start_id)
  else if node_missing m end_id then Some (PathError end_id)
  else if start_id =? end_id then Some (PathSame start_id end_id)
  else
    st ← dijkstra L m start_id end_id;
    if d_parent st !!! Z.to_nat end_id =? -1 then Some PathNone
    else
      stack ← trace_parents (length (m_nodes m)) (d_parent st) end_id;
      Some (PathFound (rev stack)).

Definition print_path_result (r : path_result) : string :=
  match r with
  | PathError id => err_not_exist id
  | PathSame s e => pretty s +:+ " " +:+ pretty e +:+ nl
  | PathNone => ""
  | PathFound ids => print_ids ids +:+ nl
  end.

(** What [ssmap_path_create] prints. *)
Definition ssmap_path_create (L : libm) (m : ssmap) (start_id end_id : Z)
  : option string :=
  print_path_result <$> path_create_result L m start_id end_id.

(** The identifiers a call prints as its path, and the router's cost
    [dist[end_id]] of it. *)
Definition printed_path (r : path_result) : list Z :=
  match r with
  | PathSame s e => [s; e]
  | PathFound ids => ids
  | _ => []
  end.

Definition path_cost (L : libm) (m : ssmap) (start_id end_id : Z) : option float :=
  st ← dijkstra L m start_id end_id;
  Some (d_dist st !!! Z.to_nat end_id).

(** ** Search by name *)

(** [strstr(haystack, needle) != NULL] *)
Fixpoint strstr_found (haystack needle : string) : bool :=
  if String.prefix needle haystack then true
  else match haystack with
       | "" => false
       | String _ rest => strstr_found rest needle
       end.

Definition name_matches (m : ssmap) (name : option string) (i : Z) : bool :=
  match name with
  | None => false
  | Some s => strstr_found (w_name (way_at m i)) s
  end.

(** The first loop: the arrays [ways_with_name1] and [ways_with_name2]. *)
Definition collect_ways (m : ssmap) (name1 : string) (name2 : option string)
  : list Z * list Z :=
  foldl (λ '(ways1, ways2) i,
    if strstr_found (w_name (way_at m i)) name1 then
      (ways1 ++ [i], if name_matches m name2 i then ways2 ++ [i] else ways2)
    else if name_matches m name2 i then (ways1, ways2 ++ [i])
    else (ways1, ways2))
    ([], []) (seqZ 0 (num_ways m)).

Definition node_way_ids (m : ssmap) (n : node) : list Z :=
  (λ p, w_id (deref_way m p)) <$> n_ways n.

(** [bool_checker] of the one-name branch. *)
Definition touches_name1 (ways1 ids : list Z) : bool :=
  existsb (λ wj, existsb (λ w1, wj =? w1) ways1) ids.

(** [bool_checker1 && bool_checker2] of the two-name branch:
    [found_name1] and [found_name2] are cleared for every [j], and
    [found_name2] is set only under a [k] with
    [node_way_ids[j] == ways_with_name1[k]]. *)
Definition touches_both (ways1 ways2 ids : list Z) : bool :=
  existsb (λ wj,
    existsb (λ w1,
      (wj =? w1)
      && existsb (λ wl, existsb (λ w2, (wl =? w2) && negb (w1 =? w2)) ways2) ids)
      ways1)
    ids.

(** The identifiers printed, in order. *)
Definition find_node_by_names_ids (m : ssmap) (name1 : string) (name2 : option string)
  : list Z :=
  let '(ways1, ways2) := collect_ways m name1 name2 in
  List.filter (λ i,
    let ids := node_way_ids m (node_at m i) in
    match name2 with
    | None => touches_name1 ways1 ids
    | Some _ => touches_both ways1 ways2 ids
    end) (seqZ 0 (num_nodes m)).

Definition ssmap_find_node_by_names (m : ssmap) (name1 : string) (name2 : option string)
  : string :=
  print_ids (find_node_by_names_ids m name1 name2) +:+ nl.

(** ** The reads of [extract_min]

    [extract_min] and [min_heapify] once more, with every read of
    [elements[i]] recorded: a computation yields its result and the
    indices it has read, in the order of the source.  The guards
    [left < size && ...] read nothing when the index test fails, as [&&]
    does not evaluate its second operand then. *)
Definition reads (A : Type) : Type := A * list nat.

#[global] Instance reads_ret : MRet reads := λ A x, (x, []).
#[global] Instance reads_bind : MBind reads :=
  λ A B f c, (((f c.1).1, c.2 ++ (f c.1).2) : reads B).

(** [elements[i]] *)
Definition read_at (els : list heap_node) (i : nat) : reads heap_node :=
  (els !!! i, [i]).

(** [swap_heap_node(&elements[i], &elements[j])] reads both. *)
Definition swap_reads (els : list heap_node) (i j : nat) : reads (list heap_node) :=
  _ ← read_at els i; _ ← read_at els j; mret (swap_heap_node els i j).

(** [c < size && elements[c].distance < elements[smallest].distance] *)
Definition smaller_reads (els : list heap_node) (sz c smallest : nat) : reads nat :=
  if (c <? sz)%nat then
    a ← read_at els c; b ← read_at els smallest;
    mret (if (hn_distance a <? hn_distance b)%float then c else smallest)
  else mret smallest.

Fixpoint min_heapify_reads (fuel : nat) (els : list heap_node) (sz idx : nat)
  : reads (list heap_node) :=
  match fuel with
  | O => mret els
  | S fuel' =>
      let left := (2 * idx + 1)%nat in
      let right := (2 * idx + 2)%nat in
      smallest ← smaller_reads els sz left idx;
      smallest ← smaller_reads els sz right smallest;
      if negb (smallest =? idx)%nat
      then els' ← swap_reads els idx smallest;
           min_heapify_reads fuel' els' sz smallest
      else mret els
  end.

Definition extract_min_reads (h : min_heap) : reads (heap_node * min_heap) :=
  if (size h =? 0)%nat then mret (mk_heap_node (-1) 0%float, h)
  else
    root ← read_at (elements h) 0;
    last_node ← read_at (elements h) (size h - 1);
    let els := <[0%nat := last_node]> (elements h) in
    els' ← min_heapify_reads (size h - 1) els (size h - 1) 0;
    mret (root, mk_min_heap els' (size h - 1) (capacity h)).

(** ** Search for segments by name *)

(** [ssmap_find_way_by_name]: the slots [i] with [m->ways[i] != NULL]
    whose name contains [name], in increasing order. *)
Definition find_way_by_name_ids (m : ssmap) (name : string) : list Z :=
  List.filter (λ i, match get_way m i with
                    | Some w => strstr_found (w_name w) name
                    | None => false
                    end) (seqZ 0 (num_ways m)).

Definition ssmap_find_way_by_name (m : ssmap) (name : string) : string :=
  print_ids (find_way_by_name_ids m name) +:+ nl.

(** ** Building and printing the map *)

(** [ssmap_add_way]: the new way, a copy of the arguments, is stored in
    [m->ways[id]].  The store is inside the array for
    [0 ≤ id < num_ways]; outside it the source writes out of bounds, and
    the model, which leaves the map as it is, stands for the source only
    inside the array.  A node added before keeps the pointer it copied
    from the slot, so the model stands for the source as long as no node
    refers to the slot yet. *)
Definition ssmap_add_way (m : ssmap) (id : Z) (name : string) (maxspeed : float)
    (oneway : bool) (node_ids : list Z) : ssmap :=
  if id <? 0 then m
  else mk_ssmap (m_nodes m)
         (<[Z.to_nat id := Some (mk_way id name maxspeed oneway node_ids)]> (m_ways m)).

(** The slot [m->ways[way_id]] that [ssmap_add_node] copies; an index
    outside the array is some slot outside it. *)
Definition way_slot (m : ssmap) (way_id : Z) : nat :=
  if way_id <? 0 then length (m_ways m) else Z.to_nat way_id.

(** [ssmap_add_node]: the new node, with [ways[i] = m->ways[way_ids[i]]],
    is stored in [m->nodes[id]].  The node keeps the pointers it copied;
    the slots stand for them as long as no way is stored into these
    slots afterwards, as when every way is added before the nodes. *)
Definition ssmap_add_node (m : ssmap) (id : Z) (lat lon : float) (way_ids : list Z)
    : ssmap :=
  if id <? 0 then m
  else mk_ssmap
         (<[Z.to_nat id := Some (mk_node id lat lon (way_slot m <$> way_ids))]>
            (m_nodes m))
         (m_ways m).

(** What [ssmap_print_way] prints. *)
Definition ssmap_print_way (m : ssmap) (id : Z) : string :=
  if (id <? 0) || (id >=? num_ways m)
     || match get_way m id with None => true | Some _ => false end
  then "error: way " +:+ pretty id +:+ " does not exist" +:+ nl
  else "Way " +:+ pretty id +:+ ": " +:+ w_name (way_at m id) +:+ nl.

(** ** The rounds of the search loop *)

(** One round of the [while] loop that does not leave it: the minimum is
    extracted and marked, and its segments are explored. *)
Definition loop_round (L : libm) (m : ssmap) (st : dstate) : dstate :=
  let u := hn_node_id (extract_min (d_heap st)).1 in
  explore_node L m u
    (mk_dstate (d_dist st) (<[Z.to_nat u := true]> (d_visited st))
               (d_parent st) (extract_min (d_heap st)).2).

(** The states in which the test of the [while] loop is evaluated. *)
Inductive loop_head (L : libm) (m : ssmap) (start_id end_id : Z) : dstate → Prop :=
  | loop_head_init : loop_head L m start_id end_id (dijkstra_init m start_id)
  | loop_head_next st :
      loop_head L m start_id end_id st →
      (0 < size (d_heap st))%nat →
      hn_node_id (extract_min (d_heap st)).1 ≠ end_id →
      loop_head L m start_id end_id (loop_round L m st).

(** ** Vocabulary of the specification *)

(** *** Well-formed maps

    Identifiers are dense and equal to the slot; every segment listed by
    a point exists and lists the point; every identifier listed by a
    segment is an existing point that lists the segment. *)
Fixpoint forallbi {A} (f : nat → A → bool) (i : nat) (l : list A) : bool :=
  match l with
  | [] => true
  | x :: l' => f i x && forallbi f (S i) l'
  end.

Definition wf_node (m : ssmap) (i : nat) (on : option node) : bool :=
  match on with
  | None => false
  | Some n =>
      (n_id n =? Z.of_nat i)
      && forallb (λ p, match m_ways m !! p with
                       | Some (Some w) => existsb (λ x, x =? Z.of_nat i) (w_node_ids w)
                       | _ => false
                       end) (n_ways n)
  end.

Definition wf_way (m : ssmap) (j : nat) (ow : option way) : bool :=
  match ow with
  | None => false
  | Some w =>
      (w_id w =? Z.of_nat j)
      && forallb (λ v, match get_node m v with
                       | Some n => existsb (λ p, (p =? j)%nat) (n_ways n)
                       | None => false
                       end) (w_node_ids w)
  end.

Definition wf_map (m : ssmap) : bool :=
  forallbi (wf_node m) 0 (m_nodes m) && forallbi (wf_way m) 0 (m_ways m).

(** *** The direct-step relation *)

(** Segment [w] lists [a] at some position [i] and [b] at [i + 1]. *)
Definition lists_at (w : way) (i : nat) (a b : Z) : Prop :=
  w_node_ids w !! i = Some a ∧ w_node_ids w !! S i = Some b.

(** [step(u, v, w)]: [w] lists [u] and [v] at adjacent positions
    [(i, i+1)], and either [w] is two-way, or [w] is one-way and the
    positions are in the order [u] then [v]. *)
Definition step (w : way) (u v : Z) : Prop :=
  ∃ i : nat, (lists_at w i u v ∨ lists_at w i v u)
             ∧ (w_one_way w = false ∨ (w_one_way w = true ∧ lists_at w i u v)).

Definition is_way (m : ssmap) (w : way) : Prop :=
  ∃ j : nat, m_ways m !! j = Some (Some w).

(** Some segment of the map witnesses a step from [u] to [v]. *)
Definition connected (m : ssmap) (u v : Z) : Prop :=
  ∃ w, is_way m w ∧ step w u v.

(** A directed path of steps. *)
Definition reachable (m : ssmap) : Z → Z → Prop := rtc (connected m).

(** Some segment lists [u] and [v] next to each other, and no segment
    allows the step from [u] to [v]: every segment joining them is one-way
    and lists [v] before [u]. *)
Definition against_one_way (m : ssmap) (u v : Z) : Prop :=
  (∃ w i, is_way m w ∧ (lists_at w i u v ∨ lists_at w i v u))
  ∧ ¬ connected m u v.

(** [u] and [v] follow each other in [path]. *)
Definition consecutive (path : list Z) (u v : Z) : Prop :=
  ∃ i : nat, path !! i = Some u ∧ path !! S i = Some v.

(** *** The passes of the validator *)

Definition point_exists (m : ssmap) (id : Z) : Prop :=
  0 ≤ id < num_nodes m ∧ is_Some (get_node m id).

(** The first element of [l] that fails [ok]. *)
Definition first_offender {A} (ok : A → Prop) (l : list A) (x : A) : Prop :=
  ∃ pre post, l = pre ++ x :: post ∧ Forall ok pre ∧ ¬ ok x.

Definition occurs_once (path : list Z) (x : Z) : Prop :=
  ∀ i j : nat, path !! i = Some x → path !! j = Some x → i = j.

(** The points share a segment; a shared segment lists them at
    consecutive positions; a shared segment allows the step. *)
Definition co_member (m : ssmap) (uv : Z * Z) : Prop :=
  ∃ p1 p2, p1 ∈ n_ways (node_at m uv.1) ∧ p2 ∈ n_ways (node_at m uv.2)
           ∧ w_id (deref_way m p1) = w_id (deref_way m p2).

Definition shared_way (m : ssmap) (uv : Z * Z) (w : way) : Prop :=
  ∃ p1 p2, p1 ∈ n_ways (node_at m uv.1) ∧ p2 ∈ n_ways (node_at m uv.2)
           ∧ w_id (deref_way m p1) = w_id (deref_way m p2)
           ∧ w = deref_way m p1.

Definition directly_adjacent (m : ssmap) (uv : Z * Z) : Prop :=
  ∃ w i, shared_way m uv w ∧ (lists_at w i uv.1 uv.2 ∨ lists_at w i uv.2 uv.1).

Definition direction_ok (m : ssmap) (uv : Z * Z) : Prop :=
  ∃ w, shared_way m uv w ∧ step w uv.1 uv.2.

(** The verdict of the five ordered passes: the first pass that fails,
    with its first offending identifier or pair, or [Valid]. *)
Inductive verdict :=
  | Missing (id : Z)
  | Repeated (id : Z)
  | NoRoads (u v : Z)
  | NotDirect (u v : Z)
  | Reverse (u v : Z)
  | Valid.

Definition verdict_holds (m : ssmap) (path : list Z) (r : verdict) : Prop :=
  let pairs := adjacent_pairs path in
  match r with
  | Missing id => first_offender (point_exists m) path id
  | Repeated id =>
      Forall (point_exists m) path ∧ first_offender (occurs_once path) path id
  | NoRoads u v =>
      Forall (point_exists m) path ∧ NoDup path
      ∧ first_offender (co_member m) pairs (u, v)
  | NotDirect u v =>
      Forall (point_exists m) path ∧ NoDup path ∧ Forall (co_member m) pairs
      ∧ first_offender (directly_adjacent m) pairs (u, v)
  | Reverse u v =>
      Forall (point_exists m) path ∧ NoDup path ∧ Forall (co_member m) pairs
      ∧ Forall (directly_adjacent m) pairs
      ∧ first_offender (direction_ok m) pairs (u, v)
  | Valid =>
      Forall (point_exists m) path ∧ NoDup path ∧ Forall (co_member m) pairs
      ∧ Forall (directly_adjacent m) pairs ∧ Forall (direction_ok m) pairs
  end.

(** The error line of a verdict ([""] when valid). *)
Definition verdict_line (r : verdict) : string :=
  match r with
  | Missing id => err_not_exist id
  | Repeated id => err_twice id
  | NoRoads u v => err_no_roads u v
  | NotDirect u v => err_not_direct u v
  | Reverse u v => err_reverse u v
  | Valid => ""
  end.

(** *** Way selection *)

(** The segments of [u]'s list, in list order, that [v] lists too and
    that allow the step from [u] to [v]. *)
Definition qualifies (m : ssmap) (u v : Z) (p : nat) : bool :=
  existsb (λ p2, same_way_id m p p2) (n_ways (node_at m v))
  && existsb (pair_legal (w_one_way (deref_way m p)) u v)
       (adjacent_pairs (w_node_ids (deref_way m p))).

Definition qualifying_ways (m : ssmap) (u v : Z) : list nat :=
  List.filter (qualifies m u v) (n_ways (node_at m u)).

(** *** Name search *)

Definition contains (name sub : string) : Prop :=
  ∃ pre post, name = pre +:+ sub +:+ post.

(** Point [i] touches a segment whose name contains [name1] and a
    different segment whose name contains [name2]. *)
Definition touches_two (m : ssmap) (name1 name2 : string) (i : Z) : Prop :=
  ∃ p q, p ∈ n_ways (node_at m i) ∧ q ∈ n_ways (node_at m i) ∧ p ≠ q
         ∧ contains (w_name (deref_way m p)) name1
         ∧ contains (w_name (deref_way m q)) name2.

(** *** The router's parent chains *)

Definition heap_ids (h : min_heap) : list Z :=
  hn_node_id <$> take (size h) (elements h).

Definition heap_ok (h : min_heap) : Prop :=
  length (elements h) = capacity h ∧ (size h ≤ capacity h)%nat.

(** [pchain parent start v l]: following [parent] from [v] reaches
    [start] through the points of [l], listed from [start] to [v]
    without repetition. *)
Inductive pchain (parent : list Z) (start : Z) : Z → list Z → Prop :=
  | pchain_start :
      parent !!! Z.to_nat start = -1 → pchain parent start start [start]
  | pchain_step v l :
      parent !!! Z.to_nat v ≠ -1 →
      pchain parent start (parent !!! Z.to_nat v) l →
      v ∉ l →
      pchain parent start v (l ++ [v]).

(** The first occurrence of [u] in a list of identifiers. *)
Definition first_occurrence (ids : list Z) (u : Z) (i : nat) : Prop :=
  ids !! i = Some u ∧ ∀ j : nat, (j < i)%nat → ids !! j ≠ Some u.

(** *** The invariant of the router's loop *)

Definition vis (st : dstate) (v : Z) : Prop := d_visited st !!! Z.to_nat v = true.

Definition in_range (m : ssmap) (v : Z) : Prop := 0 ≤ v < num_nodes m.

(** [v] is next to the first occurrence of [u] in [w]: after it, or
    before it when [w] is two-way. *)
Definition first_edge (w : way) (u v : Z) : Prop :=
  ∃ i0 : nat, first_occurrence (w_node_ids w) u i0
    ∧ (w_node_ids w !! S i0 = Some v
       ∨ (w_one_way w = false ∧ (0 < i0)%nat
          ∧ w_node_ids w !! (i0 - 1)%nat = Some v)).

(** The router's edges: in a segment of [u]'s list, [v] is next to the
    first occurrence of [u]. *)
Definition redge (m : ssmap) (u v : Z) : Prop :=
  ∃ p, p ∈ n_ways (node_at m u) ∧ first_edge (deref_way m p) u v.

(** What holds of the arrays and the heap from the first extraction on:
    [start] is visited and has no predecessor; the heap holds distinct
    unvisited points, each with a predecessor; a predecessor is visited
    and joined to its point by an edge; every visited point has a chain
    of visited predecessors back to [start]. *)
Record dinv (m : ssmap) (start : Z) (st : dstate) : Prop := mk_dinv {
  inv_len_dist : length (d_dist st) = length (m_nodes m);
  inv_len_vis : length (d_visited st) = length (m_nodes m);
  inv_len_par : length (d_parent st) = length (m_nodes m);
  inv_heap_ok : heap_ok (d_heap st);
  inv_start : in_range m start ∧ vis st start ∧ d_parent st !!! Z.to_nat start = -1;
  inv_heap_nodup : NoDup (heap_ids (d_heap st));
  inv_heap : ∀ v, v ∈ heap_ids (d_heap st) →
      in_range m v ∧ ¬ vis st v ∧ d_parent st !!! Z.to_nat v ≠ -1;
  inv_parent : ∀ v, in_range m v → d_parent st !!! Z.to_nat v ≠ -1 →
      in_range m (d_parent st !!! Z.to_nat v)
      ∧ vis st (d_parent st !!! Z.to_nat v)
      ∧ redge m (d_parent st !!! Z.to_nat v) v;
  inv_chain : ∀ v, in_range m v → vis st v →
      ∃ l, pchain (d_parent st) start v l ∧ ∀ x, x ∈ l → in_range m x ∧ vis st x
}.

(** The measure of the loop: the number of points not yet visited. *)
Definition unvisited (st : dstate) : nat :=
  length (List.filter negb (d_visited st)).

(** The router's record of point [x] is the same in two states. *)
Definition same_at (x : Z) (st st' : dstate) : Prop :=
  d_dist st' !! Z.to_nat x = d_dist st !! Z.to_nat x
  ∧ d_parent st' !! Z.to_nat x = d_parent st !! Z.to_nat x
  ∧ d_visited st' = d_visited st
  ∧ is_in_min_heap (d_heap st') x = is_in_min_heap (d_heap st) x.

(** *** The passes of the validator, by position

    The legs of a sequence are given by their positions in it: the leg
    at position [i] joins the identifiers at positions [i] and [i + 1]. *)
Definition leg_at (path : list Z) (i : nat) (uv : Z * Z) : Prop :=
  path !! i = Some uv.1 ∧ path !! S i = Some uv.2.

Definition all_legs (ok : Z * Z → Prop) (path : list Z) : Prop :=
  ∀ i uv, leg_at path i uv → ok uv.

(** The leg of least position that fails [ok]. *)
Definition first_bad_leg (ok : Z * Z → Prop) (path : list Z) (uv : Z * Z) : Prop :=
  ∃ i, leg_at path i uv ∧ ¬ ok uv
       ∧ ∀ j uv', (j < i)%nat → leg_at path j uv' → ok uv'.

(** The outcome of the five passes in their order: existence,
    uniqueness, co-membership, direct adjacency, directionality.  The
    outcome of a pass requires every earlier pass to hold of the whole
    sequence. *)
Definition pass_verdict (m : ssmap) (path : list Z) (r : verdict) : Prop :=
  match r with
  | Missing id => first_offender (point_exists m) path id
  | Repeated id =>
      Forall (point_exists m) path ∧ first_offender (occurs_once path) path id
  | NoRoads u v =>
      Forall (point_exists m) path ∧ NoDup path
      ∧ first_bad_leg (co_member m) path (u, v)
  | NotDirect u v =>
      Forall (point_exists m) path ∧ NoDup path ∧ all_legs (co_member m) path
      ∧ first_bad_leg (directly_adjacent m) path (u, v)
  | Reverse u v =>
      Forall (point_exists m) path ∧ NoDup path ∧ all_legs (co_member m) path
      ∧ all_legs (directly_adjacent m) path
      ∧ first_bad_leg (direction_ok m) path (u, v)
  | Valid =>
      Forall (point_exists m) path ∧ NoDup path ∧ all_legs (co_member m) path
      ∧ all_legs (directly_adjacent m) path ∧ all_legs (direction_ok m) path
  end.

(** The character of code 10. *)
Definition line_feed : string :=
  String (Ascii.Ascii false true false true false false false false) "".

(** The error lines of section 7 of the specification, in its words,
    each ended by a line feed; nothing for a valid sequence. *)
Definition section7_line (r : verdict) : string :=
  match r with
  | Missing id =>
      "error: node " +:+ pretty id +:+ " does not exist." +:+ line_feed
  | Repeated id =>
      "error: node " +:+ pretty id +:+ " appeared more than once." +:+ line_feed
  | NoRoads u v =>
      "error: there are no roads between node " +:+ pretty u +:+ " and node "
      +:+ pretty v +:+ "." +:+ line_feed
  | NotDirect u v =>
      "error: cannot go directly from node " +:+ pretty u +:+ " to node "
      +:+ pretty v +:+ "." +:+ line_feed
  | Reverse u v =>
      "error: cannot go in reverse from node " +:+ pretty u +:+ " to node "
      +:+ pretty v +:+ "." +:+ line_feed
  | Valid => ""
  end.

(** *** Cost and travel time of a path *)






(** *** The order of binary64 numbers *)

(** A number (not a NaN) as a triple that orders like it,
    lexicographically: class and sign first, then exponent and mantissa,
    both negated for a negative number. *)
Definition sf_rank (f : spec_float) : Z * Z * Z :=
  match f with
  | S754_zero _ => (0, 0, 0)
  | S754_infinity s => (if s then -2 else 2, 0, 0)
  | S754_nan => (0, 0, 0)
  | S754_finite s m e => if s then (-1, - e, - Z.pos m) else (1, e, Z.pos m)
  end.

(** The lexicographic order of the triples. *)
Definition lt3 (a b : Z * Z * Z) : Prop :=
  a.1.1 < b.1.1 ∨ (a.1.1 = b.1.1 ∧ (a.1.2 < b.1.2 ∨ (a.1.2 = b.1.2 ∧ a.2 < b.2))).

(** *** The heap order *)

(** The entries of the queue: the first [size] elements of the array. *)
Definition heap_entries (h : min_heap) : list heap_node :=
  take (size h) (elements h).

(** No distance in the queue is a NaN. *)
Definition keys_are_numbers (h : min_heap) : Prop :=
  Forall (λ e, is_nan (hn_distance e) = false) (heap_entries h).

(** No entry is below its parent, the entry at [(i - 1) / 2], by the
    comparison the code makes. *)
Definition heap_ordered (h : min_heap) : Prop :=
  ∀ i : nat, (0 < i < size h)%nat →
    (dist_at (elements h) i <? dist_at (elements h) ((i - 1) / 2))%float = false.

(** The entry at [c] is not below the entry at [p]. *)
Definition le_at (els : list heap_node) (p c : nat) : Prop :=
  (dist_at els c <? dist_at els p)%float = false.

(** The order holds on every edge but the one above [i], and the parent
    of [i] is not above the children of [i]. *)
Definition up_inv (els : list heap_node) (n i : nat) : Prop :=
  (∀ j : nat, (0 < j < n)%nat → j ≠ i → le_at els ((j - 1) / 2) j)
  ∧ (∀ j : nat, (0 < j < n)%nat → ((j - 1) / 2)%nat = i → (0 < i)%nat →
       le_at els ((i - 1) / 2) j).

(** The order holds on every edge but those below [i], and the parent
    of [i] is not above the children of [i]. *)
Definition down_inv (els : list heap_node) (n i : nat) : Prop :=
  (∀ j : nat, (0 < j < n)%nat → ((j - 1) / 2)%nat ≠ i → le_at els ((j - 1) / 2) j)
  ∧ (∀ j : nat, (0 < j < n)%nat → ((j - 1) / 2)%nat = i → (0 < i)%nat →
       le_at els ((i - 1) / 2) j).

(** The pushes of a list of entries, in order, on a new queue. *)
Definition push_all (capacity : nat) (l : list heap_node) : min_heap :=
  foldl (λ h e, insert_min_heap h (hn_node_id e) (hn_distance e))
        (create_min_heap capacity) l.

(** *** The queue of the router *)

(** The cost the router adds for the step from [u] to [v] along [w]. *)
Definition edge_cost (L : libm) (m : ssmap) (u v : Z) (w : way) : float :=
  (distance_between_nodes L (node_at m u) (node_at m v) / w_max_speed w * 60)%float.

(** What the queue and the distances satisfy at every test of the loop:
    the queue has the capacity of the map and is ordered; a queued entry
    carries the point's current distance, a number; a point with a
    predecessor is visited or queued, and its distance is its
    predecessor's plus the cost of an edge between them. *)
Record qinv (L : libm) (m : ssmap) (start : Z) (st : dstate) : Prop := mk_qinv {
  q_cap : capacity (d_heap st) = length (m_nodes m);
  q_ordered : heap_ordered (d_heap st);
  q_dist : ∀ e, e ∈ heap_entries (d_heap st) →
      hn_distance e = d_dist st !!! Z.to_nat (hn_node_id e)
      ∧ is_nan (hn_distance e) = false;
  q_queued : ∀ v, in_range m v → d_parent st !!! Z.to_nat v ≠ -1 →
      vis st v ∨ v ∈ heap_ids (d_heap st);
  q_start : d_dist st !!! Z.to_nat start = 0%float;
  q_cost : ∀ v, in_range m v → d_parent st !!! Z.to_nat v ≠ -1 →
      ∃ p, p ∈ n_ways (node_at m (d_parent st !!! Z.to_nat v))
           ∧ first_edge (deref_way m p) (d_parent st !!! Z.to_nat v) v
           ∧ d_dist st !!! Z.to_nat v
             = (d_dist st !!! Z.to_nat (d_parent st !!! Z.to_nat v)
                + edge_cost L m (d_parent st !!! Z.to_nat v) v (deref_way m p))%float
}.

(** The state the loop ends in: a state at its test with an empty
    queue, or one whose minimum is [end_id], marked visited. *)
Definition loop_exit (end_id : Z) (st0 st' : dstate) : Prop :=
  (size (d_heap st0) = 0%nat ∧ st' = st0)
  ∨ ((0 < size (d_heap st0))%nat
     ∧ hn_node_id (extract_min (d_heap st0)).1 = end_id
     ∧ st' = mk_dstate (d_dist st0)
               (<[Z.to_nat (hn_node_id (extract_min (d_heap st0)).1) := true]>
                  (d_visited st0))
               (d_parent st0) (extract_min (d_heap st0)).2).

(** *** What the search reaches *)

(** The points the router looks at from [u] along [w]: those next to
    the first occurrence of [u], the one before it only on a two-way
    segment. *)
Definition neighbours (w : way) (u : Z) : list Z :=
  let node_index := find_node_index_in_way w u in
  omap (λ offset,
    let next_node_index := node_index + offset in
    if (0 <=? next_node_index)
       && (next_node_index <? Z.of_nat (length (w_node_ids w)))
       && negb (w_one_way w && (offset <? 0))
    then Some (w_node_ids w !!! Z.to_nat next_node_index) else None) [-1; 1].

(** Every distance [alt] that the round exploring [u] computes is below
    [+∞]: the round computes one for each neighbour [v] with
    [!visited[v] && dist[u] != INFINITY], [u] being marked visited. *)
Definition relax_ok (L : libm) (m : ssmap) (st : dstate) (u : Z) : bool :=
  forallb (λ p,
    forallb (λ v,
      negb (negb (<[Z.to_nat u := true]> (d_visited st) !!! Z.to_nat v)
            && negb (d_dist st !!! Z.to_nat u =? infinity)%float)
      || (d_dist st !!! Z.to_nat u + edge_cost L m u v (deref_way m p) <? infinity)%float)
      (neighbours (deref_way m p) u))
    (n_ways (node_at m u)).

(** No round of the search computes [+∞] or a NaN: at every test of the
    loop that is followed by a round, one that extracts a point other
    than the end, the distances the round computes are below [+∞]. *)
Definition no_overflow (L : libm) (m : ssmap) (start_id end_id : Z) : Prop :=
  ∀ st, loop_head L m start_id end_id st → (0 < size (d_heap st))%nat →
        hn_node_id (extract_min (d_heap st)).1 ≠ end_id →
        relax_ok L m st (hn_node_id (extract_min (d_heap st)).1) = true.

(** The search has reached [v]: it is the start or has a predecessor. *)
Definition reached (start : Z) (st : dstate) (v : Z) : Prop :=
  v = start ∨ d_parent st !!! Z.to_nat v ≠ -1.

(** A point not reached has distance [+∞], and no queued point has. *)
Record cinv (m : ssmap) (start : Z) (st : dstate) : Prop := mk_cinv {
  c_inf : ∀ v, in_range m v → ¬ reached start st v →
      d_dist st !!! Z.to_nat v = infinity;
  c_fin : ∀ v, v ∈ heap_ids (d_heap st) →
      (d_dist st !!! Z.to_nat v =? infinity)%float = false
}.

(** The points next to a visited point along the router's edges are
    reached. *)
Definition closed (m : ssmap) (start : Z) (st : dstate) : Prop :=
  ∀ u v, in_range m u → vis st u → redge m u v → reached start st v.

(** *** The one-name search *)

(** Point [i] touches a segment whose name contains [name]. *)
Definition touches_one (m : ssmap) (name : string) (i : Z) : Prop :=
  ∃ p, p ∈ n_ways (node_at m i) ∧ contains (w_name (deref_way m p)) name.

(** *** A loader *)

(** A loader's calls: every way, then every node, each given by the
    arguments of its call. *)
Definition add_ways (m : ssmap) (ws : list way) : ssmap :=
  foldl (λ m w, ssmap_add_way m (w_id w) (w_name w) (w_max_speed w)
                  (w_one_way w) (w_node_ids w)) m ws.

Definition add_nodes (m : ssmap) (ns : list (Z * float * float * list Z)) : ssmap :=
  foldl (λ m '(id, lat, lon, way_ids), ssmap_add_node m id lat lon way_ids) m ns.

(** The ways and nodes given to the loader refer to each other: every
    way a node names lists the node, and every node a way lists names
    the way. *)
Definition links_ok (ws : list way) (ns : list (Z * float * float * list Z)) : bool :=
  forallb (λ '(id, _, _, way_ids),
    forallb (λ way_id,
      existsb (λ w, (w_id w =? way_id) && existsb (Z.eqb id) (w_node_ids w)) ws)
      way_ids) ns
  && forallb (λ w,
       forallb (λ v,
         existsb (λ '(id, _, _, way_ids),
           (id =? v) && existsb (Z.eqb (w_id w)) way_ids) ns)
         (w_node_ids w)) ws.

(** ** A reference [libm] for evaluating examples

    Power series in binary64 arithmetic, accurate to the last few units
    for the arguments of the examples below; the theorems that hold for
    every map are proved for every [libm]. *)
Module RefLibm.

(** [1 - x2/(k(k+1)) (1 - x2/((k+2)(k+3)) (...))] *)
Fixpoint alt_tail (n : nat) (k x2 : float) : float :=
  match n with
  | O => 1%float
  | S n' => (1 - x2 / (k * (k + 1)) * alt_tail n' (k + 2) x2)%float
  end.

Definition sin (x : float) : float := (x * alt_tail 14 2 (x * x))%float.
Definition cos (x : float) : float := alt_tail 14 1 (x * x).

(** [1/k - t2 (1/(k+2) - t2 (...))] *)
Fixpoint atan_tail (n : nat) (k t2 : float) : float :=
  match n with
  | O => (1 / k)%float
  | S n' => (1 / k - t2 * atan_tail n' (k + 2) t2)%float
  end.

Definition halve (t : float) : float := (t / (1 + PrimFloat.sqrt (1 + t * t)))%float.

Definition atan (t : float) : float :=
  let t := halve (halve (halve t)) in
  (8 * (t * atan_tail 14 1 (t * t)))%float.

Definition atan2 (y x : float) : float :=
  if (0 <? x)%float then atan (y / x)
  else if (x <? 0)%float then
    (if (y <? 0)%float then atan (y / x) - M_PI else atan (y / x) + M_PI)%float
  else if (0 <? y)%float then (M_PI / 2)%float
  else if (y <? 0)%float then (- (M_PI / 2))%float
  else y.

(** The source raises to the power [2] only. *)
Definition pow (x y : float) : float :=
  if (y =? 2)%float then (x * x)%float else nan.

Definition ref : libm := mk_libm sin cos atan2 pow.

End RefLibm.

(** ** Example maps *)

Module Examples.

(** [2^-7] of a degree, about 0.87 km along a meridian. *)
Definition step_deg : float := 0x1p-7%float.

(** The scenario of the specification: points 0..4, segments
    S0 = Main, 60 km/h, two-way, [0,1,2]; S1 = Main St, 60 km/h, one-way,
    [2,3]; S2 = Oak, 30 km/h, two-way, [1,4]. *)
Definition scenario : ssmap :=
  mk_ssmap
    [ Some (mk_node 0 0 0 [0%nat]);
      Some (mk_node 1 0 step_deg [0%nat; 2%nat]);
      Some (mk_node 2 0 (2 * step_deg) [0%nat; 1%nat]);
      Some (mk_node 3 step_deg (2 * step_deg) [1%nat]);
      Some (mk_node 4 step_deg step_deg [2%nat]) ]
    [ Some (mk_way 0 "Main" 60 false [0; 1; 2]);
      Some (mk_way 1 "Main St" 60 true [2; 3]);
      Some (mk_way 2 "Oak" 30 false [1; 4]) ].

(** Two points joined by two two-way segments of different speed. *)
Definition parallel : ssmap :=
  mk_ssmap
    [ Some (mk_node 0 0 0 [0%nat; 1%nat]);
      Some (mk_node 1 0 step_deg [0%nat; 1%nat]) ]
    [ Some (mk_way 0 "Fast" 60 false [0; 1]);
      Some (mk_way 1 "Slow" 30 false [0; 1]) ].

(** A closed two-way segment around a square, as a roundabout or a
    block is recorded: its first point is its last point too. *)
Definition ring : ssmap :=
  mk_ssmap
    [ Some (mk_node 0 0 0 [0%nat]);
      Some (mk_node 1 0 step_deg [0%nat]);
      Some (mk_node 2 step_deg step_deg [0%nat]);
      Some (mk_node 3 step_deg 0 [0%nat]) ]
    [ Some (mk_way 0 "Ring" 60 false [0; 1; 2; 3; 0]) ].

(** A segment that passes through point 1 twice. *)
Definition revisit : way := mk_way 0 "Loop" 60 false [1; 0; 1; 2].

Definition revisit_map : ssmap :=
  mk_ssmap
    [ Some (mk_node 0 0 0 [0%nat]);
      Some (mk_node 1 0 step_deg [0%nat]);
      Some (mk_node 2 0 (2 * step_deg) [0%nat]) ]
    [ Some revisit ].

(** A queue of capacity two that holds two entries. *)
Definition full_heap : min_heap :=
  insert_min_heap (insert_min_heap (create_min_heap 2) 0 1%float) 1 2%float.



(** A road from point 0 to point 1, and beyond point 1 a segment of
    speed 0 to point 2. *)
Definition dead_end : ssmap :=
  mk_ssmap
    [ Some (mk_node 0 0 0 [0%nat]);
      Some (mk_node 1 0 step_deg [0%nat; 1%nat]);
      Some (mk_node 2 0 (2 * step_deg) [1%nat]) ]
    [ Some (mk_way 0 "Road" 60 false [0; 1]);
      Some (mk_way 1 "Closed" 0 false [1; 2]) ].

End Examples.

(** * Properties *)

(** ** The binary heap *)

Section heap.
Implicit Types (els : list heap_node) (h : min_heap).

Lemma insert_cons_perm els (i : nat) a x :
  els !! i = Some a → a :: <[i:=x]> els ≡ₚ x :: els.
Proof.
  revert i. induction els as [|e els IH]; intros [|i] Hi; simplify_eq/=.
  - apply perm_swap.
  - rewrite perm_swap. rewrite (IH _ Hi). apply perm_swap.
Qed.

Lemma swap_heap_node_perm els i j : swap_heap_node els i j ≡ₚ els.
Proof.
  unfold swap_heap_node.
  destruct (els !! i) as [a|] eqn:Hi; [|done].
  destruct (els !! j) as [b|] eqn:Hj; [|done].
  destruct (decide (i = j)) as [->|Hne].
  - simplify_eq. rewrite list_insert_insert_eq. by rewrite list_insert_id.
  - apply (Permutation_cons_inv (a:=b)).
    rewrite insert_cons_perm; last by rewrite list_lookup_insert_ne.
    by apply insert_cons_perm.
Qed.

Lemma swap_heap_node_length els i j :
  length (swap_heap_node els i j) = length els.
Proof.
  unfold swap_heap_node. repeat case_match; by rewrite ?length_insert.
Qed.

Lemma swap_heap_node_take els (n i j : nat) :
  (i < n)%nat → (j < n)%nat →
  take n (swap_heap_node els i j) = swap_heap_node (take n els) i j.
Proof.
  intros Hi Hj. unfold swap_heap_node.
  rewrite !lookup_take_lt by done.
  repeat case_match; try done.
  by rewrite !take_insert_lt.
Qed.

Lemma swap_take_perm els (n i j : nat) :
  (i < n)%nat → (j < n)%nat → take n (swap_heap_node els i j) ≡ₚ take n els.
Proof. intros. rewrite swap_heap_node_take by done. apply swap_heap_node_perm. Qed.

Lemma sift_up_take_perm fuel els (n i : nat) :
  (i < n)%nat → take n (sift_up fuel els i) ≡ₚ take n els.
Proof.
  revert els i. induction fuel as [|fuel IH]; intros els i Hi; [done|].
  simpl. case_match; [|done].
  assert (((i - 1) / 2 < n)%nat).
  { eapply Nat.le_lt_trans; [apply Nat.Div0.div_le_upper_bound with (q := i); lia|done]. }
  rewrite IH by done. by apply swap_take_perm.
Qed.

Lemma sift_up_length fuel els i : length (sift_up fuel els i) = length els.
Proof.
  revert els i. induction fuel as [|fuel IH]; intros els i; [done|].
  simpl. case_match; [|done]. by rewrite IH, swap_heap_node_length.
Qed.

Lemma min_heapify_go_take_perm fuel els (sz idx : nat) :
  take sz (min_heapify_go fuel els sz idx) ≡ₚ take sz els.
Proof.
  revert els idx. induction fuel as [|fuel IH]; intros els idx; [done|].
  simpl. repeat case_match; try done; rewrite IH;
    repeat match goal with
           | H : _ && _ = true |- _ => apply andb_true_iff in H as [?%Nat.ltb_lt ?]
           | H : negb _ = true |- _ => apply negb_true_iff, Nat.eqb_neq in H
           end; apply swap_take_perm; lia.
Qed.

Lemma min_heapify_go_length fuel els sz idx :
  length (min_heapify_go fuel els sz idx) = length els.
Proof.
  revert els idx. induction fuel as [|fuel IH]; intros els idx; [done|].
  simpl. case_match; [|done]. by rewrite IH, swap_heap_node_length.
Qed.

Lemma heap_index_from_spec els (n : nat) id (i0 : nat) :
  match heap_index_from els n id i0 with
  | Some i => ∃ k : nat, i = (i0 + k)%nat ∧ (k < n)%nat
               ∧ hn_node_id <$> els !! k = Some id
               ∧ ∀ k' : nat, (k' < k)%nat → hn_node_id <$> els !! k' ≠ Some id
  | None => id ∉ hn_node_id <$> take n els
  end.
Proof.
  revert n i0. induction els as [|e els IH]; intros [|n] i0; simpl;
    try apply not_elem_of_nil.
  destruct (hn_node_id e =? id) eqn:He.
  - apply Z.eqb_eq in He. exists 0%nat.
    split; [lia|]. split; [lia|]. split; [simpl; by rewrite He|]. intros; lia.
  - apply Z.eqb_neq in He. specialize (IH n (S i0)).
    destruct (heap_index_from els n id (S i0)) as [i|].
    + destruct IH as (k & -> & Hk & Hid & Hmin). exists (S k).
      split; [lia|]. split; [lia|]. split; [done|].
      intros [|k'] Hk'; simpl; [congruence|]. apply Hmin. lia.
    + rewrite not_elem_of_cons. split; [congruence|done].
Qed.

Lemma is_in_min_heap_spec h id :
  is_in_min_heap h id = true ↔ id ∈ heap_ids h.
Proof.
  unfold is_in_min_heap, heap_index, heap_ids.
  pose proof (heap_index_from_spec (elements h) (size h) id 0) as Hs.
  rewrite bool_decide_eq_true.
  destruct (heap_index_from _ _ _ _) as [i|].
  - split; [intros _|by eauto].
    destruct Hs as (k & _ & Hk & Hid & _).
    rewrite list_elem_of_lookup. exists k.
    by rewrite list_lookup_fmap, lookup_take_lt.
  - split; [by intros []|done].
Qed.

Lemma take_move_last els (sz : nat) :
  (0 < sz ≤ length els)%nat →
  take sz els ≡ₚ els !!! 0%nat :: take (sz - 1) (<[0%nat := els !!! (sz - 1)%nat]> els).
Proof.
  intros [Hpos Hle]. destruct els as [|r rest]; [simpl in *; lia|].
  destruct sz as [|[|n]]; [lia|done|]. simpl in Hle.
  assert (is_Some (rest !! n)) as [x Hx] by (apply lookup_lt_is_Some; lia).
  change ((r :: rest) !!! 0%nat) with r.
  change (S (S n) - 1)%nat with (S n).
  change ((r :: rest) !!! S n) with (rest !!! n).
  rewrite (list_lookup_total_correct _ _ _ Hx).
  change (<[0%nat := x]> (r :: rest)) with (x :: rest).
  change (take (S (S n)) (r :: rest)) with (r :: take (S n) rest).
  change (take (S n) (x :: rest)) with (x :: take n rest).
  rewrite (take_S_r _ _ _ Hx). apply perm_skip.
  by rewrite <- Permutation_cons_append.
Qed.

Lemma extract_min_ids h :
  heap_ok h → (0 < size h)%nat →
  heap_ids h ≡ₚ hn_node_id (extract_min h).1 :: heap_ids (extract_min h).2
  ∧ heap_ok (extract_min h).2
  ∧ size (extract_min h).2 = (size h - 1)%nat.
Proof.
  intros [Hlen Hsz] Hpos. unfold extract_min.
  destruct (size h =? 0)%nat eqn:H0; [apply Nat.eqb_eq in H0; lia|].
  unfold heap_ids, heap_ok. cbn.
  rewrite min_heapify_go_length, length_insert.
  split; [|split; [split; [done|lia]|done]].
  rewrite min_heapify_go_take_perm.
  rewrite (take_move_last (elements h) (size h)) by lia. by rewrite fmap_cons.
Qed.

Lemma insert_min_heap_ids h id d :
  heap_ok h → (size h < capacity h)%nat →
  heap_ids (insert_min_heap h id d) ≡ₚ id :: heap_ids h
  ∧ heap_ok (insert_min_heap h id d).
Proof.
  intros [Hlen Hsz] Hlt. unfold insert_min_heap.
  destruct (size h =? capacity h)%nat eqn:H0; [apply Nat.eqb_eq in H0; lia|].
  unfold heap_ids, heap_ok. simpl.
  rewrite sift_up_length, length_insert. split; [|split; [done|lia]].
  rewrite sift_up_take_perm by lia.
  assert (is_Some (elements h !! size h)) as [x Hx]
    by (apply lookup_lt_is_Some; lia).
  erewrite take_S_r; last by (rewrite list_lookup_insert_eq by lia).
  rewrite take_insert_ge by lia. rewrite fmap_app. simpl.
  by rewrite <- Permutation_cons_append.
Qed.

Lemma insert_min_heap_full h id d :
  size h = capacity h → insert_min_heap h id d = h.
Proof. intros Hs. unfold insert_min_heap. by rewrite Hs, Nat.eqb_refl. Qed.

Lemma decrease_key_ids h id d :
  heap_ids (decrease_key h id d) ≡ₚ heap_ids h ∧
  (heap_ok h → heap_ok (decrease_key h id d)).
Proof.
  unfold decrease_key, heap_index.
  pose proof (heap_index_from_spec (elements h) (size h) id 0) as Hs.
  destruct (heap_index_from _ _ _ _) as [i|]; [|done].
  destruct Hs as (k & -> & Hk & Hid & _). simpl in *.
  unfold heap_ids, heap_ok. simpl. rewrite sift_up_length, length_insert.
  split; [|done].
  rewrite sift_up_take_perm by done. rewrite take_insert_lt by done.
  rewrite list_fmap_insert. simpl.
  rewrite list_insert_id; [done|].
  rewrite list_lookup_fmap, lookup_take_lt by done.
  destruct (elements h !! k) as [e|] eqn:He; [|done].
  by rewrite (list_lookup_total_correct _ _ _ He).
Qed.

Lemma create_min_heap_ok n : heap_ok (create_min_heap n) ∧ heap_ids (create_min_heap n) = [].
Proof.
  unfold heap_ok, heap_ids. simpl.
  split; [split; [apply length_replicate|lia]|done].
Qed.

(** More fuel than the loops can use changes nothing. *)
Lemma sift_up_fuel fuel els (i : nat) :
  (i ≤ fuel)%nat → sift_up fuel els i = sift_up i els i.
Proof.
  revert els fuel. induction (lt_wf i) as [i _ IH]. intros els fuel Hle.
  destruct i as [|i].
  - destruct fuel; [done|]. simpl. done.
  - destruct fuel as [|fuel]; [lia|]. simpl. case_match; [|done].
    assert ((i - 0) / 2 ≤ i)%nat by (apply Nat.Div0.div_le_upper_bound; lia).
    rewrite (IH ((i - 0) / 2)%nat) by lia.
    symmetry. rewrite (IH ((i - 0) / 2)%nat) by lia. done.
Qed.

Lemma min_heapify_go_fuel fuel1 fuel2 els (sz idx : nat) :
  (sz - idx ≤ fuel1)%nat → (sz - idx ≤ fuel2)%nat →
  min_heapify_go fuel1 els sz idx = min_heapify_go fuel2 els sz idx.
Proof.
  revert fuel2 els idx.
  induction fuel1 as [|fuel1 IH]; intros [|fuel2] els idx H1 H2; try done;
    simpl; repeat case_match; try done;
    repeat match goal with
           | H : _ && _ = true |- _ => apply andb_true_iff in H as [?%Nat.ltb_lt ?]
           | H : negb _ = true |- _ => apply negb_true_iff, Nat.eqb_neq in H
           end; try lia; apply IH; lia.
Qed.
End heap.

(** ** The validator *)

Section validator.
Implicit Types (m : ssmap) (path ids : list Z).

Lemma existsb_elem_of {A} (f : A → bool) (l : list A) :
  existsb f l = true ↔ ∃ x, x ∈ l ∧ f x = true.
Proof.
  rewrite existsb_exists. by setoid_rewrite list_elem_of_In.
Qed.

Lemma node_missing_false m id :
  node_missing m id = false ↔ point_exists m id.
Proof.
  unfold node_missing, point_exists.
  rewrite !orb_false_iff, Z.ltb_ge, Z.geb_leb, Z.leb_gt.
  destruct (get_node m id) as [n|]; split.
  - intros [[? ?] _]. split; [lia|by eexists].
  - intros [? _]. repeat split; lia.
  - by intros [_ ?].
  - by intros [_ [? ?]].
Qed.

Lemma first_offender_head {A} (ok : A → Prop) x l : ¬ ok x → first_offender ok (x :: l) x.
Proof. intros Hx. by exists [], l. Qed.

Lemma first_offender_tail {A} (ok : A → Prop) x y l :
  ok x → first_offender ok l y → first_offender ok (x :: l) y.
Proof.
  intros Hx (pre & post & -> & Hpre & Hy). exists (x :: pre), post.
  split; [done|]. split; [by constructor|done].
Qed.

Lemma first_offender_not_Forall {A} (ok : A → Prop) l x :
  first_offender ok l x → Forall ok l → False.
Proof.
  intros (pre & post & -> & _ & Hx) Hall.
  apply Forall_app in Hall as [_ Hall]. by inversion Hall.
Qed.

Lemma first_offender_unique {A} (ok : A → Prop) l x y :
  first_offender ok l x → first_offender ok l y → x = y.
Proof.
  intros (pre & post & -> & Hpre & Hx). revert pre Hpre.
  induction pre as [|a pre IH]; intros Hpre (pre' & post' & Heq & Hpre' & Hy).
  - destruct pre' as [|b pre']; simplify_eq/=; [done|].
    by inversion Hpre'.
  - destruct pre' as [|b pre']; simplify_eq/=.
    + by inversion Hpre.
    + inversion Hpre; inversion Hpre'; subst. apply IH; [done|].
      by exists pre', post'.
Qed.

Lemma first_missing_spec m path :
  match first_missing m path with
  | Some id => first_offender (point_exists m) path id
  | None => Forall (point_exists m) path
  end.
Proof.
  induction path as [|x path IH]; simpl; [done|].
  destruct (node_missing m x) eqn:Hx.
  - apply first_offender_head. rewrite <- node_missing_false. congruence.
  - apply node_missing_false in Hx. destruct (first_missing m path).
    + by apply first_offender_tail.
    + by constructor.
Qed.

Lemma count_id_0 path x : count_id path x = 0%nat ↔ x ∉ path.
Proof.
  induction path as [|y path IH]; simpl.
  - split; [intros _; apply not_elem_of_nil|done].
  - rewrite not_elem_of_cons. destruct (y =? x) eqn:E.
    + apply Z.eqb_eq in E. split; [done|]. intros [? _]; congruence.
    + apply Z.eqb_neq in E. rewrite IH. naive_solver.
Qed.

Lemma occurs_once_count path x :
  (1 <? count_id path x)%nat = false ↔ occurs_once path x.
Proof.
  rewrite Nat.ltb_ge. unfold occurs_once.
  induction path as [|y path IH]; simpl.
  - split; [by intros _ [|?] ?|lia].
  - destruct (y =? x) eqn:E.
    + apply Z.eqb_eq in E. subst y. split.
      * intros Hc. assert (count_id path x = 0%nat) as H0 by lia.
        apply count_id_0 in H0.
        intros [|i] [|j] Hi Hj; simpl in *; try done;
          exfalso; apply H0; eapply list_elem_of_lookup_2; eauto.
      * intros Hu. enough (count_id path x = 0%nat) by lia.
        apply count_id_0. intros [j Hj]%list_elem_of_lookup.
        by specialize (Hu 0%nat (S j) eq_refl Hj).
    + apply Z.eqb_neq in E. rewrite IH. split.
      * intros Hu [|i] [|j] Hi Hj; simpl in *; simplify_eq; try done.
        f_equal. eauto.
      * intros Hu i j Hi Hj. specialize (Hu (S i) (S j) Hi Hj). lia.
Qed.

Lemma first_repeated_spec all rest :
  match first_repeated all rest with
  | Some id => first_offender (occurs_once all) rest id
  | None => Forall (occurs_once all) rest
  end.
Proof.
  induction rest as [|x rest IH]; simpl; [done|].
  destruct (1 <? count_id all x)%nat eqn:Hx.
  - apply first_offender_head. rewrite <- occurs_once_count. congruence.
  - apply occurs_once_count in Hx. destruct (first_repeated all rest).
    + by apply first_offender_tail.
    + by constructor.
Qed.

Lemma Forall_occurs_once path : Forall (occurs_once path) path ↔ NoDup path.
Proof.
  rewrite NoDup_alt, Forall_forall. unfold occurs_once. split.
  - intros H i j x Hi Hj. eapply H; eauto. by eapply list_elem_of_lookup_2.
  - intros H x _ i j Hi Hj. eauto.
Qed.

Lemma first_bad_pair_spec (ok : Z → Z → bool) (P : Z * Z → Prop) pairs :
  (∀ u v, ok u v = true ↔ P (u, v)) →
  match first_bad_pair ok pairs with
  | Some uv => first_offender P pairs uv
  | None => Forall P pairs
  end.
Proof.
  intros HP. induction pairs as [|[u v] pairs IH]; simpl; [done|].
  destruct (ok u v) eqn:Huv.
  - apply HP in Huv. destruct (first_bad_pair ok pairs).
    + by apply first_offender_tail.
    + by constructor.
  - apply first_offender_head. rewrite <- HP. congruence.
Qed.

Lemma adjacent_pairs_spec ids a b :
  (a, b) ∈ adjacent_pairs ids ↔ ∃ i : nat, ids !! i = Some a ∧ ids !! S i = Some b.
Proof.
  induction ids as [|x ids IH].
  - simpl. split; [by intros ?%elem_of_nil|by intros (? & ? & ?)].
  - destruct ids as [|y ids].
    + simpl. split; [by intros ?%elem_of_nil|]. by intros ([|i] & ? & ?).
    + change (adjacent_pairs (x :: y :: ids)) with ((x, y) :: adjacent_pairs (y :: ids)).
      rewrite elem_of_cons, IH. split.
      * intros [?|(i & ? & ?)]; simplify_eq; [by exists 0%nat|by exists (S i)].
      * intros ([|i] & ? & ?); simplify_eq/=; [by left|right; by exists i].
Qed.

Lemma pair_fwd_true u v ab : pair_fwd u v ab = true ↔ ab = (u, v).
Proof.
  destruct ab as [a b]. unfold pair_fwd. simpl.
  rewrite andb_true_iff, !Z.eqb_eq. naive_solver.
Qed.

Lemma existsb_pair_either (w : way) u v :
  existsb (pair_either u v) (adjacent_pairs (w_node_ids w)) = true
  ↔ ∃ i, lists_at w i u v ∨ lists_at w i v u.
Proof.
  rewrite existsb_elem_of. unfold pair_either, lists_at. split.
  - intros ([a b] & Hin & [H|H]%orb_true_iff); apply pair_fwd_true in H;
      simplify_eq; apply adjacent_pairs_spec in Hin as [i ?]; eauto.
  - intros [i [H|H]].
    + exists (u, v). split; [apply adjacent_pairs_spec; eauto|].
      apply orb_true_iff. left. by apply pair_fwd_true.
    + exists (v, u). split; [apply adjacent_pairs_spec; eauto|].
      apply orb_true_iff. right. by apply pair_fwd_true.
Qed.

Lemma existsb_pair_legal (w : way) u v :
  existsb (pair_legal (w_one_way w) u v) (adjacent_pairs (w_node_ids w)) = true
  ↔ step w u v.
Proof.
  rewrite existsb_elem_of. unfold step, pair_legal, pair_either, lists_at. split.
  - intros ([a b] & Hin & H).
    apply adjacent_pairs_spec in Hin as [i Hi].
    destruct (w_one_way w); simpl in *.
    + destruct (pair_fwd u v (a, b)) eqn:E; [|done].
      apply pair_fwd_true in E. simplify_eq. exists i. naive_solver.
    + destruct (pair_fwd u v (a, b)) eqn:E; simpl in *.
      * apply pair_fwd_true in E. simplify_eq. exists i. naive_solver.
      * destruct (pair_fwd v u (a, b)) eqn:E'; [|done].
        apply pair_fwd_true in E'. simplify_eq. exists i. naive_solver.
  - intros (i & Hl & Hd).
    destruct (w_one_way w); simpl.
    + destruct Hd as [?|[_ Hd]]; [done|]. exists (u, v).
      split; [apply adjacent_pairs_spec; eauto|].
      by rewrite (proj2 (pair_fwd_true u v (u, v)) eq_refl).
    + destruct Hl as [Hl|Hl].
      * exists (u, v). split; [apply adjacent_pairs_spec; eauto|].
        by rewrite (proj2 (pair_fwd_true u v (u, v)) eq_refl).
      * exists (v, u). split; [apply adjacent_pairs_spec; eauto|].
        rewrite (proj2 (pair_fwd_true v u (v, u)) eq_refl).
        by rewrite orb_true_r.
Qed.

Lemma error_three_bool_spec m u v :
  error_three_bool m (node_at m u) (node_at m v) = true ↔ co_member m (u, v).
Proof.
  unfold error_three_bool, co_member, same_way_id. simpl.
  rewrite existsb_elem_of. setoid_rewrite existsb_elem_of.
  setoid_rewrite Z.eqb_eq. naive_solver.
Qed.

Lemma error_four_bool_spec m u v :
  error_four_bool m (node_at m u) (node_at m v) u v = true ↔ directly_adjacent m (u, v).
Proof.
  unfold error_four_bool, directly_adjacent, shared_way, same_way_id. simpl.
  rewrite existsb_elem_of. setoid_rewrite existsb_elem_of.
  setoid_rewrite andb_true_iff. setoid_rewrite Z.eqb_eq.
  setoid_rewrite existsb_pair_either. naive_solver.
Qed.

Lemma error_five_bool_spec m u v :
  error_five_bool m (node_at m u) (node_at m v) u v = true ↔ direction_ok m (u, v).
Proof.
  unfold error_five_bool, direction_ok, shared_way, same_way_id. simpl.
  rewrite existsb_elem_of. setoid_rewrite existsb_elem_of.
  setoid_rewrite andb_true_iff. setoid_rewrite Z.eqb_eq.
  setoid_rewrite existsb_pair_legal. naive_solver.
Qed.

Lemma verdict_unique m path r r' :
  verdict_holds m path r → verdict_holds m path r' → r' = r.
Proof.
  pose proof (first_offender_not_Forall (point_exists m) path).
  pose proof (first_offender_not_Forall (co_member m) (adjacent_pairs path)).
  pose proof (first_offender_not_Forall (directly_adjacent m) (adjacent_pairs path)).
  pose proof (first_offender_not_Forall (direction_ok m) (adjacent_pairs path)).
  assert (∀ x, first_offender (occurs_once path) path x → NoDup path → False).
  { intros x Hx ?%Forall_occurs_once. by eapply first_offender_not_Forall. }
  destruct r, r'; simpl; intros Hr Hr'; destruct_and?; try done;
    try (exfalso; eauto; fail).
  - f_equal. by eapply first_offender_unique.
  - f_equal. by eapply first_offender_unique.
  - assert ((u0, v0) = (u, v)) by (by eapply first_offender_unique). by simplify_eq.
  - assert ((u0, v0) = (u, v)) by (by eapply first_offender_unique). by simplify_eq.
  - assert ((u0, v0) = (u, v)) by (by eapply first_offender_unique). by simplify_eq.
Qed.

Lemma travel_time_verdict L m path :
  ∃ r, verdict_holds m path r
       ∧ ssmap_path_travel_time L m path
         = (verdict_line r,
            match r with Valid => (sum_legs L m path * 60)%float | _ => (-1)%float end).
Proof.
  unfold ssmap_path_travel_time.
  pose proof (first_missing_spec m path) as H1.
  destruct (first_missing m path) as [id|]; [by exists (Missing id)|].
  pose proof (first_repeated_spec path path) as H2.
  destruct (first_repeated path path) as [id|]; [by exists (Repeated id)|].
  apply Forall_occurs_once in H2.
  pose proof (first_bad_pair_spec _ _ (adjacent_pairs path)
                (error_three_bool_spec m)) as H3.
  destruct (first_bad_pair _ _) as [[u v]|]; [by exists (NoRoads u v)|].
  pose proof (first_bad_pair_spec _ _ (adjacent_pairs path)
                (error_four_bool_spec m)) as H4.
  destruct (first_bad_pair _ _) as [[u v]|]; [by exists (NotDirect u v)|].
  pose proof (first_bad_pair_spec _ _ (adjacent_pairs path)
                (error_five_bool_spec m)) as H5.
  destruct (first_bad_pair _ _) as [[u v]|]; [by exists (Reverse u v)|].
  by exists Valid.
Qed.
End validator.

(** ** Well-formed maps and way selection *)

Section wf.
Implicit Types (m : ssmap) (path ids : list Z).

Lemma forallbi_lookup {A} (f : nat → A → bool) (i0 : nat) (l : list A) (k : nat) x :
  forallbi f i0 l = true → l !! k = Some x → f (i0 + k)%nat x = true.
Proof.
  revert i0 k. induction l as [|y l IH]; intros i0 [|k] Hf Hk; simplify_eq/=;
    apply andb_true_iff in Hf as [Hy Hl].
  - by rewrite Nat.add_0_r.
  - rewrite <- Nat.add_succ_comm. by apply IH.
Qed.

Lemma get_node_Some m v n :
  get_node m v = Some n ↔ 0 ≤ v ∧ m_nodes m !! Z.to_nat v = Some (Some n).
Proof.
  unfold get_node. destruct (v <? 0) eqn:E.
  - apply Z.ltb_lt in E. split; [done|lia].
  - apply Z.ltb_ge in E.
    destruct (m_nodes m !! Z.to_nat v) as [[n'|]|]; simpl; naive_solver.
Qed.

Lemma get_node_range m v n : get_node m v = Some n → 0 ≤ v < num_nodes m.
Proof.
  intros [? ?%lookup_lt_Some]%get_node_Some. unfold num_nodes. lia.
Qed.

Lemma point_exists_get m v : point_exists m v ↔ is_Some (get_node m v).
Proof.
  unfold point_exists. split; [by intros [_ ?]|].
  intros [n Hn]. split; [by eapply get_node_range|by eexists].
Qed.

Lemma node_at_get m v n : get_node m v = Some n → node_at m v = n.
Proof. unfold node_at. by intros ->. Qed.

Lemma deref_way_lookup m p w : m_ways m !! p = Some (Some w) → deref_way m p = w.
Proof. unfold deref_way. by intros ->. Qed.

(** What well-formedness says about a point and about a segment. *)
Lemma wf_map_node m v n p :
  wf_map m = true → get_node m v = Some n → p ∈ n_ways n →
  ∃ w, m_ways m !! p = Some (Some w) ∧ v ∈ w_node_ids w.
Proof.
  intros [Hn _]%andb_true_iff [Hv Hl]%get_node_Some Hp.
  pose proof (forallbi_lookup _ _ _ _ _ Hn Hl) as Hw. simpl in Hw.
  apply andb_true_iff in Hw as [_ Hw].
  rewrite forallb_forall in Hw. specialize (Hw p).
  rewrite <- list_elem_of_In in Hw. specialize (Hw Hp).
  destruct (m_ways m !! p) as [[w|]|]; try done.
  exists w. split; [done|].
  apply existsb_elem_of in Hw as (x & Hx & ->%Z.eqb_eq).
  by rewrite Z2Nat.id in Hx.
Qed.

Lemma wf_map_way m (j : nat) w v :
  wf_map m = true → m_ways m !! j = Some (Some w) → v ∈ w_node_ids w →
  w_id w = Z.of_nat j ∧ ∃ n, get_node m v = Some n ∧ j ∈ n_ways n.
Proof.
  intros [_ Hw]%andb_true_iff Hl Hv.
  pose proof (forallbi_lookup _ _ _ _ _ Hw Hl) as Hj. simpl in Hj.
  apply andb_true_iff in Hj as [Hid%Z.eqb_eq Hj]. split; [done|].
  rewrite forallb_forall in Hj. specialize (Hj v).
  rewrite <- list_elem_of_In in Hj. specialize (Hj Hv).
  destruct (get_node m v) as [n|]; [|done].
  exists n. split; [done|].
  by apply existsb_elem_of in Hj as (x & Hx & ->%Nat.eqb_eq).
Qed.

Lemma wf_map_way_id m (j : nat) w :
  wf_map m = true → m_ways m !! j = Some (Some w) → w_id w = Z.of_nat j.
Proof.
  intros [_ Hw]%andb_true_iff Hl.
  pose proof (forallbi_lookup _ _ _ _ _ Hw Hl) as Hj. simpl in Hj.
  by apply andb_true_iff in Hj as [Hid%Z.eqb_eq _].
Qed.

Lemma wf_map_dense_ways m (j : nat) :
  wf_map m = true → (j < length (m_ways m))%nat →
  ∃ w, m_ways m !! j = Some (Some w) ∧ w_id w = Z.of_nat j.
Proof.
  intros Hwf [ow Hl]%lookup_lt_is_Some.
  pose proof Hwf as [_ Hw]%andb_true_iff.
  pose proof (forallbi_lookup _ _ _ _ _ Hw Hl) as Hj. simpl in Hj.
  destruct ow as [w|]; [|done]. exists w. split; [done|].
  by eapply wf_map_way_id.
Qed.

Lemma wf_map_dense_nodes m (i : nat) :
  wf_map m = true → (i < length (m_nodes m))%nat →
  ∃ n, get_node m (Z.of_nat i) = Some n.
Proof.
  intros [Hn _]%andb_true_iff [on Hl]%lookup_lt_is_Some.
  pose proof (forallbi_lookup _ _ _ _ _ Hn Hl) as Hj. simpl in Hj.
  destruct on as [n|]; [|done]. exists n.
  apply get_node_Some. split; [lia|]. by rewrite Nat2Z.id.
Qed.

Lemma way_at_deref m (p : nat) : way_at m (Z.of_nat p) = deref_way m p.
Proof.
  unfold way_at, get_way, deref_way.
  destruct (Z.of_nat p <? 0) eqn:E; [apply Z.ltb_lt in E; lia|].
  by rewrite Nat2Z.id.
Qed.

Lemma step_lists (w : way) u v : step w u v → u ∈ w_node_ids w ∧ v ∈ w_node_ids w.
Proof.
  intros (i & [[H1 H2]|[H1 H2]] & _); split; by eapply list_elem_of_lookup_2.
Qed.

(** On a well-formed map a segment of [u]'s list that allows the step
    to [v] is listed by [v] too. *)
Lemma qualifies_step m u v p :
  wf_map m = true → point_exists m u → p ∈ n_ways (node_at m u) →
  qualifies m u v p = true ↔ step (deref_way m p) u v.
Proof.
  intros Hwf [n Hn]%point_exists_get Hp.
  rewrite (node_at_get _ _ _ Hn) in Hp.
  destruct (wf_map_node _ _ _ _ Hwf Hn Hp) as (w & Hw & Hu).
  unfold qualifies. rewrite andb_true_iff, existsb_pair_legal.
  split; [by intros [_ ?]|]. intros Hs. split; [|done].
  rewrite (deref_way_lookup _ _ _ Hw) in Hs.
  apply step_lists in Hs as [_ Hv].
  destruct (wf_map_way _ _ _ _ Hwf Hw Hv) as (_ & n' & Hn' & Hp').
  apply existsb_elem_of. exists p.
  rewrite (node_at_get _ _ _ Hn'). split; [done|].
  unfold same_way_id. apply Z.eqb_refl.
Qed.
End wf.

Section select.
Implicit Types (m : ssmap).

Lemma foldl_overwrite {A B} (c : B → bool) (x : A) (acc : A) (l : list B) :
  foldl (λ acc b, if c b then x else acc) acc l = if existsb c l then x else acc.
Proof.
  revert acc. induction l as [|b l IH]; intros acc; simpl; [done|].
  rewrite IH. by destruct (c b), (existsb c l).
Qed.

Lemma foldl_last_filter {A B} (q : B → bool) (g : B → A) (acc : A) (l : list B) :
  foldl (λ acc b, if q b then g b else acc) acc l
  = from_option g acc (last (List.filter q l)).
Proof.
  revert acc. induction l as [|b l IH]; intros acc; simpl; [done|].
  rewrite IH. destruct (q b); [|done].
  destruct (List.filter q l) as [|b' l'] eqn:E; [done|].
  rewrite last_cons_cons.
  destruct (last (b' :: l')) eqn:El; [done|]. by apply last_None in El.
Qed.

Lemma existsb_andb_r {B} (s : B → bool) (e : bool) (l : list B) :
  existsb (λ b, s b && e) l = existsb s l && e.
Proof.
  induction l as [|b l IH]; simpl; [done|]. rewrite IH.
  by destruct (s b), e, (existsb s l).
Qed.

Lemma select_way_id_last m u v :
  select_way_id m (node_at m u) (node_at m v) u v
  = from_option (λ p, w_id (deref_way m p)) 0 (last (qualifying_ways m u v)).
Proof.
  unfold select_way_id, qualifying_ways.
  rewrite <- (foldl_last_filter (qualifies m u v)).
  generalize 0. induction (n_ways (node_at m u)) as [|p l IH]; intros acc; [done|].
  simpl. rewrite <- IH. f_equal.
  rewrite foldl_overwrite. unfold qualifies. by rewrite existsb_andb_r.
Qed.

Lemma last_filter_Some {B} (q : B → bool) (l : list B) p :
  last (List.filter q l) = Some p →
  ∃ l1 l2, l = l1 ++ p :: l2 ∧ q p = true ∧ ∀ x, x ∈ l2 → q x = false.
Proof.
  induction l as [|b l IH]; simpl; [done|].
  destruct (List.filter q l) as [|b' l'] eqn:E.
  - destruct (q b) eqn:Hb; [|done]. simpl. intros [= <-].
    exists [], l. split; [done|]. split; [done|].
    intros x Hx. destruct (q x) eqn:Hqx; [|done].
    assert (In x (List.filter q l)) as Hin
      by (apply filter_In; split; [by apply list_elem_of_In|done]).
    by rewrite E in Hin.
  - intros Hl. assert (last (b' :: l') = Some p) as Hl'.
    { destruct (q b); [by rewrite last_cons_cons in Hl|done]. }
    destruct (IH Hl') as (l1 & l2 & -> & ? & ?). by exists (b :: l1), l2.
Qed.

Lemma filter_nil_not {B} (q : B → bool) (l : list B) x :
  List.filter q l = [] → x ∈ l → q x = false.
Proof.
  intros E Hx. destruct (q x) eqn:Hq; [|done].
  assert (In x (List.filter q l)) as Hin
    by (apply filter_In; split; [by apply list_elem_of_In|done]).
  by rewrite E in Hin.
Qed.

Lemma verdict_line_empty r : verdict_line r = "" → r = Valid.
Proof. by destruct r. Qed.

Lemma travel_time_valid L m path :
  (ssmap_path_travel_time L m path).1 = "" ↔ verdict_holds m path Valid.
Proof.
  destruct (travel_time_verdict L m path) as (r & Hr & ->). simpl. split.
  - by intros ->%verdict_line_empty.
  - intros Hv. by rewrite (verdict_unique m path Valid r Hv Hr).
Qed.

Lemma consecutive_pairs (path : list Z) u v :
  consecutive path u v ↔ (u, v) ∈ adjacent_pairs path.
Proof. symmetry. apply adjacent_pairs_spec. Qed.

(** The speed of a leg of a validated path is that of the last segment
    of the first point's list that allows the step. *)
Lemma leg_speed_last m path u v :
  wf_map m = true → verdict_holds m path Valid → consecutive path u v →
  ∃ l1 p l2, n_ways (node_at m u) = l1 ++ p :: l2
             ∧ step (deref_way m p) u v
             ∧ (∀ q, q ∈ l2 → ¬ step (deref_way m q) u v)
             ∧ leg_speed m u v = w_max_speed (deref_way m p).
Proof.
  intros Hwf (Hex & _ & _ & _ & Hdir) Huv.
  assert (point_exists m u) as Hu.
  { destruct Huv as (i & Hi & _). rewrite Forall_forall in Hex.
    apply Hex. by eapply list_elem_of_lookup_2. }
  apply consecutive_pairs in Huv. rewrite Forall_forall in Hdir.
  destruct (Hdir _ Huv) as (w & (p1 & p2 & Hp1 & Hp2 & Hid & ->) & Hstep).
  simpl in *.
  unfold leg_speed. rewrite select_way_id_last.
  destruct (last (qualifying_ways m u v)) as [p|] eqn:Hlast.
  - apply last_filter_Some in Hlast as (l1 & l2 & Hl & Hq & Hrest).
    assert (p ∈ n_ways (node_at m u)) as Hp
      by (rewrite Hl; set_solver).
    exists l1, p, l2. split; [done|]. split; [by apply qualifies_step in Hq|].
    split.
    + intros q Hq' Hs. apply qualifies_step in Hs; [|done..|rewrite Hl; set_solver].
      by rewrite (Hrest q Hq') in Hs.
    + simpl. destruct Hu as [_ [n Hn]]. rewrite (node_at_get _ _ _ Hn) in Hp.
      destruct (wf_map_node _ _ _ _ Hwf Hn Hp) as (w & Hw & _).
      rewrite (deref_way_lookup _ _ _ Hw), (wf_map_way_id _ _ _ Hwf Hw).
      by rewrite way_at_deref, (deref_way_lookup _ _ _ Hw).
  - exfalso. apply last_None in Hlast.
    assert (qualifies m u v p1 = false) as Hq by (by eapply filter_nil_not).
    apply (qualifies_step _ _ v) in Hp1 as Hiff; [|done..].
    apply Hiff in Hstep. congruence.
Qed.
End select.

Section passes_spec.
Context (m : ssmap) (Hwf : wf_map m = true).

Lemma shared_way_is_way u v w :
  point_exists m u → shared_way m (u, v) w → is_way m w ∧ u ∈ w_node_ids w.
Proof.
  intros [n Hn]%point_exists_get (p1 & _ & Hp1 & _ & _ & ->). simpl in Hp1.
  rewrite (node_at_get _ _ _ Hn) in Hp1.
  destruct (wf_map_node _ _ _ _ Hwf Hn Hp1) as (w & Hw & Hu).
  rewrite (deref_way_lookup _ _ _ Hw). split; [by exists p1|done].
Qed.

Lemma is_way_shared u v w :
  is_way m w → u ∈ w_node_ids w → v ∈ w_node_ids w → shared_way m (u, v) w.
Proof.
  intros [j Hj] Hu Hv.
  destruct (wf_map_way _ _ _ _ Hwf Hj Hu) as (_ & nu & Hnu & Hpu).
  destruct (wf_map_way _ _ _ _ Hwf Hj Hv) as (_ & nv & Hnv & Hpv).
  exists j, j. simpl.
  rewrite (node_at_get _ _ _ Hnu), (node_at_get _ _ _ Hnv).
  by rewrite (deref_way_lookup _ _ _ Hj).
Qed.

Lemma shared_way_lists u v w :
  point_exists m u → point_exists m v → shared_way m (u, v) w → v ∈ w_node_ids w.
Proof.
  intros [nu Hnu]%point_exists_get [nv Hnv]%point_exists_get
    (p1 & p2 & Hp1 & Hp2 & Hid & ->). simpl in *.
  rewrite (node_at_get _ _ _ Hnu) in Hp1. rewrite (node_at_get _ _ _ Hnv) in Hp2.
  destruct (wf_map_node _ _ _ _ Hwf Hnu Hp1) as (w1 & Hw1 & _).
  destruct (wf_map_node _ _ _ _ Hwf Hnv Hp2) as (w2 & Hw2 & Hv).
  rewrite (deref_way_lookup _ _ _ Hw1), (deref_way_lookup _ _ _ Hw2) in *.
  rewrite (wf_map_way_id _ _ _ Hwf Hw1), (wf_map_way_id _ _ _ Hwf Hw2) in Hid.
  assert (p1 = p2) as -> by lia. by simplify_eq.
Qed.

(** On a well-formed map the three pair conditions of the validator are
    those of the specification: some segment of the map contains both
    points; some segment lists them at consecutive positions; some
    segment allows the step. *)
Lemma pair_passes_spec u v :
  point_exists m u → point_exists m v →
  (co_member m (u, v)
   ↔ ∃ w, is_way m w ∧ u ∈ w_node_ids w ∧ v ∈ w_node_ids w)
  ∧ (directly_adjacent m (u, v)
     ↔ ∃ w i, is_way m w ∧ (lists_at w i u v ∨ lists_at w i v u))
  ∧ (direction_ok m (u, v) ↔ connected m u v).
Proof.
  intros Hu Hv. split; [|split].
  - split.
    + intros (p1 & p2 & Hp1 & Hp2 & Hid).
      assert (shared_way m (u, v) (deref_way m p1)) as Hs by (by exists p1, p2).
      destruct (shared_way_is_way u v _ Hu Hs) as [Hw Hu'].
      exists (deref_way m p1). split; [done|]. split; [done|].
      apply (shared_way_lists u v _ Hu Hv Hs).
    + intros (w & Hw & Hu' & Hv').
      destruct (is_way_shared u v w Hw Hu' Hv') as (p1 & p2 & ? & ? & ? & _).
      by exists p1, p2.
  - split.
    + intros (w & i & Hs & Hl). exists w, i. split; [|done].
      by destruct (shared_way_is_way u v _ Hu Hs).
    + intros (w & i & Hw & Hl). exists w, i. split; [|done].
      apply is_way_shared; [done|..];
        destruct Hl as [[H1 H2]|[H1 H2]]; by eapply list_elem_of_lookup_2.
  - split.
    + intros (w & Hs & Hstep). exists w. split; [|done].
      by destruct (shared_way_is_way u v _ Hu Hs).
    + intros (w & Hw & Hstep). exists w. split; [|done].
      destruct (step_lists _ _ _ Hstep). by apply is_way_shared.
Qed.
End passes_spec.

(** ** The router *)

Section router_steps.
Context (L : libm) (m : ssmap).
Implicit Types (st : dstate) (u v : Z).

Lemma to_nat_ne u v : 0 ≤ u → 0 ≤ v → u ≠ v → Z.to_nat u ≠ Z.to_nat v.
Proof. lia. Qed.

Lemma find_index_from_spec ids u i0 :
  match decide (u ∈ ids) with
  | left _ => ∃ i : nat, find_index_from ids u i0 = i0 + Z.of_nat i
                         ∧ first_occurrence ids u i
  | right _ => find_index_from ids u i0 = -1
  end.
Proof.
  revert i0. induction ids as [|x ids IH]; intros i0.
  - destruct (decide _) as [[]%elem_of_nil|]; done.
  - simpl. destruct (x =? u) eqn:E.
    + apply Z.eqb_eq in E. subst x. clear IH.
      destruct (decide (u ∈ u :: ids)) as [_|Hn]; [|exfalso; apply Hn; by left].
      exists 0%nat.
      split; [lia|]. split; [done|]. intros; lia.
    + apply Z.eqb_neq in E. specialize (IH (i0 + 1)).
      destruct (decide (u ∈ ids)) as [Hin|Hnin].
      * destruct (decide (u ∈ x :: ids)) as [_|Hn]; [|exfalso; apply Hn; by right].
        destruct IH as (i & -> & Hi & Hmin). exists (S i).
        split; [lia|]. split; [done|].
        intros [|j] Hj; simpl; [congruence|]. apply Hmin. lia.
      * destruct (decide (u ∈ x :: ids)) as [[?|?]%elem_of_cons|_]; done.
Qed.

(** An edge of the router is a step. *)
Lemma first_edge_step (w : way) u v : first_edge w u v → step w u v.
Proof.
  intros (i0 & [Hu _] & [Hv|(Htwo & Hpos & Hv)]).
  - exists i0. split; [by left|].
    destruct (w_one_way w); [right|left]; done.
  - destruct i0 as [|i]; [lia|]. simpl in Hv. rewrite Nat.sub_0_r in Hv.
    exists i. split; [by right|by left].
Qed.

(** A neighbour the router considers is next to the first occurrence
    of [u]. *)
Lemma explore_offset_step (w : way) u offset :
  u ∈ w_node_ids w → offset = -1 ∨ offset = 1 →
  let next := find_node_index_in_way w u + offset in
  0 ≤ next < Z.of_nat (length (w_node_ids w)) →
  w_one_way w && (offset <? 0) = false →
  first_edge w u (w_node_ids w !!! Z.to_nat next)
  ∧ w_node_ids w !!! Z.to_nat next ∈ w_node_ids w.
Proof.
  intros Hu Hoff next Hnext Hdir. subst next.
  unfold find_node_index_in_way in *.
  pose proof (find_index_from_spec (w_node_ids w) u 0) as Hs.
  destruct (decide _) as [_|]; [|done].
  destruct Hs as (i & Hi & Hfirst). rewrite Hi in *. clear Hi.
  assert (is_Some (w_node_ids w !! Z.to_nat (0 + Z.of_nat i + offset))) as [v Hv]
    by (apply lookup_lt_is_Some; lia).
  rewrite (list_lookup_total_correct _ _ _ Hv).
  split; [|by eapply list_elem_of_lookup_2].
  exists i. split; [done|].
  destruct Hoff as [-> | ->].
  - right. replace (Z.to_nat (0 + Z.of_nat i + -1)) with (i - 1)%nat in Hv by lia.
    destruct (w_one_way w); [done|]. split; [done|]. split; [lia|done].
  - left. by replace (Z.to_nat (0 + Z.of_nat i + 1)) with (S i) in Hv by lia.
Qed.

Lemma pchain_insert parent start v l x y :
  pchain parent start v l → x ∉ l → 0 ≤ x → (∀ z, z ∈ l → 0 ≤ z) →
  pchain (<[Z.to_nat x := y]> parent) start v l.
Proof.
  induction 1 as [Hs|v l Hv Hc IH Hnin]; intros Hx Hx0 Hl.
  - apply pchain_start. rewrite list_lookup_total_insert_ne; [done|].
    apply to_nat_ne; [done|apply Hl; set_solver|set_solver].
  - assert (Z.to_nat x ≠ Z.to_nat v).
    { apply to_nat_ne; [done|apply Hl; set_solver|set_solver]. }
    pose proof (pchain_step (<[Z.to_nat x:=y]> parent) start v l) as Hstep.
    rewrite list_lookup_total_insert_ne in Hstep by done.
    apply Hstep; [done| |done].
    apply IH; [set_solver|done|]. intros z Hz. apply Hl. set_solver.
Qed.

Lemma heap_update_ids (h : min_heap) v alt :
  heap_ok h → NoDup (heap_ids h) →
  let h' := if negb (is_in_min_heap h v) then insert_min_heap h v alt
            else decrease_key h v alt in
  heap_ok h' ∧ NoDup (heap_ids h')
  ∧ (∀ x, x ∈ heap_ids h' → x = v ∨ x ∈ heap_ids h)
  ∧ (∀ x, x ∈ heap_ids h → x ∈ heap_ids h').
Proof.
  intros Hok Hnd. destruct (is_in_min_heap h v) eqn:Hin; simpl.
  - destruct (decrease_key_ids h v alt) as [Hp Hok'].
    split; [by apply Hok'|]. split; [by rewrite Hp|].
    split; intros x; rewrite Hp; auto.
  - assert (v ∉ heap_ids h) as Hv.
    { rewrite <- is_in_min_heap_spec. congruence. }
    destruct (decide (size h = capacity h)) as [Hfull|Hfree].
    + rewrite insert_min_heap_full by done. auto.
    + destruct Hok as [? ?].
      destruct (insert_min_heap_ids h v alt) as [Hp Hok']; [done|lia|].
      split; [done|]. split; [rewrite Hp; by constructor|].
      split; intros x; rewrite Hp; set_solver.
Qed.

Lemma explore_offset_visited u w idx offset st :
  d_visited (explore_offset L m u w idx offset st) = d_visited st.
Proof. unfold explore_offset. by repeat case_match. Qed.

Lemma vis_exists_false st v : d_visited st !!! Z.to_nat v = false → ¬ vis st v.
Proof. unfold vis. congruence. Qed.

Lemma unvisited_mark (visited : list bool) (i : nat) :
  visited !! i = Some false →
  S (length (List.filter negb (<[i:=true]> visited)))
  = length (List.filter negb visited).
Proof.
  revert i. induction visited as [|b l IH]; intros [|i] Hi; simplify_eq/=; [done|].
  destruct b; simpl; by rewrite IH.
Qed.

Lemma lookup_total_false (visited : list bool) (i : nat) :
  (i < length visited)%nat → visited !!! i ≠ true → visited !! i = Some false.
Proof.
  intros [b Hb]%lookup_lt_is_Some Hne.
  rewrite (list_lookup_total_correct _ _ _ Hb) in Hne. by destruct b.
Qed.

Lemma explore_node_unvisited u st :
  d_visited (explore_node L m u st) = d_visited st →
  unvisited (explore_node L m u st) = unvisited st.
Proof. unfold unvisited. by intros ->. Qed.

Lemma unvisited_replicate n : length (List.filter negb (replicate n false)) = n.
Proof. induction n as [|n IH]; simpl; [done|]. by rewrite IH. Qed.

Lemma dijkstra_loop_S end_id fuel st :
  dijkstra_loop L m end_id (S fuel) st =
  if (0 <? size (d_heap st))%nat then
    let u := hn_node_id (extract_min (d_heap st)).1 in
    let st1 := mk_dstate (d_dist st) (<[Z.to_nat u := true]> (d_visited st))
                         (d_parent st) (extract_min (d_heap st)).2 in
    if u =? end_id then Some st1
    else dijkstra_loop L m end_id fuel (explore_node L m u st1)
  else Some st.
Proof. simpl. by destruct (extract_min (d_heap st)). Qed.

Lemma pchain_ends parent start v l :
  pchain parent start v l → head l = Some start ∧ last l = Some v.
Proof.
  induction 1 as [|v l Hv Hc [IHh IHl] Hn]; [done|].
  split; [|by rewrite last_snoc].
  destruct l; [done|]. done.
Qed.

Lemma pchain_NoDup parent start v l : pchain parent start v l → NoDup l.
Proof.
  induction 1 as [|v l Hv Hc IH Hn]; [apply NoDup_singleton|].
  apply NoDup_app. split; [done|]. split; [|apply NoDup_singleton].
  intros x Hx ?%list_elem_of_singleton. by subst.
Qed.

Lemma trace_parents_end fuel parent : trace_parents fuel parent (-1) = Some [].
Proof. by destruct fuel. Qed.

Lemma pchain_trace parent start v l fuel :
  pchain parent start v l → (∀ x, x ∈ l → 0 ≤ x) → (length l ≤ fuel)%nat →
  trace_parents fuel parent v = Some (rev l).
Proof.
  intros Hc. revert fuel.
  induction Hc as [Hs|v l Hv Hc IH Hn]; intros fuel Hpos Hlen.
  - destruct fuel as [|fuel]; [simpl in Hlen; lia|]. simpl.
    destruct (start =? -1) eqn:E.
    { apply Z.eqb_eq in E. assert (0 ≤ start) by (apply Hpos; set_solver). lia. }
    by rewrite Hs, trace_parents_end.
  - rewrite length_app in Hlen. simpl in Hlen.
    destruct fuel as [|fuel]; [lia|]. simpl.
    destruct (v =? -1) eqn:E.
    { apply Z.eqb_eq in E. assert (0 ≤ v) by (apply Hpos; set_solver). lia. }
    rewrite IH; [|intros x Hx; apply Hpos; set_solver|lia].
    by rewrite rev_app_distr.
Qed.

Lemma consecutive_snoc (l : list Z) v a b :
  consecutive (l ++ [v]) a b → consecutive l a b ∨ (last l = Some a ∧ b = v).
Proof.
  intros (i & Ha & Hb).
  destruct (decide (S i < length l)%nat) as [Hlt|Hge].
  - left. exists i. rewrite !lookup_app_l in Ha, Hb by lia. done.
  - right. apply lookup_lt_Some in Hb as Hb'. rewrite length_app in Hb'. simpl in Hb'.
    assert (S i = length l) as Hi by lia.
    rewrite lookup_app_l in Ha by lia.
    rewrite lookup_app_r in Hb by lia. rewrite Hi, Nat.sub_diag in Hb.
    split; [|by simplify_eq/=].
    rewrite last_lookup. by replace (pred (length l)) with i by lia.
Qed.

Lemma pchain_consecutive parent start v l a b :
  pchain parent start v l → consecutive l a b →
  parent !!! Z.to_nat b = a ∧ a ≠ -1.
Proof.
  induction 1 as [|v l Hv Hc IH Hn]; intros Hab.
  - destruct Hab as ([|i] & ? & ?); simplify_eq/=.
  - apply consecutive_snoc in Hab as [Hab|[Hl ->]]; [by apply IH|].
    apply pchain_ends in Hc as [_ Hl']. by simplify_eq.
Qed.

Lemma list_length_range (l : list Z) n :
  NoDup l → (∀ x, x ∈ l → 0 ≤ x < Z.of_nat n) → (length l ≤ n)%nat.
Proof.
  intros Hnd Hr. rewrite <- (Nat2Z.id n), <- (length_seqZ 0).
  apply submseteq_length, NoDup_submseteq; [done|].
  intros x Hx. apply elem_of_seqZ. specialize (Hr x Hx). lia.
Qed.


Lemma last_pair (l : list Z) s e :
  head l = Some s → last l = Some e → s ≠ e → ∃ a, consecutive l a e.
Proof.
  revert s. induction l as [|x l IH]; intros s Hh Hl Hne; [done|].
  simpl in Hh. simplify_eq. destruct l as [|y l]; [by simplify_eq/=|].
  rewrite last_cons_cons in Hl. destruct l as [|z l].
  - simpl in Hl. simplify_eq. exists s. by exists 0%nat.
  - destruct (decide (y = e)) as [->|Hy]; [exists s; by exists 0%nat|].
    destruct (IH y eq_refl Hl Hy) as (a & i & ? & ?). exists a. by exists (S i).
Qed.

Lemma chain_reachable (R : relation Z) (l : list Z) s e :
  head l = Some s → last l = Some e → (∀ a b, consecutive l a b → R a b) →
  rtc R s e.
Proof.
  revert s. induction l as [|x l IH]; intros s Hh Hl HR; [done|].
  simpl in Hh. simplify_eq. destruct l as [|y l].
  - simpl in Hl. by simplify_eq.
  - eapply rtc_l; [apply HR; by exists 0%nat|].
    apply IH; [done|by rewrite last_cons_cons in Hl|].
    intros a b (i & ? & ?). apply HR. by exists (S i).
Qed.

Lemma heap_update_mem (h : min_heap) v alt x :
  heap_ok h → x ≠ v →
  let h' := if negb (is_in_min_heap h v) then insert_min_heap h v alt
            else decrease_key h v alt in
  heap_ok h' ∧ is_in_min_heap h' x = is_in_min_heap h x.
Proof.
  intros Hok Hne h'.
  enough (heap_ok h' ∧ (x ∈ heap_ids h' ↔ x ∈ heap_ids h)) as [? Hiff].
  { split; [done|]. apply Bool.eq_true_iff_eq.
    by rewrite !is_in_min_heap_spec. }
  subst h'. destruct (is_in_min_heap h v); simpl.
  - destruct (decrease_key_ids h v alt) as [Hp Hok'].
    split; [by apply Hok'|]. by rewrite Hp.
  - destruct (decide (size h = capacity h)) as [Hfull|Hfree].
    + by rewrite insert_min_heap_full.
    + destruct Hok as [? ?].
      destruct (insert_min_heap_ids h v alt) as [Hp Hok']; [done|lia|].
      split; [done|]. rewrite Hp. set_solver.
Qed.

Lemma same_at_refl x st : same_at x st st.
Proof. by repeat split. Qed.

Lemma explore_offset_frame u (w : way) idx offset st x :
  heap_ok (d_heap st) → 0 ≤ x → (∀ y, y ∈ w_node_ids w → 0 ≤ y) →
  (0 ≤ idx + offset < Z.of_nat (length (w_node_ids w)) →
   w_one_way w && (offset <? 0) = false →
   w_node_ids w !! Z.to_nat (idx + offset) ≠ Some x) →
  same_at x st (explore_offset L m u w idx offset st)
  ∧ heap_ok (d_heap (explore_offset L m u w idx offset st)).
Proof.
  intros Hok Hx Hpos Hcand. unfold explore_offset.
  destruct ((0 <=? idx + offset) && _) eqn:Hrange;
    [|split; [apply same_at_refl|done]].
  apply andb_true_iff in Hrange as [H0%Z.leb_le Hlt%Z.ltb_lt].
  destruct (w_one_way w && (offset <? 0)) eqn:Hdir;
    [split; [apply same_at_refl|done]|].
  specialize (Hcand (conj H0 Hlt) eq_refl).
  assert (is_Some (w_node_ids w !! Z.to_nat (idx + offset))) as [v Hv]
    by (apply lookup_lt_is_Some; lia).
  rewrite (list_lookup_total_correct _ _ _ Hv).
  assert (0 ≤ v) by (apply Hpos; by eapply list_elem_of_lookup_2).
  assert (x ≠ v) as Hne by congruence.
  destruct (negb _ && _); [|split; [apply same_at_refl|done]].
  set (alt := (_ + _)%float).
  destruct (alt <? _)%float; [|split; [apply same_at_refl|done]].
  destruct (heap_update_mem (d_heap st) v alt x Hok Hne) as [Hok' Hmem].
  split; [|done]. unfold same_at. simpl.
  rewrite !list_lookup_insert_ne by lia. done.
Qed.

Lemma same_at_trans x st1 st2 st3 :
  same_at x st1 st2 → same_at x st2 st3 → same_at x st1 st3.
Proof.
  intros (? & ? & ? & ?) (? & ? & ? & ?). unfold same_at.
  repeat split; congruence.
Qed.

Lemma first_occurrence_index (w : way) u (i0 : nat) :
  first_occurrence (w_node_ids w) u i0 →
  find_node_index_in_way w u = Z.of_nat i0.
Proof.
  intros [Hi Hmin]. unfold find_node_index_in_way.
  pose proof (find_index_from_spec (w_node_ids w) u 0) as Hs.
  destruct (decide _) as [_|Hn].
  - destruct Hs as (i & -> & Hi' & Hmin').
    destruct (Nat.lt_trichotomy i i0) as [Hlt|[->|Hgt]]; [|lia|].
    + by destruct (Hmin i Hlt).
    + by destruct (Hmin' i0 Hgt).
  - destruct Hn. by eapply list_elem_of_lookup_2.
Qed.

(** Along a segment the router touches only the neighbours of the
    first occurrence of [u]. *)
Lemma explore_way_frame u (w : way) st (i0 : nat) x :
  heap_ok (d_heap st) → 0 ≤ x → (∀ y, y ∈ w_node_ids w → 0 ≤ y) →
  first_occurrence (w_node_ids w) u i0 →
  w_node_ids w !! S i0 ≠ Some x →
  (w_one_way w = true ∨ i0 = 0%nat ∨ w_node_ids w !! (i0 - 1)%nat ≠ Some x) →
  same_at x st (explore_way L m u w st).
Proof.
  intros Hok Hx Hpos Hfirst Hnext Hprev. unfold explore_way.
  rewrite (first_occurrence_index w u i0 Hfirst).
  destruct (explore_offset_frame u w (Z.of_nat i0) (-1) st x Hok Hx Hpos)
    as [Hsame Hok'].
  { intros Hr Hd. replace (Z.to_nat (Z.of_nat i0 + -1)) with (i0 - 1)%nat by lia.
    destruct Hprev as [Hone|[->|?]]; [|lia|done].
    rewrite Hone in Hd. done. }
  eapply same_at_trans; [done|].
  apply explore_offset_frame; [done..|].
  intros _ _. by replace (Z.to_nat (Z.of_nat i0 + 1)) with (S i0) by lia.
Qed.

End router_steps.

Section router.
Context (L : libm) (m : ssmap).
Hypothesis Hwf : wf_map m = true.
Implicit Types (st : dstate) (u v : Z).

Lemma in_range_lt v : in_range m v → (Z.to_nat v < length (m_nodes m))%nat.
Proof. unfold in_range, num_nodes. lia. Qed.

Lemma in_range_exists v : in_range m v → ∃ n, get_node m v = Some n.
Proof.
  intros Hv. destruct (wf_map_dense_nodes m (Z.to_nat v) Hwf) as [n Hn].
  - by apply in_range_lt.
  - exists n. rewrite Z2Nat.id in Hn; [done|]. apply Hv.
Qed.

Lemma explore_offset_inv start st u p offset :
  dinv m start st → in_range m u → vis st u → p ∈ n_ways (node_at m u) →
  offset = -1 ∨ offset = 1 →
  dinv m start
    (explore_offset L m u (deref_way m p)
       (find_node_index_in_way (deref_way m p) u) offset st).
Proof.
  intros Hinv Hu Hvu Hp Hoff.
  destruct (in_range_exists u Hu) as [n Hn].
  rewrite (node_at_get _ _ _ Hn) in Hp.
  destruct (wf_map_node _ _ _ _ Hwf Hn Hp) as (w & Hw & Huw).
  pose proof (deref_way_lookup _ _ _ Hw) as Hd. rewrite Hd.
  unfold explore_offset.
  destruct (_ && (_ <? _)) eqn:Hrange; [|done].
  apply andb_true_iff in Hrange as [H0%Z.leb_le Hlt%Z.ltb_lt].
  destruct (w_one_way w && (offset <? 0)) eqn:Hdir; [done|].
  destruct (explore_offset_step w u offset Huw Hoff (conj H0 Hlt) Hdir)
    as [Hstep Hvin].
  set (v := w_node_ids w !!! Z.to_nat (find_node_index_in_way w u + offset)) in *.
  destruct (negb (d_visited st !!! Z.to_nat v) && _) eqn:Hcond; [|done].
  apply andb_true_iff in Hcond as [Hnv%negb_true_iff _].
  apply vis_exists_false in Hnv.
  set (alt := (_ + _)%float).
  destruct (alt <? _)%float; [|done].
  destruct (wf_map_way _ _ _ _ Hwf Hw Hvin) as (_ & nv & Hnv' & Hpv).
  assert (in_range m v) as Hv by (by eapply get_node_range).
  destruct Hinv as [Hl1 Hl2 Hl3 Hok (Hs & Hsv & Hsp) Hnd Hheap Hpar Hchain].
  assert (v ≠ start) as Hvs by (intros ->; done).
  destruct (heap_update_ids (d_heap st) v alt Hok Hnd) as (Hok' & Hnd' & Hsub & Hsup).
  assert (∀ x, in_range m x → x ≠ v →
            <[Z.to_nat v:=u]> (d_parent st) !!! Z.to_nat x = d_parent st !!! Z.to_nat x)
    as Hother.
  { intros x Hx Hne. apply list_lookup_total_insert_ne.
    apply to_nat_ne; [apply Hv|apply Hx|done]. }
  assert (<[Z.to_nat v:=u]> (d_parent st) !!! Z.to_nat v = u) as Hself.
  { apply list_lookup_total_insert_eq. rewrite Hl3. by apply in_range_lt. }
  constructor; simpl; rewrite ?length_insert; try done.
  - split; [done|]. split; [done|]. by rewrite Hother.
  - intros x [->|Hx]%Hsub.
    + split; [done|]. split; [done|]. rewrite Hself. unfold in_range in Hu. lia.
    + destruct (Hheap x Hx) as (Hxr & Hxv & Hxp). split; [done|]. split; [done|].
      destruct (decide (x = v)) as [->|Hne].
      * rewrite Hself. unfold in_range in Hu. lia.
      * by rewrite Hother.
  - intros x Hx. destruct (decide (x = v)) as [->|Hne].
    + rewrite Hself. intros _. split; [done|]. split; [done|].
      exists p. rewrite (node_at_get _ _ _ Hn), Hd. done.
    + rewrite Hother by done. by apply Hpar.
  - intros x Hx Hxv. destruct (Hchain x Hx Hxv) as (l & Hl & Hall).
    exists l. split; [|done]. apply pchain_insert; [done| |apply Hv|].
    + intros Hin. by destruct (Hall v Hin).
    + intros z Hz. by destruct (Hall z Hz) as [[? ?] _].
Qed.

Lemma explore_way_inv start st u p :
  dinv m start st → in_range m u → vis st u → p ∈ n_ways (node_at m u) →
  dinv m start (explore_way L m u (deref_way m p) st)
  ∧ d_visited (explore_way L m u (deref_way m p) st) = d_visited st.
Proof.
  intros Hinv Hu Hvu Hp. unfold explore_way. split.
  - apply explore_offset_inv; [|done| |done|by right].
    + apply explore_offset_inv; [done..|by left].
    + unfold vis. by rewrite explore_offset_visited.
  - by rewrite !explore_offset_visited.
Qed.

Lemma explore_node_inv start st u :
  dinv m start st → in_range m u → vis st u →
  dinv m start (explore_node L m u st)
  ∧ d_visited (explore_node L m u st) = d_visited st.
Proof.
  intros Hinv Hu Hvu. unfold explore_node.
  assert (∀ l st, (∀ p, p ∈ l → p ∈ n_ways (node_at m u)) →
            dinv m start st → vis st u →
            dinv m start (foldl (λ st p, explore_way L m u (deref_way m p) st) st l)
            ∧ d_visited (foldl (λ st p, explore_way L m u (deref_way m p) st) st l)
              = d_visited st) as Hfold.
  { clear st Hinv Hvu. induction l as [|p l IH]; intros st Hl Hinv Hvu; [done|].
    simpl. destruct (explore_way_inv start st u p) as [Hi Hv];
      [done|done|done|apply Hl; by left|].
    destruct (IH (explore_way L m u (deref_way m p) st)) as [Hi' Hv'];
      [intros q Hq; apply Hl; by right|done|unfold vis; by rewrite Hv|].
    split; [done|]. by rewrite Hv'. }
  by apply Hfold.
Qed.

(** Extracting the minimum and marking it visited keeps the invariant. *)
Lemma extract_mark_inv start st :
  dinv m start st → (0 < size (d_heap st))%nat →
  let u := hn_node_id (extract_min (d_heap st)).1 in
  let st1 := mk_dstate (d_dist st) (<[Z.to_nat u := true]> (d_visited st))
                       (d_parent st) (extract_min (d_heap st)).2 in
  dinv m start st1 ∧ in_range m u ∧ vis st1 u
  ∧ S (unvisited st1) = unvisited st.
Proof.
  intros [Hl1 Hl2 Hl3 Hok (Hs & Hsv & Hsp) Hnd Hheap Hpar Hchain] Hpos u st1.
  destruct (extract_min_ids (d_heap st) Hok Hpos) as (Hperm & Hok' & _).
  fold u in Hperm. rewrite Hperm in Hnd. apply NoDup_cons in Hnd as [Hu' Hnd'].
  destruct (Hheap u) as (Hu & Hnv & Hup); [rewrite Hperm; by left|].
  assert (vis st1 u) as Hvu.
  { unfold vis, st1. simpl. apply list_lookup_total_insert_eq.
    rewrite Hl2. by apply in_range_lt. }
  assert (∀ x, in_range m x → x ≠ u → vis st1 x ↔ vis st x) as Hvis.
  { intros x Hx Hne. unfold vis, st1. simpl.
    rewrite list_lookup_total_insert_ne; [done|].
    apply to_nat_ne; [apply Hu|apply Hx|done]. }
  assert (∀ x, in_range m x → vis st x → vis st1 x) as Hmono.
  { intros x Hx Hxv. destruct (decide (x = u)) as [->|Hne]; [done|].
    by apply Hvis. }
  split; [|split; [done|split; [done|]]].
  - constructor; simpl; rewrite ?length_insert; try done.
    + split; [done|]. split; [by apply Hmono|done].
    + intros x Hx. destruct (Hheap x) as (Hxr & Hxv & Hxp); [rewrite Hperm; by right|].
      split; [done|]. split; [|done].
      rewrite Hvis; [done|done|]. intros ->. done.
    + intros x Hx Hxp. destruct (Hpar x Hx Hxp) as (Hr & Hv & He).
      split; [done|]. split; [by apply Hmono|done].
    + intros x Hx Hxv. destruct (decide (x = u)) as [->|Hne].
      * destruct (Hpar u Hu Hup) as (Hr & Hv & _).
        destruct (Hchain _ Hr Hv) as (l & Hl & Hall).
        exists (l ++ [u]). split.
        -- apply pchain_step; [done|done|]. intros Hin.
           by destruct (Hall u Hin).
        -- intros x [Hx'|Hx']%elem_of_app;
             [|assert (x = u) as -> by set_solver; done].
           destruct (Hall x Hx'). split; [done|]. by apply Hmono.
      * apply Hvis in Hxv; [|done..].
        destruct (Hchain x Hx Hxv) as (l & Hl & Hall).
        exists l. split; [done|]. intros z Hz. destruct (Hall z Hz).
        split; [done|]. by apply Hmono.
  - unfold unvisited, st1. simpl. apply unvisited_mark.
    apply lookup_total_false; [|done]. rewrite Hl2. by apply in_range_lt.
Qed.

(** The loop ends within the fuel, in a state that satisfies the invariant. *)
Lemma dijkstra_loop_inv start end_id fuel st :
  dinv m start st → (unvisited st < fuel)%nat →
  ∃ st', dijkstra_loop L m end_id fuel st = Some st' ∧ dinv m start st'.
Proof.
  revert st. induction fuel as [|fuel IH]; intros st Hinv Hfuel; [lia|].
  simpl. destruct (0 <? size (d_heap st))%nat eqn:Hsz; [|by exists st].
  apply Nat.ltb_lt in Hsz.
  destruct (extract_mark_inv start st Hinv Hsz) as (Hinv1 & Hu & Hvu & Hcount).
  destruct (extract_min (d_heap st)) as [min_heap_node h] eqn:Hex. simpl in *.
  destruct (hn_node_id min_heap_node =? end_id); [by eexists|].
  destruct (explore_node_inv start _ _ Hinv1 Hu Hvu) as [Hinv2 Hvis2].
  apply IH; [done|].
  rewrite (explore_node_unvisited L m _ _ Hvis2). lia.
Qed.

(** The first round extracts [start]; the invariant holds from then on. *)
Lemma first_round_inv start :
  in_range m start →
  let st0 := dijkstra_init m start in
  let u := hn_node_id (extract_min (d_heap st0)).1 in
  let st1 := mk_dstate (d_dist st0) (<[Z.to_nat u := true]> (d_visited st0))
                       (d_parent st0) (extract_min (d_heap st0)).2 in
  (0 < size (d_heap st0))%nat ∧ u = start ∧ dinv m start st1
  ∧ (unvisited st1 < length (m_nodes m))%nat.
Proof.
  intros Hs. pose proof (in_range_lt _ Hs) as Hlt.
  unfold dijkstra_init. cbn [d_dist d_visited d_parent d_heap].
  set (n := length (m_nodes m)) in *.
  destruct (create_min_heap_ok n) as [Hok0 Hids0].
  destruct (insert_min_heap_ids (create_min_heap n) start 0%float Hok0)
    as [Hperm Hok]; [simpl; lia|].
  rewrite Hids0 in Hperm.
  set (h0 := insert_min_heap (create_min_heap n) start 0%float) in *.
  assert (0 < size h0)%nat as Hpos.
  { apply Permutation_length in Hperm. unfold heap_ids in Hperm.
    rewrite length_fmap, length_take in Hperm. simpl in Hperm. lia. }
  clearbody h0.
  destruct (extract_min_ids h0 Hok Hpos) as (Hperm' & Hok' & _).
  destruct (extract_min h0) as [r h1]. cbn [fst snd] in *.
  rewrite Hperm in Hperm'.
  assert (heap_ids h1 = []) as Hnil.
  { apply Permutation_length in Hperm'. apply nil_length_inv.
    cbn [length] in Hperm'. lia. }
  rewrite Hnil in Hperm'. apply Permutation_singleton_inj in Hperm'.
  rewrite <- Hperm'. clear Hperm'.
  match goal with |- _ ∧ _ ∧ dinv m start ?s ∧ _ => set (st1 := s) end.
  split; [done|]. split; [done|].
  assert (vis st1 start) as Hvs.
  { unfold vis, st1. simpl. apply list_lookup_total_insert_eq.
    by rewrite length_replicate. }
  assert (∀ x, in_range m x → d_parent st1 !!! Z.to_nat x = -1) as Hpar.
  { intros x Hx. unfold st1. simpl. apply lookup_total_replicate_2.
    by apply in_range_lt. }
  assert (∀ x, in_range m x → vis st1 x → x = start) as Honly.
  { intros x Hx Hv. destruct (decide (x = start)) as [|Hne]; [done|].
    unfold vis, st1 in Hv. simpl in Hv.
    rewrite list_lookup_total_insert_ne in Hv
      by (apply to_nat_ne; [apply Hs|apply Hx|done]).
    rewrite lookup_total_replicate_2 in Hv by (by apply in_range_lt). done. }
  split.
  - constructor; simpl; rewrite ?length_insert, ?length_replicate, ?Hnil; try done.
    + split; [done|]. split; [done|]. by apply (Hpar start).
    + constructor.
    + by intros v ?%elem_of_nil.
    + intros v Hv Hne. by specialize (Hpar v Hv).
    + intros v Hv Hvv. rewrite (Honly v Hv Hvv). exists [start]. split.
      * apply pchain_start. by apply (Hpar start).
      * intros x Hx. assert (x = start) as -> by set_solver. done.
  - enough (S (unvisited st1) = n) by lia.
    unfold unvisited, st1. simpl. rewrite unvisited_mark.
    + apply unvisited_replicate.
    + by apply lookup_replicate_2.
Qed.

Lemma dijkstra_inv start end_id :
  in_range m start → start ≠ end_id →
  ∃ st, dijkstra L m start end_id = Some st ∧ dinv m start st.
Proof.
  intros Hs Hne. pose proof (first_round_inv start Hs) as Hfirst.
  cbv zeta in Hfirst. destruct Hfirst as (Hpos & Hu & Hinv & Hfuel).
  unfold dijkstra. rewrite dijkstra_loop_S.
  apply Nat.ltb_lt in Hpos. rewrite Hpos. cbv zeta.
  rewrite Hu in *.
  destruct (start =? end_id) eqn:E; [apply Z.eqb_eq in E; done|].
  pose proof (inv_start _ _ _ Hinv) as (_ & Hvs & _).
  destruct (explore_node_inv start _ start Hinv Hs Hvs) as [Hinv2 Hvis2].
  apply (dijkstra_loop_inv start); [done|].
  by rewrite (explore_node_unvisited L m _ _ Hvis2).
Qed.

(** On distinct existing end points the router ends, and prints either
    nothing or a path of distinct points from [start] to [end_id], each
    joined to the next by an edge the router followed. *)
Lemma path_create_result_spec start end_id :
  in_range m start → in_range m end_id → start ≠ end_id →
  ∃ st, dijkstra L m start end_id = Some st ∧
    ((d_parent st !!! Z.to_nat end_id = -1
      ∧ path_create_result L m start end_id = Some PathNone)
     ∨ ∃ l, path_create_result L m start end_id = Some (PathFound l)
            ∧ head l = Some start ∧ last l = Some end_id ∧ NoDup l
            ∧ (∀ x, x ∈ l → in_range m x)
            ∧ (∀ a b, consecutive l a b → redge m a b)).
Proof.
  intros Hs He Hne. unfold path_create_result.
  assert (∀ x, in_range m x → node_missing m x = false) as Hex.
  { intros x Hx. apply node_missing_false. apply point_exists_get.
    destruct (in_range_exists x Hx). by eexists. }
  rewrite !Hex by done.
  destruct (start =? end_id) eqn:E; [apply Z.eqb_eq in E; done|].
  destruct (dijkstra_inv start end_id Hs Hne) as (st & Hst & Hinv).
  exists st. split; [done|]. rewrite Hst. simpl.
  destruct (d_parent st !!! Z.to_nat end_id =? -1) eqn:Hp;
    [apply Z.eqb_eq in Hp; by left|].
  apply Z.eqb_neq in Hp. right.
  assert (∃ l, pchain (d_parent st) start end_id l ∧ ∀ x, x ∈ l → in_range m x)
    as (l & Hc & Hall).
  { destruct (inv_parent _ _ _ Hinv end_id He Hp) as (Hr & Hv & _).
    destruct (inv_chain _ _ _ Hinv _ Hr Hv) as (l & Hl & Hall).
    destruct (decide (end_id ∈ l)) as [Hin|Hnin].
    - destruct (Hall _ Hin) as [_ Hve].
      destruct (inv_chain _ _ _ Hinv _ He Hve) as (l' & Hl' & Hall').
      exists l'. split; [done|]. intros x Hx. by destruct (Hall' x Hx).
    - exists (l ++ [end_id]). split; [by apply pchain_step|].
      intros x [Hx|Hx]%elem_of_app; [by destruct (Hall x Hx)|].
      assert (x = end_id) as -> by set_solver. done. }
  pose proof (pchain_NoDup _ _ _ _ Hc) as Hnd.
  rewrite (pchain_trace _ _ _ _ _ Hc).
  - simpl. rewrite rev_involutive. exists l. split; [done|].
    destruct (pchain_ends _ _ _ _ Hc) as [Hh Hl].
    split; [done|]. split; [done|]. split; [done|]. split; [done|].
    intros a b Hab.
    destruct (pchain_consecutive _ _ _ _ _ _ Hc Hab) as [Hpa Ha].
    assert (in_range m b) as Hb.
    { destruct Hab as (i & _ & Hi). apply Hall. by eapply list_elem_of_lookup_2. }
    destruct (inv_parent _ _ _ Hinv b Hb) as (_ & _ & Hedge); [by rewrite Hpa|].
    by rewrite Hpa in Hedge.
  - intros x Hx. by destruct (Hall x Hx).
  - apply list_length_range; [done|]. intros x Hx. apply (Hall x Hx).
Qed.

Lemma node_missing_range x : node_missing m x = false ↔ in_range m x.
Proof.
  rewrite node_missing_false. split; [by intros [? _]|].
  intros Hx. apply point_exists_get. destruct (in_range_exists x Hx). by eexists.
Qed.

Lemma redge_way u v :
  in_range m u → redge m u v →
  ∃ (p : nat) w, p ∈ n_ways (node_at m u) ∧ m_ways m !! p = Some (Some w)
                 ∧ deref_way m p = w ∧ step w u v.
Proof.
  intros Hu (p & Hp & Hs%first_edge_step). destruct (in_range_exists u Hu) as [n Hn].
  pose proof Hp as Hp'. rewrite (node_at_get _ _ _ Hn) in Hp'.
  destruct (wf_map_node _ _ _ _ Hwf Hn Hp') as (w & Hw & _).
  exists p, w. rewrite (deref_way_lookup _ _ _ Hw) in *. done.
Qed.

Lemma redge_connected u v : in_range m u → redge m u v → connected m u v.
Proof.
  intros Hu He. destruct (redge_way u v Hu He) as (p & w & _ & Hw & _ & Hs).
  exists w. split; [by exists p|done].
Qed.



End router.

(** ** Search by name *)

Section names.
Implicit Types (m : ssmap) (s t : string).

Lemma prefix_cons a s b t :
  String.prefix (String a s) (String b t)
  = if Ascii.ascii_dec a b then String.prefix s t else false.
Proof. done. Qed.

Lemma append_cons c s t : String c s +:+ t = String c (s +:+ t).
Proof. done. Qed.

Lemma append_nil t : "" +:+ t = t.
Proof. done. Qed.

Lemma prefix_spec s t : String.prefix s t = true ↔ ∃ post, t = s +:+ post.
Proof.
  revert t. induction s as [|a s IH]; intros t.
  - simpl. destruct t; split; eauto.
  - destruct t as [|b t]; [split; [done|by intros [? ?]]|].
    rewrite prefix_cons. setoid_rewrite append_cons.
    destruct (Ascii.ascii_dec a b) as [->|Hne].
    + rewrite IH. split; intros [post Hp]; exists post; congruence.
    + split; [done|]. intros [post Hp]. congruence.
Qed.

Lemma strstr_found_spec hay needle :
  strstr_found hay needle = true ↔ contains hay needle.
Proof.
  unfold contains. induction hay as [|c hay IH].
  - change (strstr_found "" needle)
      with (if String.prefix needle "" then true else false).
    destruct (String.prefix needle "") eqn:E.
    + apply prefix_spec in E as [post E]. split; [|done]. intros _. by exists "", post.
    + split; [done|]. intros (pre & post & Hp).
      destruct pre; [|by rewrite append_cons in Hp].
      rewrite append_nil in Hp.
      assert (String.prefix needle "" = true); [|congruence].
      apply prefix_spec. by exists post.
  - change (strstr_found (String c hay) needle)
      with (if String.prefix needle (String c hay) then true
            else strstr_found hay needle).
    destruct (String.prefix needle (String c hay)) eqn:E.
    + apply prefix_spec in E as [post E]. split; [|done]. intros _. by exists "", post.
    + rewrite IH. split.
      * intros (pre & post & ->). by exists (String c pre), post.
      * intros (pre & post & Hp). destruct pre as [|c' pre].
        -- rewrite append_nil in Hp.
           assert (String.prefix needle (String c hay) = true); [|congruence].
           apply prefix_spec. by exists post.
        -- rewrite append_cons in Hp. simplify_eq. by exists pre, post.
Qed.

Lemma collect_ways_fold m name1 name2 (l a1 a2 : list Z) :
  foldl (λ '(ways1, ways2) i,
    if strstr_found (w_name (way_at m i)) name1 then
      (ways1 ++ [i], if name_matches m (Some name2) i then ways2 ++ [i] else ways2)
    else if name_matches m (Some name2) i then (ways1, ways2 ++ [i])
    else (ways1, ways2)) (a1, a2) l
  = (a1 ++ List.filter (λ i, strstr_found (w_name (way_at m i)) name1) l,
     a2 ++ List.filter (λ i, strstr_found (w_name (way_at m i)) name2) l).
Proof.
  revert a1 a2. induction l as [|i l IH]; intros a1 a2.
  - simpl. by rewrite !app_nil_r.
  - cbn [foldl List.filter name_matches].
    destruct (strstr_found (w_name (way_at m i)) name1),
             (strstr_found (w_name (way_at m i)) name2);
      cbn [name_matches] in IH; rewrite IH; by rewrite <- ?app_assoc.
Qed.

Lemma collect_ways_spec m name1 name2 :
  collect_ways m name1 (Some name2)
  = (List.filter (λ i, strstr_found (w_name (way_at m i)) name1) (seqZ 0 (num_ways m)),
     List.filter (λ i, strstr_found (w_name (way_at m i)) name2) (seqZ 0 (num_ways m))).
Proof. unfold collect_ways. by rewrite collect_ways_fold. Qed.

Lemma elem_of_filter_b {A} (f : A → bool) (l : list A) x :
  x ∈ List.filter f l ↔ x ∈ l ∧ f x = true.
Proof. by rewrite !list_elem_of_In, filter_In. Qed.

Lemma touches_both_spec (ways1 ways2 ids : list Z) :
  touches_both ways1 ways2 ids = true
  ↔ ∃ a b, a ∈ ids ∧ b ∈ ids ∧ a ∈ ways1 ∧ b ∈ ways2 ∧ a ≠ b.
Proof.
  unfold touches_both. rewrite existsb_elem_of. split.
  - intros (wj & Hj & (w1 & H1 & [->%Z.eqb_eq H]%andb_true_iff)%existsb_elem_of).
    apply existsb_elem_of in H as (wl & Hl & (w2 & H2 & [->%Z.eqb_eq Hne]%andb_true_iff)%existsb_elem_of).
    apply negb_true_iff, Z.eqb_neq in Hne. by exists w1, w2.
  - intros (a & b & Ha & Hb & H1 & H2 & Hne). exists a. split; [done|].
    apply existsb_elem_of. exists a. split; [done|].
    rewrite Z.eqb_refl. simpl.
    apply existsb_elem_of. exists b. split; [done|].
    apply existsb_elem_of. exists b. split; [done|].
    rewrite Z.eqb_refl. simpl. by apply negb_true_iff, Z.eqb_neq.
Qed.

Lemma NoDup_filter_b {A} (f : A → bool) (l : list A) : NoDup l → NoDup (List.filter f l).
Proof.
  induction 1 as [|x l Hx Hl IH]; simpl; [constructor|].
  destruct (f x); [|done]. constructor; [|done].
  rewrite elem_of_filter_b. by intros [? _].
Qed.

Context (m : ssmap) (Hwf : wf_map m = true).

Lemma find_node_by_names_ids_spec name1 name2 i :
  i ∈ find_node_by_names_ids m name1 (Some name2)
  ↔ 0 ≤ i < num_nodes m ∧ touches_two m name1 name2 i.
Proof.
  unfold find_node_by_names_ids. rewrite collect_ways_spec.
  rewrite elem_of_filter_b, elem_of_seqZ, touches_both_spec.
  assert (0 ≤ i < num_nodes m →
          ∀ p, p ∈ n_ways (node_at m i) →
               w_id (deref_way m p) = Z.of_nat p
               ∧ 0 ≤ Z.of_nat p < 0 + num_ways m) as Hways.
  { intros Hi p Hp. destruct (in_range_exists m Hwf i Hi) as [n Hn].
    rewrite (node_at_get _ _ _ Hn) in Hp.
    destruct (wf_map_node _ _ _ _ Hwf Hn Hp) as (w & Hw & _).
    rewrite (deref_way_lookup _ _ _ Hw), (wf_map_way_id _ _ _ Hwf Hw).
    apply lookup_lt_Some in Hw. unfold num_ways. lia. }
  split; intros [Hi H]; (split; [lia|]); assert (0 ≤ i < num_nodes m) as Hi' by lia;
    specialize (Hways Hi').
  - destruct H as (a & b & Ha & Hb & H1 & H2 & Hne).
    unfold node_way_ids in Ha, Hb.
    apply list_elem_of_fmap in Ha as (p & -> & Hp), Hb as (q & -> & Hq).
    destruct (Hways p Hp) as [Hidp _], (Hways q Hq) as [Hidq _].
    rewrite Hidp, Hidq in *.
    apply elem_of_filter_b in H1 as [_ H1], H2 as [_ H2].
    rewrite way_at_deref in H1, H2.
    exists p, q. repeat split; try done; [congruence|..]; by apply strstr_found_spec.
  - destruct H as (p & q & Hp & Hq & Hne & H1 & H2).
    destruct (Hways p Hp) as [Hidp Hrp], (Hways q Hq) as [Hidq Hrq].
    exists (Z.of_nat p), (Z.of_nat q).
    split; [unfold node_way_ids; apply list_elem_of_fmap; by exists p|].
    split; [unfold node_way_ids; apply list_elem_of_fmap; by exists q|].
    rewrite !elem_of_filter_b, !elem_of_seqZ, !way_at_deref, !strstr_found_spec.
    repeat split; try done; lia.
Qed.

Lemma find_node_by_names_ids_NoDup name1 name2 :
  NoDup (find_node_by_names_ids m name1 name2).
Proof.
  unfold find_node_by_names_ids. destruct (collect_ways _ _ _).
  apply NoDup_filter_b, NoDup_seqZ.
Qed.
End names.

Import Examples.

(** ** The scenarios of the specification *)

(** On the map of the specification: [0,1,2,3] validates; [3,2,1,0] goes
    in reverse along the one-way segment; 0 and 2 share a segment but are
    not consecutive in it; [0,1,0] repeats point 0; the route from 0 to 3
    is 0 1 2 3 and there is none from 3 to 0; point 1 alone touches both
    Main and Oak. *)
Example spec_scenarios :
  (ssmap_path_travel_time RefLibm.ref scenario [0; 1; 2; 3]).1 = ""
  ∧ ssmap_path_travel_time RefLibm.ref scenario [3; 2; 1; 0]
    = (err_reverse 3 2, (-1)%float)
  ∧ ssmap_path_travel_time RefLibm.ref scenario [0; 2]
    = (err_not_direct 0 2, (-1)%float)
  ∧ ssmap_path_travel_time RefLibm.ref scenario [0; 1; 0]
    = (err_twice 0, (-1)%float)
  ∧ ssmap_path_create RefLibm.ref scenario 0 3 = Some ("0 1 2 3 " +:+ nl)
  ∧ ssmap_path_create RefLibm.ref scenario 3 0 = Some ""
  ∧ ssmap_find_node_by_names scenario "Main" (Some "Oak") = "1 " +:+ nl.
Proof. by vm_compute. Qed.

(** ** The claims *)

(** The segment [1,0,1,2]: whatever [libm] computes, the validator
    accepts [1,2]; no first-occurrence edge enters point 2, so the router
    finds no way from point 1 to point 2. *)
Lemma revisit_validates (L : libm) :
  (ssmap_path_travel_time L revisit_map [1; 2]).1 = "".
Proof. by vm_compute. Qed.

Lemma revisit_no_edge_into_2 a : ¬ redge revisit_map a 2.
Proof.
  intros (p & _ & i0 & [Hu Hmin] & H).
  destruct p as [|p]; [|by destruct i0].
  change (w_node_ids (deref_way revisit_map 0)) with [1; 0; 1; 2] in *.
  destruct H as [H|(_ & _ & H)].
  - destruct i0 as [|[|[|[|i0]]]]; simplify_eq/=.
    by apply (Hmin 0%nat); [lia|].
  - destruct i0 as [|[|[|[|[|i0]]]]]; simplify_eq/=.
Qed.

Lemma revisit_no_route (L : libm) :
  ssmap_path_create L revisit_map 1 2 = Some "".
Proof.
  unfold ssmap_path_create.
  assert (wf_map revisit_map = true) as Hwf by (by vm_compute).
  destruct (path_create_result_spec L revisit_map Hwf 1 2)
    as (st & _ & [[_ ->]|(l & _ & Hh & Hl & _ & _ & Hedge)]);
    [by vm_compute|by vm_compute|done|done|].
  destruct (last_pair l 1 2 Hh Hl) as [a Ha]; [done|].
  apply Hedge in Ha. by apply revisit_no_edge_into_2 in Ha.
Qed.

(** C2.  Optimality fails on a segment that lists a point twice.  On the
    closed two-way ring [0,1,2,3,0] the router prints the way round,
    0 1 2 3, from point 0 to point 3, although the direct path [0,3]
    validates with a smaller travel time.  On the segment [1,0,1,2] it
    prints nothing from point 1 to point 2, for every [libm], although
    [1,2] validates. *)
Theorem router_not_optimal_on_repeated_point :
  (wf_map ring = true
   ∧ path_create_result RefLibm.ref ring 0 3 = Some (PathFound [0; 1; 2; 3])
   ∧ (ssmap_path_travel_time RefLibm.ref ring [0; 3]).1 = ""
   ∧ (ssmap_path_travel_time RefLibm.ref ring [0; 1; 2; 3]).1 = ""
   ∧ PrimFloat.ltb (ssmap_path_travel_time RefLibm.ref ring [0; 3]).2
                   (ssmap_path_travel_time RefLibm.ref ring [0; 1; 2; 3]).2 = true)
  ∧ (wf_map revisit_map = true
     ∧ ∀ L, ssmap_path_create L revisit_map 1 2 = Some ""
            ∧ (ssmap_path_travel_time L revisit_map [1; 2]).1 = "").
Proof.
  split; [by vm_compute|]. split; [by vm_compute|].
  intros L. split; [apply revisit_no_route|apply revisit_validates].
Qed.

(** C3, as amended.  Segment choice in travel time: for a validated
    sequence on a well-formed map and an adjacent pair [(u, v)] of it, the
    speed of the leg is that of the last segment of [u]'s segment list
    that allows the step from [u] to [v]. *)
Theorem leg_speed_is_last_step_way (L : libm) (m : ssmap) (path : list Z) (u v : Z) :
  wf_map m = true →
  (ssmap_path_travel_time L m path).1 = "" →
  consecutive path u v →
  (ssmap_path_travel_time L m path).2 = (sum_legs L m path * 60)%float
  ∧ ∃ l1 p l2, n_ways (node_at m u) = l1 ++ p :: l2
               ∧ step (deref_way m p) u v
               ∧ (∀ q, q ∈ l2 → ¬ step (deref_way m q) u v)
               ∧ leg_speed m u v = w_max_speed (deref_way m p).
Proof.
  intros Hwf Hok Huv. pose proof Hok as Hvalid%travel_time_valid. split.
  - destruct (travel_time_verdict L m path) as (r & Hr & ->).
    by rewrite (verdict_unique m path Valid r Hvalid Hr).
  - by eapply leg_speed_last.
Qed.

Lemma parallel_step (p : nat) : (p < 2)%nat → step (deref_way parallel p) 0 1.
Proof.
  intros Hp. exists 0%nat.
  destruct p as [|[|p]]; [| |lia]; (split; [by left|by left]).
Qed.

Lemma leg_speed_is_last_step_way_witness :
  wf_map parallel = true
  ∧ (ssmap_path_travel_time RefLibm.ref parallel [0; 1]).1 = ""
  ∧ consecutive [0; 1] 0 1
  ∧ ∃ l1 p l2, n_ways (node_at parallel 0) = l1 ++ p :: l2
               ∧ step (deref_way parallel p) 0 1
               ∧ (∀ q, q ∈ l2 → ¬ step (deref_way parallel q) 0 1)
               ∧ leg_speed parallel 0 1 = w_max_speed (deref_way parallel p).
Proof.
  split; [by vm_compute|]. split; [by vm_compute|].
  split; [by exists 0%nat|].
  apply (leg_speed_is_last_step_way RefLibm.ref parallel [0; 1] 0 1);
    [by vm_compute|by vm_compute|by exists 0%nat].
Defined.

(** C3, as stated, fails: the first segment of point 0's list that allows
    the step to point 1 has speed 60, and the leg is timed at speed 30,
    that of the second. *)
Lemma travel_time_uses_last_segment :
  (ssmap_path_travel_time RefLibm.ref parallel [0; 1]).1 = ""
  ∧ n_ways (node_at parallel 0) = [0%nat; 1%nat]
  ∧ step (deref_way parallel 0) 0 1
  ∧ step (deref_way parallel 1) 0 1
  ∧ w_max_speed (deref_way parallel 0) = 60%float
  ∧ leg_speed parallel 0 1 = 30%float.
Proof.
  split; [by vm_compute|]. split; [done|].
  split; [apply parallel_step; lia|]. split; [apply parallel_step; lia|].
  split; by vm_compute.
Qed.

Section passes.
Implicit Types (path : list Z) (ok : Z * Z → Prop).

Lemma adjacent_pairs_lookup path i uv :
  adjacent_pairs path !! i = Some uv ↔ leg_at path i uv.
Proof.
  unfold leg_at. revert i. induction path as [|x path IH]; intros i.
  { simpl. split; [done|]. by intros [? _]. }
  destruct path as [|y path].
  { simpl. split; [done|]. intros [_ ?]. by destruct i. }
  change (adjacent_pairs (x :: y :: path)) with ((x, y) :: adjacent_pairs (y :: path)).
  destruct i as [|i].
  - simpl. destruct uv as [u v]. simpl. split; [by intros [= -> ->]|].
    by intros [[= ->] [= ->]].
  - simpl. apply IH.
Qed.

Lemma Forall_all_legs ok path : Forall ok (adjacent_pairs path) ↔ all_legs ok path.
Proof.
  rewrite Forall_lookup. unfold all_legs.
  split; intros H i uv Hi; apply (H i uv); by apply adjacent_pairs_lookup.
Qed.

Lemma first_offender_bad_leg ok path uv :
  first_offender ok (adjacent_pairs path) uv ↔ first_bad_leg ok path uv.
Proof.
  split.
  - intros (pre & post & Hl & Hpre & Hbad). exists (length pre).
    split; [|split; [done|]].
    + apply adjacent_pairs_lookup. rewrite Hl. by apply list_lookup_middle.
    + intros j uv' Hj Hleg. apply adjacent_pairs_lookup in Hleg.
      rewrite Hl, lookup_app_l in Hleg by done.
      rewrite Forall_lookup in Hpre. by eapply Hpre.
  - intros (i & Hleg & Hbad & Hpre). apply adjacent_pairs_lookup in Hleg.
    exists (take i (adjacent_pairs path)), (drop (S i) (adjacent_pairs path)).
    split; [by rewrite take_drop_middle|]. split; [|done].
    apply Forall_lookup. intros j uv' Hj.
    pose proof (lookup_lt_Some _ _ _ Hj) as Hlt. rewrite length_take in Hlt.
    rewrite lookup_take_lt in Hj by lia.
    apply (Hpre j uv'); [lia|]. by apply adjacent_pairs_lookup.
Qed.

Lemma pass_verdict_holds m path r : pass_verdict m path r ↔ verdict_holds m path r.
Proof.
  destruct r; simpl; rewrite <- ?Forall_all_legs, <- ?first_offender_bad_leg; done.
Qed.

Lemma section7_line_verdict r : section7_line r = verdict_line r.
Proof. by destruct r. Qed.
End passes.

(** C4.  Ordered short-circuit validation: for every sequence exactly one
    outcome of the five ordered passes holds; an outcome of a later pass
    requires every earlier pass to hold of the whole sequence.
    [ssmap_path_travel_time] prints the error line that section 7 gives
    for this outcome, and nothing else, and returns -1.0; when all five
    passes hold it prints nothing and returns the travel time. *)
Theorem travel_time_ordered_passes (L : libm) (m : ssmap) (path : list Z) :
  ∃ r, pass_verdict m path r
       ∧ (∀ r', pass_verdict m path r' → r' = r)
       ∧ ssmap_path_travel_time L m path
         = (section7_line r,
            match r with Valid => (sum_legs L m path * 60)%float | _ => (-1)%float end).
Proof.
  destruct (travel_time_verdict L m path) as (r & Hr & Heq).
  exists r. split; [by apply pass_verdict_holds|].
  split; [|by rewrite section7_line_verdict].
  intros r' Hr'%pass_verdict_holds. by eapply verdict_unique.
Qed.

(** C5.  Direction respect: on a well-formed map [ssmap_path_create]
    ends, and no two identifiers that follow each other in the path it
    prints go against a one-way segment; between distinct end points
    every such pair is a step along some segment of the map. *)
Theorem router_respects_direction (L : libm) (m : ssmap) (start_id end_id : Z) :
  wf_map m = true →
  ∃ r, path_create_result L m start_id end_id = Some r
       ∧ ssmap_path_create L m start_id end_id = Some (print_path_result r)
       ∧ ∀ u v, consecutive (printed_path r) u v →
                ¬ against_one_way m u v
                ∧ (start_id ≠ end_id → connected m u v).
Proof.
  intros Hwf. unfold ssmap_path_create.
  assert (∀ u v, consecutive [] u v → False) as Hnil by (by intros u v ([|i] & ? & ?)).
  destruct (node_missing m start_id) eqn:E1.
  { exists (PathError start_id). unfold path_create_result. rewrite E1.
    split; [done|]. split; [done|]. intros u v Huv. by destruct (Hnil u v). }
  destruct (node_missing m end_id) eqn:E2.
  { exists (PathError end_id). unfold path_create_result. rewrite E1, E2.
    split; [done|]. split; [done|]. intros u v Huv. by destruct (Hnil u v). }
  destruct (start_id =? end_id) eqn:E3.
  { exists (PathSame start_id end_id). unfold path_create_result. rewrite E1, E2, E3.
    split; [done|]. split; [done|]. apply Z.eqb_eq in E3. subst end_id.
    intros u v Huv. assert (u = start_id ∧ v = start_id) as [-> ->].
    { destruct Huv as ([|[|i]] & Hu & Hv); by simplify_eq/=. }
    split; [|done].
    intros [(w & i & Hw & Hl) Hn]. apply Hn. exists w. split; [done|].
    assert (lists_at w i start_id start_id) as Hl' by (by destruct Hl).
    exists i. split; [by left|]. destruct (w_one_way w); [right|left]; done. }
  apply (node_missing_range m Hwf) in E1, E2. apply Z.eqb_neq in E3.
  destruct (path_create_result_spec L m Hwf start_id end_id E1 E2 E3)
    as (st & _ & [[_ Hres]|(l & Hres & _ & _ & _ & Hall & Hedge)]); rewrite Hres.
  { exists PathNone. split; [done|]. split; [done|]. intros u v Huv.
    by destruct (Hnil u v). }
  exists (PathFound l). split; [done|]. split; [done|]. simpl. intros u v Huv.
  assert (connected m u v) as Hc.
  { apply (redge_connected m Hwf); [|by apply Hedge].
    destruct Huv as (i & Hi & _). apply Hall. by eapply list_elem_of_lookup_2. }
  split; [|done]. by intros [_ Hn].
Qed.

Lemma router_respects_direction_witness :
  wf_map scenario = true
  ∧ ∃ r, path_create_result RefLibm.ref scenario 0 3 = Some r
         ∧ ssmap_path_create RefLibm.ref scenario 0 3 = Some (print_path_result r)
         ∧ ∀ u v, consecutive (printed_path r) u v →
                  ¬ against_one_way scenario u v ∧ (0 ≠ 3 → connected scenario u v).
Proof.
  split; [by vm_compute|].
  apply (router_respects_direction RefLibm.ref scenario 0 3). by vm_compute.
Defined.

(** C6.  Disconnection is not an error: on a well-formed map, for two
    distinct existing points with no directed path of steps from the first
    to the second, [ssmap_path_create] ends, the predecessor of the end
    is still [-1], and nothing is printed. *)
Theorem disconnected_prints_nothing (L : libm) (m : ssmap) (start_id end_id : Z) :
  wf_map m = true →
  point_exists m start_id → point_exists m end_id → start_id ≠ end_id →
  ¬ reachable m start_id end_id →
  ssmap_path_create L m start_id end_id = Some ""
  ∧ ∃ st, dijkstra L m start_id end_id = Some st
          ∧ d_parent st !!! Z.to_nat end_id = -1.
Proof.
  intros Hwf [Hs _] [He _] Hne Hunreach. unfold ssmap_path_create.
  destruct (path_create_result_spec L m Hwf start_id end_id Hs He Hne)
    as (st & Hst & [[Hp Hres]|(l & Hres & Hh & Hl & _ & Hall & Hedge)]).
  - rewrite Hres. split; [done|]. by exists st.
  - destruct Hunreach. apply (chain_reachable _ l); [done..|].
    intros a b Hab. apply (redge_connected m Hwf); [|by apply Hedge].
    destruct Hab as (i & Hi & _). apply Hall. by eapply list_elem_of_lookup_2.
Qed.

Lemma scenario_no_step_from_3 v : ¬ connected scenario 3 v.
Proof.
  intros (w & [j Hj] & i & Hl & Hd).
  destruct j as [|[|[|j]]]; simplify_eq/=.
  - destruct Hl as [[H1 H2]|[H1 H2]]; destruct i as [|[|[|i]]]; simplify_eq/=.
  - destruct Hd as [?|[_ [H1 H2]]]; [done|].
    destruct i as [|[|i]]; simplify_eq/=.
  - destruct Hl as [[H1 H2]|[H1 H2]]; destruct i as [|[|i]]; simplify_eq/=.
Qed.

Lemma scenario_unreachable : ¬ reachable scenario 3 0.
Proof.
  intros Hr. apply rtc_inv in Hr as [?|(y & Hy & _)]; [done|].
  by apply scenario_no_step_from_3 in Hy.
Qed.

Lemma disconnected_prints_nothing_witness :
  wf_map scenario = true
  ∧ ssmap_path_create RefLibm.ref scenario 3 0 = Some ""
  ∧ ∃ st, dijkstra RefLibm.ref scenario 3 0 = Some st
          ∧ d_parent st !!! Z.to_nat 0 = -1.
Proof.
  split; [by vm_compute|].
  apply (disconnected_prints_nothing RefLibm.ref scenario 3 0).
  - by vm_compute.
  - split; [done|by eexists].
  - split; [done|by eexists].
  - done.
  - apply scenario_unreachable.
Defined.

(** C7.  Two-name search: on a well-formed map the search with two names
    prints, each once and followed by a space, exactly the identifiers of
    the points that touch a segment whose name contains the first name
    and a different segment whose name contains the second, then a
    newline; a point whose segments are all one segment is not printed,
    whatever the name of that segment contains. *)
Theorem two_name_search_distinct (m : ssmap) (name1 name2 : string) :
  wf_map m = true →
  ∃ ids, ssmap_find_node_by_names m name1 (Some name2) = print_ids ids +:+ nl
         ∧ NoDup ids
         ∧ (∀ i, i ∈ ids ↔ 0 ≤ i < num_nodes m ∧ touches_two m name1 name2 i)
         ∧ (∀ i p, (∀ q, q ∈ n_ways (node_at m i) → q = p) → i ∉ ids).
Proof.
  intros Hwf. exists (find_node_by_names_ids m name1 (Some name2)).
  split; [done|]. split; [apply find_node_by_names_ids_NoDup|].
  split; [intros i; by apply find_node_by_names_ids_spec|].
  intros i p Hone [_ (p1 & p2 & H1 & H2 & Hne & _)]%find_node_by_names_ids_spec; [|done].
  apply Hne. by rewrite (Hone p1 H1), (Hone p2 H2).
Qed.

Lemma two_name_search_distinct_witness :
  wf_map scenario = true
  ∧ ssmap_find_node_by_names scenario "Main" (Some "St") = "2 " +:+ nl
  ∧ ∃ ids, ssmap_find_node_by_names scenario "Main" (Some "St") = print_ids ids +:+ nl
           ∧ NoDup ids
           ∧ (∀ i, i ∈ ids ↔ 0 ≤ i < num_nodes scenario ∧ touches_two scenario "Main" "St" i)
           ∧ (∀ i p, (∀ q, q ∈ n_ways (node_at scenario i) → q = p) → i ∉ ids).
Proof.
  split; [by vm_compute|]. split; [by vm_compute|].
  apply (two_name_search_distinct scenario "Main" "St"). by vm_compute.
Defined.

(** C8, as amended.  A push onto a queue whose size equals its capacity
    returns and leaves the queue as it was: the entry is dropped. *)
Theorem insert_full_is_dropped (h : min_heap) (node_id : Z) (distance : float) :
  size h = capacity h → insert_min_heap h node_id distance = h.
Proof. apply insert_min_heap_full. Qed.

Lemma insert_full_is_dropped_witness :
  size full_heap = capacity full_heap
  ∧ insert_min_heap full_heap 5 0.5%float = full_heap.
Proof.
  split; [by vm_compute|].
  apply (insert_full_is_dropped full_heap 5 0.5%float). by vm_compute.
Defined.

(** C8, as stated, fails: a push onto the full queue of two entries
    aborts nothing; it returns the queue unchanged, the pushed point is
    not in it, and the next [extract_min] hands out the old minimum. *)
Lemma full_push_returns_unchanged :
  size full_heap = capacity full_heap
  ∧ insert_min_heap full_heap 5 0.5%float = full_heap
  ∧ is_in_min_heap (insert_min_heap full_heap 5 0.5%float) 5 = false
  ∧ (extract_min (insert_min_heap full_heap 5 0.5%float)).1 = mk_heap_node 0 1%float.
Proof. by vm_compute. Qed.

Section reads.
Implicit Types (els : list heap_node) (h : min_heap).

Lemma smaller_reads_spec els sz c smallest :
  (smaller_reads els sz c smallest).1
  = (if (c <? sz)%nat && (dist_at els c <? dist_at els smallest)%float
     then c else smallest)
  ∧ ((smaller_reads els sz c smallest).1 = smallest
     ∨ ((smaller_reads els sz c smallest).1 = c ∧ (c < sz)%nat))
  ∧ ∀ i, i ∈ (smaller_reads els sz c smallest).2 →
         (c < sz)%nat ∧ (i = c ∨ i = smallest).
Proof.
  unfold smaller_reads, dist_at. destruct (c <? sz)%nat eqn:E; simpl.
  - apply Nat.ltb_lt in E. split; [done|]. split.
    + destruct (_ <? _)%float; [by right|by left].
    + intros i Hi. split; [done|].
      apply elem_of_cons in Hi as [->|Hi]; [by left|].
      apply elem_of_cons in Hi as [->|Hi]; [by right|]. by apply elem_of_nil in Hi.
  - split; [done|]. split; [by left|]. by intros i ?%elem_of_nil.
Qed.

Lemma min_heapify_reads_S fuel els sz idx :
  min_heapify_reads (S fuel) els sz idx
  = (smallest ← smaller_reads els sz (2 * idx + 1) idx;
     smallest ← smaller_reads els sz (2 * idx + 2) smallest;
     if negb (smallest =? idx)%nat
     then els' ← swap_reads els idx smallest;
          min_heapify_reads fuel els' sz smallest
     else mret els).
Proof. done. Qed.

Lemma min_heapify_reads_result fuel els sz idx :
  (min_heapify_reads fuel els sz idx).1 = min_heapify_go fuel els sz idx.
Proof.
  revert els idx. induction fuel as [|fuel IH]; intros els idx; [done|].
  rewrite min_heapify_reads_S. cbn [min_heapify_go]. cbv zeta.
  unfold mbind, reads_bind. cbn [fst snd].
  destruct (smaller_reads_spec els sz (2 * idx + 1) idx) as (E1 & _ & _).
  remember (smaller_reads els sz (2 * idx + 1) idx) as c1 eqn:Ec1.
  destruct (smaller_reads_spec els sz (2 * idx + 2) c1.1) as (E2 & _ & _).
  remember (smaller_reads els sz (2 * idx + 2) c1.1) as c2 eqn:Ec2.
  rewrite <- E1, <- E2.
  destruct (negb (c2.1 =? idx)%nat); [|done].
  cbn [fst snd]. change (swap_reads els idx c2.1).1 with (swap_heap_node els idx c2.1).
  apply IH.
Qed.

Lemma min_heapify_reads_bound fuel els sz idx i :
  i ∈ (min_heapify_reads fuel els sz idx).2 → (i < sz)%nat.
Proof.
  revert els idx. induction fuel as [|fuel IH]; intros els idx.
  { by intros ?%elem_of_nil. }
  rewrite min_heapify_reads_S.
  unfold mbind, reads_bind. cbn [fst snd].
  destruct (smaller_reads_spec els sz (2 * idx + 1) idx) as (_ & C1 & R1).
  remember (smaller_reads els sz (2 * idx + 1) idx) as c1 eqn:Ec1.
  destruct (smaller_reads_spec els sz (2 * idx + 2) c1.1) as (_ & C2 & R2).
  remember (smaller_reads els sz (2 * idx + 2) c1.1) as c2 eqn:Ec2.
  rewrite !elem_of_app. intros [H1|[H2|H3]].
  - destruct (R1 i H1) as [Hl [->| ->]]; lia.
  - destruct (R2 i H2) as [Hr [->| ->]]; [lia|].
    destruct C1 as [E|[E ?]]; rewrite E; lia.
  - destruct (negb (c2.1 =? idx)%nat) eqn:Hne; [|by apply elem_of_nil in H3].
    apply negb_true_iff, Nat.eqb_neq in Hne.
    cbn [fst snd] in H3.
    change (swap_reads els idx c2.1).2 with ([idx; c2.1] ++ []) in H3.
    change (swap_reads els idx c2.1).1 with (swap_heap_node els idx c2.1) in H3.
    rewrite app_nil_r in H3.
    rewrite elem_of_app in H3. destruct H3 as [H3|H3]; [|by eapply IH].
    assert ((c2.1 < sz)%nat ∧ (idx < sz)%nat) as [? ?].
    { destruct C2 as [E|[E ?]]; [|lia].
      destruct C1 as [E'|[E' ?]]; [congruence|]. lia. }
    apply elem_of_cons in H3 as [->|H3]; [done|].
    by apply list_elem_of_singleton in H3 as ->.
Qed.

Lemma extract_min_reads_result h : (extract_min_reads h).1 = extract_min h.
Proof.
  unfold extract_min_reads, extract_min. destruct (size h =? 0)%nat; [done|].
  unfold mbind, reads_bind. cbn [fst snd]. unfold min_heapify. cbn [elements size capacity].
  by rewrite min_heapify_reads_result.
Qed.

Lemma extract_min_reads_bound h i :
  i ∈ (extract_min_reads h).2 → (i < size h)%nat.
Proof.
  unfold extract_min_reads. destruct (size h =? 0)%nat eqn:E.
  { by intros ?%elem_of_nil. }
  apply Nat.eqb_neq in E.
  unfold mbind, reads_bind. cbn [fst snd read_at].
  rewrite app_nil_r, !elem_of_app, !list_elem_of_singleton.
  intros [->|[->|Hi%min_heapify_reads_bound]]; lia.
Qed.

Lemma extract_min_reads_first h :
  (0 < size h)%nat →
  ∃ l, (extract_min_reads h).2 = 0%nat :: (size h - 1)%nat :: l.
Proof.
  intros Hpos. unfold extract_min_reads.
  destruct (size h =? 0)%nat eqn:E; [apply Nat.eqb_eq in E; lia|].
  unfold mbind, reads_bind. cbn [fst snd read_at]. by eexists.
Qed.
End reads.

(** C9.  On an empty queue [extract_min] returns the entry with
    identifier -1 and distance 0 and leaves the queue, of size 0, as it
    is, and reads no element.  On every queue it reads elements below
    [size] only, beginning, when the queue is not empty, with the root
    and the last element. *)
Theorem extract_min_empty (els : list heap_node) (cap : nat) :
  extract_min (mk_min_heap els 0 cap)
  = (mk_heap_node (-1) 0%float, mk_min_heap els 0 cap)
  ∧ extract_min_reads (mk_min_heap els 0 cap)
    = (extract_min (mk_min_heap els 0 cap), [])
  ∧ ∀ h, (extract_min_reads h).1 = extract_min h
         ∧ (∀ i, i ∈ (extract_min_reads h).2 → (i < size h)%nat)
         ∧ ((0 < size h)%nat →
            ∃ l, (extract_min_reads h).2 = 0%nat :: (size h - 1)%nat :: l).
Proof.
  split; [done|]. split; [done|]. intros h.
  split; [apply extract_min_reads_result|].
  split; [apply extract_min_reads_bound|apply extract_min_reads_first].
Qed.

(** C10.  Along a segment that lists [u], the index the router uses is
    that of the first occurrence of [u], and exploring the segment from
    [u] leaves the distance, the predecessor and the queue membership of
    every point other than the two neighbours of that first occurrence
    as they were; the neighbours of later occurrences get no edge. *)
Theorem router_first_occurrence_only (L : libm) (m : ssmap) (u : Z) (w : way)
    (st : dstate) (i0 : nat) (x : Z) :
  heap_ok (d_heap st) → 0 ≤ x → (∀ y, y ∈ w_node_ids w → 0 ≤ y) →
  first_occurrence (w_node_ids w) u i0 →
  w_node_ids w !! S i0 ≠ Some x →
  (w_one_way w = true ∨ i0 = 0%nat ∨ w_node_ids w !! (i0 - 1)%nat ≠ Some x) →
  find_node_index_in_way w u = Z.of_nat i0
  ∧ same_at x st (explore_way L m u w st).
Proof.
  intros Hok Hx Hpos Hfirst Hnext Hprev.
  split; [by apply first_occurrence_index|by eapply explore_way_frame].
Qed.

Lemma router_first_occurrence_only_witness :
  step revisit 1 2
  ∧ find_node_index_in_way revisit 1 = 0
  ∧ same_at 2 (dijkstra_init revisit_map 1)
      (explore_way RefLibm.ref revisit_map 1 revisit (dijkstra_init revisit_map 1)).
Proof.
  split; [exists 2%nat; split; [left; split; reflexivity|left; reflexivity]|].
  apply (router_first_occurrence_only RefLibm.ref revisit_map 1 revisit
           (dijkstra_init revisit_map 1) 0 2).
  - split; [done|]. simpl. lia.
  - lia.
  - intros y Hy. simpl in Hy. set_solver by lia.
  - split; [done|]. intros j Hj. lia.
  - done.
  - right. by left.
Defined.

(** * Further properties of the code *)

(** ** The order of binary64 numbers *)

Lemma SFltb_rank a b :
  SFltb a b = true ↔ a ≠ S754_nan ∧ b ≠ S754_nan ∧ lt3 (sf_rank a) (sf_rank b).
Proof.
  unfold SFltb, lt3.
  destruct a as [sa|sa| |sa ma ea], b as [sb|sb| |sb mb eb]; simpl;
    try (split; [done|]; intros (? & ? & ?); try done; lia);
    try destruct sa; try destruct sb; simpl;
    try (split; [intros _; repeat split; try done; lia|done]);
    try (split; [done|]; intros (? & ? & ?); try done; lia).
  - change (PosDef.Pos.compare_cont Eq ma mb) with (Pos.compare ma mb).
    destruct (Z.compare_spec ea eb); destruct (Pos.compare_spec ma mb); simpl;
      (split; [intros ?; try done; repeat split; try done; lia|intros (? & ? & ?); try done; lia]).
  - change (PosDef.Pos.compare_cont Eq ma mb) with (Pos.compare ma mb).
    destruct (Z.compare_spec ea eb); destruct (Pos.compare_spec ma mb); simpl;
      (split; [intros ?; try done; repeat split; try done; lia|intros (? & ? & ?); try done; lia]).
Qed.

Lemma SFcompare_refl f : f ≠ S754_nan → SFcompare f f = Some Eq.
Proof.
  destruct f as [s|s| |s m e]; simpl; try done; intros _.
  - by destruct s.
  - change (PosDef.Pos.compare_cont Eq m m) with (Pos.compare m m).
    rewrite Z.compare_refl, Pos.compare_refl. by destruct s.
Qed.

Lemma is_nan_spec x : is_nan x = true ↔ Prim2SF x = S754_nan.
Proof.
  unfold is_nan. rewrite FloatAxioms.eqb_spec. unfold SFeqb.
  destruct (Prim2SF x) as [s|s| |s m e] eqn:E; try done; rewrite SFcompare_refl by done; done.
Qed.

Lemma ltb_rank x y :
  (x <? y)%float = true
  ↔ is_nan x = false ∧ is_nan y = false ∧ lt3 (sf_rank (Prim2SF x)) (sf_rank (Prim2SF y)).
Proof.
  rewrite FloatAxioms.ltb_spec, SFltb_rank.
  rewrite <- !not_true_iff_false, !is_nan_spec. done.
Qed.

Lemma ltb_trans x y z :
  (x <? y)%float = true → (y <? z)%float = true → (x <? z)%float = true.
Proof. rewrite !ltb_rank. unfold lt3. intros (? & ? & ?) (? & ? & ?). repeat split; try done. lia. Qed.

Lemma ltb_asym x y : (x <? y)%float = true → (y <? x)%float = false.
Proof.
  intros H. apply not_true_iff_false. revert H. rewrite !ltb_rank. unfold lt3.
  intros (? & ? & ?) (? & ? & ?). lia.
Qed.

Lemma ltb_irrefl x : (x <? x)%float = false.
Proof.
  apply not_true_iff_false. rewrite !ltb_rank. unfold lt3. intros (? & ? & ?). lia.
Qed.

Lemma ltb_not_nan x y : (x <? y)%float = true → is_nan x = false ∧ is_nan y = false.
Proof. rewrite ltb_rank. tauto. Qed.

(** [¬ x < y] is transitive through a middle term that is a number. *)
Lemma ltb_false_trans x y z :
  is_nan y = false →
  (y <? x)%float = false → (z <? y)%float = false → (z <? x)%float = false.
Proof.
  intros Hy Hxy Hyz. apply not_true_iff_false. intros Hzx.
  apply not_true_iff_false in Hxy, Hyz. revert Hxy Hyz Hzx.
  rewrite !ltb_rank. unfold lt3. intros Hxy Hyz (Hz & Hx & Hlt).
  assert (¬ lt3 (sf_rank (Prim2SF y)) (sf_rank (Prim2SF x))) as Ha by (unfold lt3; tauto).
  assert (¬ lt3 (sf_rank (Prim2SF z)) (sf_rank (Prim2SF y))) as Hb by (unfold lt3; tauto).
  unfold lt3 in Ha, Hb. lia.
Qed.

Lemma ltb_eqb_false x y : (x <? y)%float = true → (x =? y)%float = false.
Proof.
  rewrite FloatAxioms.ltb_spec, FloatAxioms.eqb_spec. unfold SFltb, SFeqb.
  by destruct (SFcompare _ _) as [[]|].
Qed.

(** A number below another is not [+∞]. *)
Lemma ltb_not_infinity x y : (x <? y)%float = true → (x =? infinity)%float = false.
Proof.
  intros Hlt. apply not_true_iff_false. intros Heq.
  apply ltb_rank in Hlt as (_ & Hy & Hlt).
  rewrite FloatAxioms.eqb_spec in Heq. unfold SFeqb in Heq.
  change (Prim2SF infinity) with (S754_infinity false) in Heq.
  apply not_true_iff_false in Hy. rewrite is_nan_spec in Hy.
  unfold lt3 in Hlt.
  destruct (Prim2SF x) as [s|s| |s m e]; simpl in Heq; try done;
    try (destruct s; done).
  destruct s; [done|]. simpl in Hlt.
  destruct (Prim2SF y) as [s'|s'| |s' m' e']; simpl in Hlt; try done;
    try destruct s'; simpl in Hlt; lia.
Qed.

(** ** The heap order *)

Section heap_order.
Implicit Types (els : list heap_node) (h : min_heap).

Lemma parent_child (k i : nat) :
  (0 < k)%nat → ((k - 1) / 2)%nat = i ↔ k = (2 * i + 1)%nat ∨ k = (2 * i + 2)%nat.
Proof.
  intros Hk. pose proof (Nat.div_mod_eq (k - 1) 2) as H.
  pose proof (Nat.mod_upper_bound (k - 1) 2 ltac:(lia)) as H2.
  split.
  - intros <-. lia.
  - intros [->| ->].
    + replace (2 * i + 1 - 1)%nat with (i * 2)%nat by lia. by rewrite Nat.div_mul.
    + replace (2 * i + 2 - 1)%nat with (1 + i * 2)%nat by lia.
      rewrite Nat.div_add by lia. done.
Qed.

Lemma dist_at_swap els (i j k : nat) :
  (i < length els)%nat → (j < length els)%nat →
  dist_at (swap_heap_node els i j) k
  = if decide (k = j) then dist_at els i
    else if decide (k = i) then dist_at els j else dist_at els k.
Proof.
  intros Hi Hj. unfold dist_at, swap_heap_node.
  rewrite (list_lookup_lookup_total_lt els i), (list_lookup_lookup_total_lt els j) by done.
  rewrite !list_lookup_total_insert, !length_insert.
  repeat case_decide; try done; try lia; naive_solver.
Qed.

Lemma sift_up_S fuel els (i : nat) :
  sift_up (S fuel) els i
  = if negb (i =? 0)%nat && (dist_at els i <? dist_at els ((i - 1) / 2))%float
    then sift_up fuel (swap_heap_node els i ((i - 1) / 2)) ((i - 1) / 2)
    else els.
Proof. done. Qed.

Lemma sift_up_ordered fuel els (n i : nat) :
  (i < n ≤ length els)%nat → (i ≤ fuel)%nat → up_inv els n i →
  ∀ j : nat, (0 < j < n)%nat → le_at (sift_up fuel els i) ((j - 1) / 2) j.
Proof.
  revert els i. induction fuel as [|fuel IH]; intros els i Hi Hf [Ha Hb] j Hj.
  { simpl. apply Ha; [done|lia]. }
  rewrite sift_up_S.
  remember ((i - 1) / 2)%nat as p eqn:Ep. symmetry in Ep.
  destruct (negb (i =? 0)%nat && _) eqn:Hc.
  - apply andb_true_iff in Hc as [Hi0 Hlt].
    apply negb_true_iff, Nat.eqb_neq in Hi0.
    pose proof Ep as Ep'. apply parent_child in Ep'; [|lia].
    apply IH; [rewrite swap_heap_node_length; lia|lia| |done].
    split.
    + intros k Hk Hkp.
      remember ((k - 1) / 2)%nat as q eqn:Eq. symmetry in Eq.
      pose proof Eq as Eq'. apply parent_child in Eq'; [|lia].
      destruct (decide (k = i)) as [->|Hki].
      * assert (q = p) as -> by lia.
        unfold le_at. rewrite !dist_at_swap by lia.
        rewrite (decide_False (P := i = p)) by lia.
        rewrite !decide_True by done. by apply ltb_asym.
      * pose proof (Ha k Hk Hki) as Hle. unfold le_at in Hle. rewrite Eq in Hle.
        unfold le_at. rewrite !dist_at_swap by lia.
        rewrite (decide_False (P := k = p)) by done.
        rewrite (decide_False (P := k = i)) by done.
        destruct (decide (q = p)) as [->|Hqp].
        { apply not_true_iff_false. intros Hlt'.
          rewrite (ltb_trans _ _ _ Hlt' Hlt) in Hle. done. }
        destruct (decide (q = i)) as [->|Hqi]; [|done].
        pose proof (Hb k Hk Eq ltac:(lia)) as Hb'. unfold le_at in Hb'.
        done.
    + intros k Hk Hkp Hp0.
      remember ((p - 1) / 2)%nat as pp eqn:Epp. symmetry in Epp.
      pose proof Epp as Epp'. apply parent_child in Epp'; [|lia].
      pose proof Hkp as Hkp'. apply parent_child in Hkp'; [|lia].
      pose proof (Ha p ltac:(lia) ltac:(lia)) as Hpp. unfold le_at in Hpp.
      rewrite Epp in Hpp.
      unfold le_at. rewrite !dist_at_swap by lia.
      rewrite (decide_False (P := k = p)) by lia.
      rewrite (decide_False (P := pp = p)) by lia.
      rewrite (decide_False (P := pp = i)) by lia.
      destruct (decide (k = i)) as [->|Hki]; [done|].
      pose proof (Ha k ltac:(lia) Hki) as Hle. unfold le_at in Hle. rewrite Hkp in Hle.
      apply (ltb_false_trans _ (dist_at els p)); [|done|done].
      by apply ltb_not_nan in Hlt as [_ ?].
  - apply andb_false_iff in Hc.
    destruct (decide (j = i)) as [->|Hji]; [|by apply Ha].
    destruct Hc as [Hc|Hc]; [|by rewrite Ep].
    apply negb_false_iff, Nat.eqb_eq in Hc. lia.
Qed.
Lemma min_heapify_go_S fuel els (sz idx : nat) :
  min_heapify_go (S fuel) els sz idx
  = let s1 := if (2 * idx + 1 <? sz)%nat
                 && (dist_at els (2 * idx + 1) <? dist_at els idx)%float
              then (2 * idx + 1)%nat else idx in
    let s2 := if (2 * idx + 2 <? sz)%nat
                 && (dist_at els (2 * idx + 2) <? dist_at els s1)%float
              then (2 * idx + 2)%nat else s1 in
    if negb (s2 =? idx)%nat
    then min_heapify_go fuel (swap_heap_node els idx s2) sz s2
    else els.
Proof. done. Qed.

(** The index [min_heapify] picks: [idx] itself when no child is below
    it, else a child that is below [idx] and not above the other child. *)
Lemma smallest_spec els (sz idx : nat) :
  let s1 := if (2 * idx + 1 <? sz)%nat
               && (dist_at els (2 * idx + 1) <? dist_at els idx)%float
            then (2 * idx + 1)%nat else idx in
  let s2 := if (2 * idx + 2 <? sz)%nat
               && (dist_at els (2 * idx + 2) <? dist_at els s1)%float
            then (2 * idx + 2)%nat else s1 in
  (s2 = idx ∧ ∀ c : nat, c = (2 * idx + 1)%nat ∨ c = (2 * idx + 2)%nat →
                 (c < sz)%nat → le_at els idx c)
  ∨ ((s2 = (2 * idx + 1)%nat ∨ s2 = (2 * idx + 2)%nat) ∧ (s2 < sz)%nat
     ∧ (dist_at els s2 <? dist_at els idx)%float = true
     ∧ ∀ c : nat, c = (2 * idx + 1)%nat ∨ c = (2 * idx + 2)%nat →
         (c < sz)%nat → c ≠ s2 → le_at els s2 c).
Proof.
  intros s1 s2. subst s1 s2. unfold le_at.
  destruct ((2 * idx + 1 <? sz)%nat && _) eqn:C1;
    destruct ((2 * idx + 2 <? sz)%nat && _) eqn:C2.
  - apply andb_true_iff in C1 as [?%Nat.ltb_lt H1], C2 as [?%Nat.ltb_lt H2].
    right. split; [by right|]. split; [done|]. split; [by eapply ltb_trans|].
    intros c [-> | ->] _ ?; [by apply ltb_asym|done].
  - apply andb_true_iff in C1 as [?%Nat.ltb_lt H1].
    right. split; [by left|]. split; [done|]. split; [done|].
    intros c [-> | ->] Hc ?; [done|].
    apply andb_false_iff in C2 as [?%Nat.ltb_ge|?]; [lia|done].
  - apply andb_true_iff in C2 as [?%Nat.ltb_lt H2].
    right. split; [by right|]. split; [done|]. split; [done|].
    intros c [-> | ->] Hc ?; [|done].
    apply andb_false_iff in C1 as [?%Nat.ltb_ge|H1]; [lia|].
    apply not_true_iff_false. intros H3.
    by rewrite (ltb_trans _ _ _ H3 H2) in H1.
  - left. split; [done|]. intros c [-> | ->] Hc.
    + apply andb_false_iff in C1 as [?%Nat.ltb_ge|H1]; [lia|done].
    + apply andb_false_iff in C2 as [?%Nat.ltb_ge|H1]; [lia|done].
Qed.

Lemma min_heapify_go_ordered fuel els (n idx : nat) :
  (n ≤ length els)%nat → (n - idx ≤ fuel)%nat → down_inv els n idx →
  ∀ j : nat, (0 < j < n)%nat → le_at (min_heapify_go fuel els n idx) ((j - 1) / 2) j.
Proof.
  revert els idx. induction fuel as [|fuel IH]; intros els idx Hn Hf [Ha Hb] j Hj.
  { simpl. apply Ha; [done|].
    intros Hp. apply parent_child in Hp; lia. }
  rewrite min_heapify_go_S. cbv zeta.
  destruct (smallest_spec els n idx) as [[-> Hs]|(Hs & Hsn & Hlt & Ho)].
  - rewrite Nat.eqb_refl. cbn [negb].
    destruct (decide (((j - 1) / 2)%nat = idx)) as [Hp|Hp]; [|by apply Ha].
    rewrite Hp. apply Hs; [|lia]. apply parent_child in Hp; lia.
  - match goal with |- context [negb (?t =? idx)%nat] => set (s := t) in * end.
    assert (idx < s)%nat as His by lia.
    rewrite (proj2 (Nat.eqb_neq s idx)) by lia. cbn [negb].
    assert (((s - 1) / 2)%nat = idx) as Hps by (apply parent_child; lia).
    apply IH; [rewrite swap_heap_node_length; lia|lia| |done].
    split.
    + intros k Hk Hkq.
      remember ((k - 1) / 2)%nat as q eqn:Eq. symmetry in Eq.
      pose proof Eq as Eq'. apply parent_child in Eq'; [|lia].
      destruct (decide (q = idx)) as [->|Hqi].
      * destruct (decide (k = s)) as [->|Hks].
        { unfold le_at. rewrite !dist_at_swap by lia.
          rewrite (decide_False (P := idx = s)) by lia. rewrite !decide_True by done.
          by apply ltb_asym. }
        unfold le_at. rewrite !dist_at_swap by lia.
        rewrite (decide_False (P := idx = s)) by lia.
        rewrite (decide_True (P := idx = idx)) by done.
        rewrite (decide_False (P := k = s)) by lia.
        rewrite (decide_False (P := k = idx)) by lia.
        apply Ho; [lia|lia|done].
      * assert (k ≠ s) by lia.
        destruct (decide (k = idx)) as [->|Hki].
        { pose proof (Hb s ltac:(lia) Hps ltac:(lia)) as Hb'. rewrite ?Eq in Hb'.
          unfold le_at. rewrite !dist_at_swap by lia.
          rewrite (decide_False (P := q = s)) by done.
          rewrite (decide_False (P := q = idx)) by done.
          rewrite (decide_False (P := idx = s)) by done.
          by rewrite (decide_True (P := idx = idx)) by done. }
        pose proof (Ha k Hk ltac:(lia)) as Ha'. rewrite ?Eq in Ha'.
        unfold le_at. rewrite !dist_at_swap by lia.
        rewrite (decide_False (P := q = s)) by done.
        rewrite (decide_False (P := q = idx)) by done.
        rewrite (decide_False (P := k = s)) by done.
        by rewrite (decide_False (P := k = idx)) by done.
    + intros k Hk Hkq Hs0.
      pose proof Hkq as Hkq'. apply parent_child in Hkq'; [|lia].
      rewrite Hps. unfold le_at. rewrite !dist_at_swap by lia.
      rewrite (decide_False (P := k = s)) by lia.
      rewrite (decide_False (P := k = idx)) by lia.
      rewrite (decide_False (P := idx = s)) by lia.
      rewrite (decide_True (P := idx = idx)) by done.
      pose proof (Ha k Hk ltac:(lia)) as Ha'. by rewrite Hkq in Ha'.
Qed.

End heap_order.

Section heap_order2.
Implicit Types (els : list heap_node) (h : min_heap).

Lemma dist_at_insert els (i k : nat) e :
  (i < length els)%nat →
  dist_at (<[i:=e]> els) k = if decide (k = i) then hn_distance e else dist_at els k.
Proof.
  intros Hi. unfold dist_at. rewrite list_lookup_total_insert.
  repeat case_decide; try done; try lia; naive_solver.
Qed.

Lemma insert_min_heap_entries h id d :
  heap_ok h → (size h < capacity h)%nat →
  heap_entries (insert_min_heap h id d) ≡ₚ mk_heap_node id d :: heap_entries h
  ∧ size (insert_min_heap h id d) = S (size h).
Proof.
  intros [Hlen Hsz] Hlt. unfold insert_min_heap.
  destruct (size h =? capacity h)%nat eqn:H0; [apply Nat.eqb_eq in H0; lia|].
  unfold heap_entries. simpl. split; [|done].
  rewrite sift_up_take_perm by lia.
  assert (is_Some (elements h !! size h)) as [x Hx]
    by (apply lookup_lt_is_Some; lia).
  erewrite take_S_r; last by (rewrite list_lookup_insert_eq by lia).
  rewrite take_insert_ge by lia.
  by rewrite <- Permutation_cons_append.
Qed.

Lemma insert_min_heap_ordered h id d :
  heap_ok h → (size h < capacity h)%nat → heap_ordered h →
  heap_ordered (insert_min_heap h id d).
Proof.
  intros [Hlen Hsz] Hlt Hord. unfold insert_min_heap.
  destruct (size h =? capacity h)%nat eqn:H0; [apply Nat.eqb_eq in H0; lia|].
  intros j Hj. simpl in Hj. cbn [elements].
  apply (sift_up_ordered _ _ (S (size h))); [rewrite length_insert; lia|lia| |done].
  split.
  - intros k Hk Hki. unfold le_at. rewrite !dist_at_insert by lia.
    assert (((k - 1) / 2)%nat < k)%nat
      by (apply Nat.Div0.div_lt_upper_bound; lia).
    rewrite !decide_False by lia. apply Hord. lia.
  - intros k Hk Hkp. apply parent_child in Hkp; lia.
Qed.

Lemma extract_min_entries h :
  heap_ok h → (0 < size h)%nat →
  heap_entries h ≡ₚ (extract_min h).1 :: heap_entries (extract_min h).2
  ∧ (extract_min h).1 = elements h !!! 0%nat.
Proof.
  intros [Hlen Hsz] Hpos. unfold extract_min.
  destruct (size h =? 0)%nat eqn:H0; [apply Nat.eqb_eq in H0; lia|].
  unfold heap_entries. cbn. split; [|done].
  rewrite min_heapify_go_take_perm.
  by rewrite (take_move_last (elements h) (size h)) by lia.
Qed.

Lemma extract_min_ordered h :
  heap_ok h → (0 < size h)%nat → heap_ordered h →
  heap_ordered (extract_min h).2.
Proof.
  intros [Hlen Hsz] Hpos Hord. unfold extract_min.
  destruct (size h =? 0)%nat eqn:H0; [apply Nat.eqb_eq in H0; lia|].
  intros j Hj. cbn in Hj. cbn [snd min_heapify elements size].
  apply min_heapify_go_ordered; [rewrite length_insert; lia|lia| |done].
  split.
  - intros k Hk Hkp.
    remember ((k - 1) / 2)%nat as q eqn:Eq. symmetry in Eq.
    pose proof Eq as Eq'. apply parent_child in Eq'; [|lia].
    unfold le_at. rewrite !dist_at_insert by lia.
    rewrite !decide_False by lia.
    pose proof (Hord k ltac:(lia)) as Hk'. by rewrite Eq in Hk'.
  - lia.
Qed.

(** In an ordered heap of numbers no entry is below the root. *)
Lemma root_is_least h (i : nat) :
  heap_ordered h → keys_are_numbers h → (i < size h ≤ length (elements h))%nat →
  (dist_at (elements h) i <? dist_at (elements h) 0)%float = false.
Proof.
  intros Hord Hnum. induction (lt_wf i) as [i _ IH]. intros Hi.
  destruct (decide (i = 0%nat)) as [->|Hi0]; [apply ltb_irrefl|].
  assert (((i - 1) / 2)%nat < i)%nat as Hp
    by (apply Nat.Div0.div_lt_upper_bound; lia).
  apply (ltb_false_trans _ (dist_at (elements h) ((i - 1) / 2))).
  - unfold keys_are_numbers, heap_entries in Hnum.
    rewrite Forall_lookup in Hnum. unfold dist_at.
    apply (Hnum ((i - 1) / 2)%nat).
    rewrite lookup_take_lt by lia. apply list_lookup_lookup_total_lt. lia.
  - apply IH; [done|lia].
  - apply Hord. lia.
Qed.

Lemma heap_entries_dist h e :
  (size h ≤ length (elements h))%nat →
  e ∈ heap_entries h ↔ ∃ i : nat, (i < size h)%nat ∧ elements h !!! i = e.
Proof.
  intros Hsz. unfold heap_entries. rewrite list_elem_of_lookup. split.
  - intros [i Hi]. exists i.
    assert (i < size h)%nat.
    { apply lookup_lt_Some in Hi. rewrite length_take in Hi. lia. }
    split; [done|]. rewrite lookup_take_lt in Hi by done.
    by apply list_lookup_total_correct.
  - intros (i & Hi & <-). exists i. rewrite lookup_take_lt by done.
    apply list_lookup_lookup_total_lt. lia.
Qed.
End heap_order2.

Section heap_order3.
Implicit Types (els : list heap_node) (h : min_heap).

Lemma delete_insert_same {A} (l : list A) (i : nat) x :
  delete i (<[i:=x]> l) = delete i l.
Proof. revert i. induction l as [|y l IH]; intros [|i]; simpl; f_equal; auto. Qed.

Lemma heap_index_Some h id (i : nat) :
  heap_index h id = Some i →
  (i < size h)%nat ∧ hn_node_id <$> elements h !! i = Some id
  ∧ ∀ k : nat, (k < i)%nat → hn_node_id <$> elements h !! k ≠ Some id.
Proof.
  unfold heap_index. intros Hi.
  pose proof (heap_index_from_spec (elements h) (size h) id 0) as Hs.
  rewrite Hi in Hs. destruct Hs as (k & -> & ? & ? & ?). done.
Qed.

Lemma heap_index_None h id : heap_index h id = None → id ∉ heap_ids h.
Proof.
  unfold heap_index. intros Hi.
  pose proof (heap_index_from_spec (elements h) (size h) id 0) as Hs.
  by rewrite Hi in Hs.
Qed.

Lemma decrease_key_entries h id d (i : nat) :
  heap_ok h → heap_index h id = Some i →
  heap_entries (decrease_key h id d)
  ≡ₚ mk_heap_node id d :: delete i (heap_entries h).
Proof.
  intros [Hlen Hsz] Hi. unfold decrease_key. rewrite Hi.
  apply heap_index_Some in Hi as (Hlt & Hid & _).
  unfold heap_entries. cbn [elements size].
  rewrite sift_up_take_perm by done. rewrite take_insert_lt by done.
  destruct (elements h !! i) as [e|] eqn:He; [|done].
  rewrite (list_lookup_total_correct _ _ _ He). simpl in Hid. simplify_eq.
  rewrite (delete_Permutation (<[i:=_]> _) i (mk_heap_node (hn_node_id e) d)).
  - by rewrite delete_insert_same.
  - apply list_lookup_insert_eq. rewrite length_take. lia.
Qed.

Lemma decrease_key_ordered h id d (i : nat) :
  heap_ok h → heap_ordered h → heap_index h id = Some i →
  (d <? dist_at (elements h) i)%float = true →
  heap_ordered (decrease_key h id d).
Proof.
  intros [Hlen Hsz] Hord Hi Hd. unfold decrease_key. rewrite Hi.
  apply heap_index_Some in Hi as (Hlt & Hid & _).
  intros j Hj. cbn in Hj. cbn [elements].
  apply (sift_up_ordered _ _ (size h)); [rewrite length_insert; lia|lia| |done].
  split.
  - intros k Hk Hki.
    remember ((k - 1) / 2)%nat as q eqn:Eq. symmetry in Eq.
    pose proof Eq as Eq'. apply parent_child in Eq'; [|lia].
    pose proof (Hord k Hk) as Hk'. rewrite Eq in Hk'.
    unfold le_at. rewrite !dist_at_insert by lia.
    rewrite (decide_False (P := k = i)) by done.
    destruct (decide (q = i)) as [->|Hqi]; [|done]. cbn.
    apply not_true_iff_false. intros Hlt'.
    by rewrite (ltb_trans _ _ _ Hlt' Hd) in Hk'.
  - intros k Hk Hkp Hi0.
    pose proof Hkp as Hkp'. apply parent_child in Hkp'; [|lia].
    remember ((i - 1) / 2)%nat as p eqn:Ep. symmetry in Ep.
    pose proof Ep as Ep'. apply parent_child in Ep'; [|lia].
    pose proof (Hord k Hk) as Hk'. rewrite Hkp in Hk'.
    pose proof (Hord i ltac:(lia)) as Hi'. rewrite Ep in Hi'.
    unfold le_at. rewrite !dist_at_insert by lia.
    rewrite !decide_False by lia.
    apply (ltb_false_trans _ (dist_at (elements h) i)); [|done|done].
    by apply ltb_not_nan in Hd as [_ ?].
Qed.

Lemma keys_are_numbers_perm h h' :
  heap_entries h' ≡ₚ heap_entries h → keys_are_numbers h → keys_are_numbers h'.
Proof. unfold keys_are_numbers. by intros ->. Qed.

End heap_order3.

(** ** The queue of the router *)

Section queue.
Implicit Types (els : list heap_node) (h : min_heap).

Lemma heap_ids_entries h : heap_ids h = hn_node_id <$> heap_entries h.
Proof. done. Qed.

Lemma heap_ids_length h : heap_ok h → length (heap_ids h) = size h.
Proof.
  intros [Hlen Hsz]. unfold heap_ids. rewrite length_fmap, length_take. lia.
Qed.

Lemma NoDup_delete_lookup {A} (l : list A) (i : nat) x :
  NoDup l → l !! i = Some x → x ∉ delete i l.
Proof.
  intros Hnd Hi Hin. apply list_elem_of_lookup in Hin as [j Hj].
  destruct (decide (j < i)%nat).
  - rewrite list_lookup_delete_lt in Hj by done.
    pose proof (NoDup_lookup _ _ _ _ Hnd Hi Hj). lia.
  - rewrite list_lookup_delete_ge in Hj by lia.
    pose proof (NoDup_lookup _ _ _ _ Hnd Hi Hj). lia.
Qed.

(** The update of the queue when the distance of [v] drops to [alt]. *)
Lemma heap_relax h v alt (D : list float) :
  heap_ok h → NoDup (heap_ids h) → heap_ordered h →
  (∀ e, e ∈ heap_entries h → hn_distance e = D !!! Z.to_nat (hn_node_id e)) →
  (alt <? D !!! Z.to_nat v)%float = true →
  (v ∉ heap_ids h → (size h < capacity h)%nat) →
  let h' := if negb (is_in_min_heap h v) then insert_min_heap h v alt
            else decrease_key h v alt in
  heap_ordered h'
  ∧ v ∈ heap_ids h'
  ∧ ∀ e, e ∈ heap_entries h' →
      e = mk_heap_node v alt ∨ (e ∈ heap_entries h ∧ hn_node_id e ≠ v).
Proof.
  intros Hok Hnd Hord Hd Halt Hroom h'. subst h'.
  destruct (is_in_min_heap h v) eqn:Hin; cbn [negb].
  - assert (is_Some (heap_index h v)) as [i Hi].
    { unfold is_in_min_heap in Hin. by apply bool_decide_eq_true in Hin. }
    pose proof (heap_index_Some _ _ _ Hi) as (Hlt & Hid & _).
    pose proof (decrease_key_entries h v alt i Hok Hi) as Hperm.
    assert (heap_entries h !! i = Some (elements h !!! i)) as Hei.
    { unfold heap_entries. rewrite lookup_take_lt by done.
      apply list_lookup_lookup_total_lt. destruct Hok. lia. }
    assert (hn_node_id (elements h !!! i) = v) as Hidv.
    { destruct (elements h !! i) as [e|] eqn:He; [|done].
      rewrite (list_lookup_total_correct _ _ _ He). by simplify_eq/=. }
    split; [|split].
    + apply (decrease_key_ordered h v alt i); [done..|].
      unfold dist_at. rewrite (Hd (elements h !!! i)).
      * by rewrite Hidv.
      * by eapply list_elem_of_lookup_2.
    + rewrite heap_ids_entries, Hperm. simpl. by left.
    + intros e. rewrite Hperm. intros [->|He]%elem_of_cons; [by left|].
      right. split; [by eapply list_elem_of_delete_inv|].
      intros Hev. apply (NoDup_delete_lookup (heap_ids h) i v Hnd).
      * rewrite heap_ids_entries, list_lookup_fmap, Hei. simpl. by rewrite Hidv.
      * rewrite heap_ids_entries, <- list_fmap_delete.
        apply list_elem_of_fmap. by exists e.
  - assert (v ∉ heap_ids h) as Hnin.
    { rewrite <- is_in_min_heap_spec. by rewrite Hin. }
    specialize (Hroom Hnin).
    destruct (insert_min_heap_entries h v alt Hok Hroom) as [Hperm _].
    split; [|split].
    + by apply insert_min_heap_ordered.
    + rewrite heap_ids_entries, Hperm. simpl. by left.
    + intros e. rewrite Hperm. intros [->|He]%elem_of_cons; [by left|].
      right. split; [done|]. intros Hev. apply Hnin.
      rewrite heap_ids_entries. apply list_elem_of_fmap. by exists e.
Qed.
End queue.

Section router_queue_steps.
Context (L : libm) (m : ssmap).
Implicit Types (st : dstate) (u v : Z) (h : min_heap).

Lemma heap_update_capacity h v alt :
  capacity (if negb (is_in_min_heap h v) then insert_min_heap h v alt
            else decrease_key h v alt) = capacity h.
Proof.
  destruct (is_in_min_heap h v); cbn [negb].
  - unfold decrease_key. by destruct (heap_index h v).
  - unfold insert_min_heap. by destruct (size h =? capacity h)%nat.
Qed.

Lemma extract_min_capacity h : capacity (extract_min h).2 = capacity h.
Proof. unfold extract_min. by destruct (size h =? 0)%nat. Qed.

(** Extracting the minimum and marking it visited keeps [qinv]. *)
Lemma extract_mark_qinv start st :
  heap_ok (d_heap st) → length (d_visited st) = length (m_nodes m) →
  (∀ x, x ∈ heap_ids (d_heap st) → in_range m x) →
  qinv L m start st → (0 < size (d_heap st))%nat →
  let u := hn_node_id (extract_min (d_heap st)).1 in
  qinv L m start
    (mk_dstate (d_dist st) (<[Z.to_nat u := true]> (d_visited st))
               (d_parent st) (extract_min (d_heap st)).2).
Proof.
  intros Hok Hlen Hrange [Hcap Hord Hd Hq Hs Hc] Hpos u.
  destruct (extract_min_entries (d_heap st) Hok Hpos) as [Hperm _].
  assert (heap_ids (d_heap st) ≡ₚ u :: heap_ids (extract_min (d_heap st)).2) as Hids.
  { rewrite !heap_ids_entries, Hperm. done. }
  assert (in_range m u) as Hu by (apply Hrange; rewrite Hids; by left).
  constructor; cbn [d_dist d_visited d_parent d_heap].
  - by rewrite extract_min_capacity.
  - by apply extract_min_ordered.
  - intros e He. apply Hd. rewrite Hperm. by right.
  - intros v Hv Hp. unfold vis. cbn [d_visited].
    destruct (decide (v = u)) as [->|Hne].
    + left. apply list_lookup_total_insert_eq. rewrite Hlen.
      unfold in_range, num_nodes in Hu. lia.
    + rewrite list_lookup_total_insert_ne
        by (apply to_nat_ne; [apply Hu|apply Hv|done]).
      destruct (Hq v Hv Hp) as [?|Hin]; [by left|right].
      rewrite Hids in Hin. by apply elem_of_cons in Hin as [?|?].
  - done.
  - done.
Qed.
End router_queue_steps.

Section router_queue.
Context (L : libm) (m : ssmap).
Hypothesis Hwf : wf_map m = true.
Implicit Types (st : dstate) (u v : Z).

Lemma explore_offset_qinv start st u p offset :
  dinv m start st → qinv L m start st →
  in_range m u → vis st u → p ∈ n_ways (node_at m u) →
  offset = -1 ∨ offset = 1 →
  qinv L m start
    (explore_offset L m u (deref_way m p)
       (find_node_index_in_way (deref_way m p) u) offset st).
Proof.
  intros Hinv Hqinv Hu Hvu Hp Hoff.
  destruct (in_range_exists m Hwf u Hu) as [n Hn].
  pose proof Hp as Hp0.
  rewrite (node_at_get _ _ _ Hn) in Hp.
  destruct (wf_map_node _ _ _ _ Hwf Hn Hp) as (w & Hw & Huw).
  pose proof (deref_way_lookup _ _ _ Hw) as Hd. rewrite Hd.
  unfold explore_offset.
  destruct (_ && (_ <? _)) eqn:Hrange; [|done].
  apply andb_true_iff in Hrange as [H0%Z.leb_le Hlt%Z.ltb_lt].
  destruct (w_one_way w && (offset <? 0)) eqn:Hdir; [done|].
  destruct (explore_offset_step w u offset Huw Hoff (conj H0 Hlt) Hdir)
    as [Hstep Hvin].
  set (v := w_node_ids w !!! Z.to_nat (find_node_index_in_way w u + offset)) in *.
  destruct (negb (d_visited st !!! Z.to_nat v) && _) eqn:Hcond; [|done].
  apply andb_true_iff in Hcond as [Hnv%negb_true_iff _].
  apply vis_exists_false in Hnv.
  set (alt := (_ + _)%float).
  destruct (alt <? _)%float eqn:Halt; [|done].
  destruct (wf_map_way _ _ _ _ Hwf Hw Hvin) as (_ & nv & Hnv' & Hpv).
  assert (in_range m v) as Hv by (by eapply get_node_range).
  destruct Hinv as [Hl1 Hl2 Hl3 Hok (Hs & Hsv & Hsp) Hnd Hheap Hpar Hchain].
  destruct Hqinv as [Hcap Hord Hqd Hq Hqs Hc].
  assert (v ≠ start) as Hvs by (intros ->; done).
  assert (v ≠ u) as Hvu' by (intros ->; done).
  destruct (heap_update_ids (d_heap st) v alt Hok Hnd) as (Hok' & Hnd' & Hsub & Hsup).
  destruct (heap_relax (d_heap st) v alt (d_dist st)) as (Hord' & Hvh & Hent);
    [done|done|done|by intros e [? _]%Hqd|done| |].
  { intros Hnin.
    assert (length (u :: v :: heap_ids (d_heap st)) ≤ length (m_nodes m))%nat as Hlen.
    { apply list_length_range.
      - apply NoDup_cons. split.
        + intros [?|Hin]%elem_of_cons; [done|]. by destruct (Hheap u Hin) as (_ & ? & _).
        + apply NoDup_cons. done.
      - intros x [->|[->|Hx]%elem_of_cons]%elem_of_cons; [done|done|].
        by destruct (Hheap x Hx). }
    cbn [length] in Hlen. rewrite heap_ids_length in Hlen by done. lia. }
  assert (∀ x, in_range m x → x ≠ v →
            <[Z.to_nat v:=u]> (d_parent st) !!! Z.to_nat x = d_parent st !!! Z.to_nat x)
    as Hother.
  { intros x Hx Hne. apply list_lookup_total_insert_ne.
    apply to_nat_ne; [apply Hv|apply Hx|done]. }
  assert (<[Z.to_nat v:=u]> (d_parent st) !!! Z.to_nat v = u) as Hself.
  { apply list_lookup_total_insert_eq. rewrite Hl3. by apply in_range_lt. }
  assert (∀ x, in_range m x → x ≠ v →
            <[Z.to_nat v:=alt]> (d_dist st) !!! Z.to_nat x = d_dist st !!! Z.to_nat x)
    as Hdother.
  { intros x Hx Hne. apply list_lookup_total_insert_ne.
    apply to_nat_ne; [apply Hv|apply Hx|done]. }
  assert (<[Z.to_nat v:=alt]> (d_dist st) !!! Z.to_nat v = alt) as Hdself.
  { apply list_lookup_total_insert_eq. rewrite Hl1. by apply in_range_lt. }
  constructor; cbn [d_dist d_visited d_parent d_heap].
  - by rewrite heap_update_capacity.
  - done.
  - intros e [->|[He Hne]]%Hent.
    + cbn [hn_distance hn_node_id]. rewrite Hdself. split; [done|]. by apply ltb_not_nan in Halt as [? _].
    + destruct (Hqd e He) as [Hde Hnum]. split; [|done].
      rewrite Hdother; [done| |done].
      apply (Hheap (hn_node_id e)). rewrite heap_ids_entries.
      apply list_elem_of_fmap. by exists e.
  - intros x Hx. unfold vis. cbn [d_visited].
    destruct (decide (x = v)) as [->|Hne]; [by right|].
    rewrite Hother by done. intros Hxp.
    destruct (Hq x Hx Hxp) as [?|?]; [by left|right; by apply Hsup].
  - by rewrite Hdother.
  - intros x Hx. destruct (decide (x = v)) as [->|Hne].
    + rewrite Hself. intros _. exists p. rewrite Hd.
      split; [done|]. split; [done|].
      rewrite Hdself. by rewrite Hdother.
    + rewrite Hother by done. intros Hxp.
      destruct (Hc x Hx Hxp) as (q & Hq1 & Hq2 & Hq3).
      destruct (Hpar x Hx Hxp) as (Hpr & Hpv' & _).
      exists q. split; [done|]. split; [done|].
      rewrite !Hdother; [done|done| |done|done].
      intros Heq. rewrite Heq in Hpv'. done.
Qed.

Lemma explore_way_qinv start st u p :
  dinv m start st → qinv L m start st →
  in_range m u → vis st u → p ∈ n_ways (node_at m u) →
  qinv L m start (explore_way L m u (deref_way m p) st).
Proof.
  intros Hinv Hq Hu Hvu Hp. unfold explore_way.
  apply explore_offset_qinv; [| |done| |done|by right].
  - apply explore_offset_inv; [done..|by left].
  - apply explore_offset_qinv; [done..|by left].
  - unfold vis. by rewrite explore_offset_visited.
Qed.

Lemma explore_node_qinv start st u :
  dinv m start st → qinv L m start st → in_range m u → vis st u →
  qinv L m start (explore_node L m u st).
Proof.
  intros Hinv Hq Hu Hvu. unfold explore_node.
  assert (∀ l st, (∀ p, p ∈ l → p ∈ n_ways (node_at m u)) →
            dinv m start st → qinv L m start st → vis st u →
            qinv L m start (foldl (λ st p, explore_way L m u (deref_way m p) st) st l))
    as Hfold.
  { clear st Hinv Hq Hvu. induction l as [|p l IH]; intros st Hl Hinv Hq Hvu; [done|].
    simpl. destruct (explore_way_inv L m Hwf start st u p) as [Hi Hv];
      [done|done|done|apply Hl; by left|].
    apply IH; [intros q Hq'; apply Hl; by right|done| |unfold vis; by rewrite Hv].
    apply explore_way_qinv; [done..|apply Hl; by left]. }
  by apply Hfold.
Qed.

Lemma init_qinv start :
  in_range m start → qinv L m start (dijkstra_init m start).
Proof.
  intros Hs. pose proof (in_range_lt m start Hs) as Hlt.
  unfold dijkstra_init.
  set (n := length (m_nodes m)) in *.
  destruct (create_min_heap_ok n) as [Hok0 Hids0].
  destruct (insert_min_heap_entries (create_min_heap n) start 0%float Hok0)
    as [Hperm Hsz]; [simpl; lia|].
  assert (heap_entries (create_min_heap n) = []) as Hnil by done.
  rewrite Hnil in Hperm.
  assert (∀ x, in_range m x → replicate n (-1) !!! Z.to_nat x = -1) as Hpar.
  { intros x Hx. apply lookup_total_replicate_2. by apply in_range_lt. }
  constructor; cbn [d_dist d_visited d_parent d_heap].
  - unfold insert_min_heap. by destruct (_ =? _)%nat.
  - apply insert_min_heap_ordered; [done|simpl; lia|].
    intros i Hi. simpl in Hi. lia.
  - intros e He. rewrite Hperm in He. apply list_elem_of_singleton in He as ->.
    cbn. split; [|done]. symmetry. apply list_lookup_total_insert_eq.
    by rewrite length_replicate.
  - intros v Hv Hne. by specialize (Hpar v Hv).
  - apply list_lookup_total_insert_eq. by rewrite length_replicate.
  - intros v Hv Hne. by specialize (Hpar v Hv).
Qed.

(** Every state at the test of the loop is the initial one or satisfies
    both invariants. *)
Lemma loop_head_inv start end_id st :
  in_range m start → loop_head L m start end_id st →
  qinv L m start st
  ∧ (st = dijkstra_init m start ∨ dinv m start st).
Proof.
  intros Hs Hh. induction Hh as [|st Hh [Hq IH] Hpos Hne].
  { split; [by apply init_qinv|by left]. }
  unfold loop_round.
  destruct IH as [->|Hinv].
  - pose proof (first_round_inv m Hwf start Hs) as Hfirst.
    cbv zeta in Hfirst. destruct Hfirst as (_ & Hu & Hinv1 & _).
    pose proof (inv_start _ _ _ Hinv1) as (_ & Hvs & _).
    assert (qinv L m start
              (mk_dstate (d_dist (dijkstra_init m start))
                 (<[Z.to_nat (hn_node_id (extract_min (d_heap (dijkstra_init m start))).1)
                    := true]> (d_visited (dijkstra_init m start)))
                 (d_parent (dijkstra_init m start))
                 (extract_min (d_heap (dijkstra_init m start))).2)) as Hq1.
    { apply extract_mark_qinv; [| | |done|done].
      - simpl. destruct (create_min_heap_ok (length (m_nodes m))) as [Hok0 _].
        apply insert_min_heap_ids; [done|]. simpl.
        pose proof (in_range_lt m start Hs). lia.
      - simpl. by rewrite length_replicate.
      - intros x Hx. simpl in Hx.
        destruct (create_min_heap_ok (length (m_nodes m))) as [Hok0 Hids0].
        destruct (insert_min_heap_ids (create_min_heap (length (m_nodes m)))
                    start 0%float Hok0) as [Hperm _].
        { simpl. pose proof (in_range_lt m start Hs). lia. }
        rewrite Hperm, Hids0 in Hx. by apply list_elem_of_singleton in Hx as ->. }
    rewrite Hu in *.
    split; [by apply explore_node_qinv|right].
    by apply (explore_node_inv L m Hwf).
  - destruct (extract_mark_inv m Hwf start st Hinv Hpos) as (Hinv1 & Hu & Hvu & _).
    assert (qinv L m start
              (mk_dstate (d_dist st)
                 (<[Z.to_nat (hn_node_id (extract_min (d_heap st)).1) := true]>
                    (d_visited st))
                 (d_parent st) (extract_min (d_heap st)).2)) as Hq1.
    { apply extract_mark_qinv; [apply Hinv|apply Hinv| |done|done].
      intros x Hx. by destruct (inv_heap _ _ _ Hinv x Hx). }
    split; [by apply explore_node_qinv|right].
    by apply (explore_node_inv L m Hwf).
Qed.

End router_queue.

Section router_final.
Context (L : libm) (m : ssmap).
Implicit Types (st : dstate) (u v : Z).

Lemma dijkstra_loop_head start end_id fuel st st' :
  loop_head L m start end_id st →
  dijkstra_loop L m end_id fuel st = Some st' →
  ∃ st0, loop_head L m start end_id st0 ∧ loop_exit end_id st0 st'.
Proof.
  revert st. induction fuel as [|fuel IH]; intros st Hh Hrun; [done|].
  rewrite dijkstra_loop_S in Hrun.
  destruct (0 <? size (d_heap st))%nat eqn:Hsz.
  - apply Nat.ltb_lt in Hsz. cbv zeta in Hrun.
    destruct (_ =? end_id) eqn:Hu.
    + apply Z.eqb_eq in Hu. simplify_eq. exists st. split; [done|]. by right.
    + apply Z.eqb_neq in Hu. apply (IH _ (loop_head_next _ _ _ _ _ Hh Hsz Hu) Hrun).
  - apply Nat.ltb_ge in Hsz. simplify_eq. exists st'. split; [done|].
    left. split; [lia|done].
Qed.

Lemma loop_exit_arrays end_id st0 st' :
  loop_exit end_id st0 st' → d_dist st' = d_dist st0 ∧ d_parent st' = d_parent st0.
Proof. by intros [[_ ->]|(_ & _ & ->)]. Qed.

Lemma rev_lookup_pair {A} (l : list A) (i : nat) a b :
  rev l !! i = Some a → rev l !! S i = Some b →
  ∃ j : nat, l !! j = Some b ∧ l !! S j = Some a.
Proof.
  rewrite rev_alt. change (rev_append l []) with (reverse l).
  intros [Ha Hi]%reverse_lookup_Some [Hb Hi']%reverse_lookup_Some.
  exists (length l - S (S i))%nat. split; [done|].
  by replace (S (length l - S (S i)))%nat with (length l - S i)%nat by lia.
Qed.

Lemma trace_parents_links fuel (parent : list Z) cur stk (i : nat) x y :
  trace_parents fuel parent cur = Some stk →
  stk !! i = Some x → stk !! S i = Some y →
  parent !!! Z.to_nat x = y ∧ y ≠ -1.
Proof.
  revert cur stk i. induction fuel as [|fuel IH]; intros cur stk i Ht Hx Hy.
  - simpl in Ht. destruct (cur =? -1); by simplify_eq.
  - simpl in Ht. destruct (cur =? -1); [by simplify_eq|].
    destruct (trace_parents fuel parent (parent !!! Z.to_nat cur)) as [stk'|] eqn:E;
      [|done].
    simpl in Ht. simplify_eq. destruct i as [|i].
    + simpl in Hx, Hy. simplify_eq.
      destruct fuel as [|fuel']; simpl in E.
      * destruct (_ =? -1) eqn:E1; by simplify_eq.
      * destruct (_ =? -1) eqn:E1; [by simplify_eq|].
        apply Z.eqb_neq in E1.
        destruct (trace_parents fuel' _ _); simpl in E; by simplify_eq/=.
    + simpl in Hx, Hy. by eapply IH.
Qed.

Lemma path_found_parents start end_id l st :
  path_create_result L m start end_id = Some (PathFound l) →
  dijkstra L m start end_id = Some st →
  ∀ a b, consecutive l a b → d_parent st !!! Z.to_nat b = a ∧ a ≠ -1.
Proof.
  unfold path_create_result. intros Hres Hst a b (i & Ha & Hb).
  destruct (node_missing m start); [done|].
  destruct (node_missing m end_id); [done|].
  destruct (start =? end_id); [done|].
  rewrite Hst in Hres. simpl in Hres.
  destruct (_ =? -1); [done|].
  destruct (trace_parents _ _ _) as [stk|] eqn:Ht; [|done].
  simpl in Hres. simplify_eq.
  destruct (rev_lookup_pair _ _ _ _ Ha Hb) as (j & Hj1 & Hj2).
  by eapply trace_parents_links.
Qed.

End router_final.

(** ** The priority queue *)

(** X1.  Inserting into a queue that has room adds exactly the new entry,
    keeps the heap order, and makes the point a member. *)
Theorem insert_min_heap_keeps_heap (h : min_heap) (node_id : Z) (distance : float) :
  heap_ok h → (size h < capacity h)%nat → heap_ordered h →
  heap_entries (insert_min_heap h node_id distance)
    ≡ₚ mk_heap_node node_id distance :: heap_entries h
  ∧ size (insert_min_heap h node_id distance) = S (size h)
  ∧ heap_ok (insert_min_heap h node_id distance)
  ∧ heap_ordered (insert_min_heap h node_id distance)
  ∧ is_in_min_heap (insert_min_heap h node_id distance) node_id = true.
Proof.
  intros Hok Hroom Hord.
  destruct (insert_min_heap_entries h node_id distance Hok Hroom) as [Hperm Hsz].
  destruct (insert_min_heap_ids h node_id distance Hok Hroom) as [Hids Hok'].
  split; [done|]. split; [done|]. split; [done|].
  split; [by apply insert_min_heap_ordered|].
  apply is_in_min_heap_spec. rewrite Hids. by left.
Qed.

Lemma heap_ordered_small (h : min_heap) : (size h ≤ 1)%nat → heap_ordered h.
Proof. intros Hsz i Hi. lia. Qed.

Lemma insert_min_heap_keeps_heap_witness :
  let h := insert_min_heap (create_min_heap 3) 7 2%float in
  heap_ok h ∧ (size h < capacity h)%nat ∧ heap_ordered h
  ∧ (extract_min (insert_min_heap h 4 1%float)).1 = mk_heap_node 4 1%float
  ∧ heap_entries (insert_min_heap h 4 1%float)
      ≡ₚ mk_heap_node 4 1%float :: heap_entries h
  ∧ size (insert_min_heap h 4 1%float) = S (size h)
  ∧ heap_ok (insert_min_heap h 4 1%float)
  ∧ heap_ordered (insert_min_heap h 4 1%float)
  ∧ is_in_min_heap (insert_min_heap h 4 1%float) 4 = true.
Proof.
  assert (heap_ok (insert_min_heap (create_min_heap 3) 7 2%float)) as Hok
    by (split; vm_compute; lia).
  assert (heap_ordered (insert_min_heap (create_min_heap 3) 7 2%float)) as Hord
    by (apply heap_ordered_small; vm_compute; lia).
  split; [done|]. split; [vm_compute; lia|]. split; [done|].
  split; [by vm_compute|].
  apply (insert_min_heap_keeps_heap
           (insert_min_heap (create_min_heap 3) 7 2%float) 4 1%float);
    [done|vm_compute; lia|done].
Defined.

(** X2.  [extract_min] on an ordered queue of numbers returns an entry of
    least distance and removes exactly that entry; the rest stays an
    ordered queue. *)
Theorem extract_min_returns_minimum (h : min_heap) :
  heap_ok h → heap_ordered h → keys_are_numbers h → (0 < size h)%nat →
  heap_entries h ≡ₚ (extract_min h).1 :: heap_entries (extract_min h).2
  ∧ (∀ e, e ∈ heap_entries h →
       (hn_distance e <? hn_distance (extract_min h).1)%float = false)
  ∧ size (extract_min h).2 = (size h - 1)%nat
  ∧ heap_ok (extract_min h).2
  ∧ heap_ordered (extract_min h).2
  ∧ keys_are_numbers (extract_min h).2.
Proof.
  intros Hok Hord Hnum Hpos.
  destruct (extract_min_entries h Hok Hpos) as [Hperm Hroot].
  destruct (extract_min_ids h Hok Hpos) as (_ & Hok' & Hsz).
  split; [done|]. split; [|split; [done|split; [done|split]]].
  - intros e He. destruct Hok as [Hlen Hcap].
    apply heap_entries_dist in He as (i & Hi & <-); [|lia].
    rewrite Hroot. apply (root_is_least h i); [done|done|lia].
  - by apply extract_min_ordered.
  - unfold keys_are_numbers in *. rewrite Hperm in Hnum.
    by apply Forall_cons in Hnum as [_ ?].
Qed.

Lemma full_heap_ordered : heap_ordered full_heap.
Proof.
  intros i Hi. assert (i = 1%nat) as -> by (vm_compute in Hi; lia). by vm_compute.
Qed.

Lemma extract_min_returns_minimum_witness :
  heap_ok full_heap ∧ (0 < size full_heap)%nat
  ∧ (extract_min full_heap).1 = mk_heap_node 0 1%float
  ∧ heap_entries full_heap
      ≡ₚ (extract_min full_heap).1 :: heap_entries (extract_min full_heap).2
  ∧ (∀ e, e ∈ heap_entries full_heap →
       (hn_distance e <? hn_distance (extract_min full_heap).1)%float = false)
  ∧ size (extract_min full_heap).2 = (size full_heap - 1)%nat
  ∧ heap_ok (extract_min full_heap).2
  ∧ heap_ordered (extract_min full_heap).2
  ∧ keys_are_numbers (extract_min full_heap).2.
Proof.
  assert (heap_ok full_heap) as Hok by (split; vm_compute; lia).
  split; [done|]. split; [vm_compute; lia|]. split; [by vm_compute|].
  apply (extract_min_returns_minimum full_heap);
    [done|apply full_heap_ordered| |vm_compute; lia].
  unfold keys_are_numbers. vm_compute. by repeat constructor.
Defined.

(** X3.  [decrease_key] with a distance below the current one of a queued
    point replaces that point's entry and keeps the heap order. *)
Theorem decrease_key_keeps_heap (h : min_heap) (node_id : Z) (distance : float) (i : nat) :
  heap_ok h → heap_ordered h → heap_index h node_id = Some i →
  (distance <? dist_at (elements h) i)%float = true →
  heap_entries (decrease_key h node_id distance)
    ≡ₚ mk_heap_node node_id distance :: delete i (heap_entries h)
  ∧ heap_ids (decrease_key h node_id distance) ≡ₚ heap_ids h
  ∧ size (decrease_key h node_id distance) = size h
  ∧ heap_ok (decrease_key h node_id distance)
  ∧ heap_ordered (decrease_key h node_id distance).
Proof.
  intros Hok Hord Hi Hd.
  destruct (decrease_key_ids h node_id distance) as [Hids Hok'].
  split; [by apply decrease_key_entries|]. split; [done|].
  split; [unfold decrease_key; by rewrite Hi|].
  split; [by apply Hok'|]. by apply (decrease_key_ordered h node_id distance i).
Qed.

Lemma decrease_key_keeps_heap_witness :
  heap_ok full_heap ∧ heap_index full_heap 1 = Some 1%nat
  ∧ (extract_min (decrease_key full_heap 1 0.5%float)).1 = mk_heap_node 1 0.5%float
  ∧ heap_entries (decrease_key full_heap 1 0.5%float)
      ≡ₚ mk_heap_node 1 0.5%float :: delete 1%nat (heap_entries full_heap)
  ∧ heap_ids (decrease_key full_heap 1 0.5%float) ≡ₚ heap_ids full_heap
  ∧ size (decrease_key full_heap 1 0.5%float) = size full_heap
  ∧ heap_ok (decrease_key full_heap 1 0.5%float)
  ∧ heap_ordered (decrease_key full_heap 1 0.5%float).
Proof.
  assert (heap_ok full_heap) as Hok by (split; vm_compute; lia).
  split; [done|]. split; [by vm_compute|]. split; [by vm_compute|].
  apply (decrease_key_keeps_heap full_heap 1 0.5%float 1);
    [done|apply full_heap_ordered|by vm_compute|by vm_compute].
Defined.

(** X5.  [find_node_index_in_way] returns [-1] exactly when the segment does
    not list the point, and otherwise the index of its first occurrence. *)
Theorem find_node_index_in_way_spec (w : way) (node_id : Z) :
  (find_node_index_in_way w node_id = -1 ↔ node_id ∉ w_node_ids w)
  ∧ ∀ i : nat, find_node_index_in_way w node_id = Z.of_nat i
               ↔ first_occurrence (w_node_ids w) node_id i.
Proof.
  unfold find_node_index_in_way.
  pose proof (find_index_from_spec (w_node_ids w) node_id 0) as Hs.
  destruct (decide (node_id ∈ w_node_ids w)) as [Hin|Hnin].
  - destruct Hs as (i & Hi & Hfirst). rewrite Hi. split.
    + split; [lia|done].
    + intros j. split.
      * intros Hj. by assert (j = i) as -> by lia.
      * intros [Hj Hmin]. destruct Hfirst as [Hi' Hmin'].
        destruct (lt_eq_lt_dec i j) as [[Hlt| ->]|Hlt]; [|done|].
        -- by destruct (Hmin i Hlt).
        -- by destruct (Hmin' j Hlt).
  - rewrite Hs. split; [done|]. intros i. split; [lia|].
    intros [Hi _]. destruct Hnin. by eapply list_elem_of_lookup_2.
Qed.

Section capacity.
Implicit Types (h : min_heap) (l : list heap_node).

Lemma create_min_heap_ordered n : heap_ordered (create_min_heap n).
Proof. intros i Hi. simpl in Hi. lia. Qed.

Lemma push_all_snoc n l e :
  push_all n (l ++ [e])
  = insert_min_heap (push_all n l) (hn_node_id e) (hn_distance e).
Proof. unfold push_all. by rewrite foldl_app. Qed.

Lemma push_all_spec n l :
  let h := push_all n l in
  heap_ok h ∧ heap_ordered h ∧ capacity h = n
  ∧ size h = (length l `min` n)%nat
  ∧ heap_entries h ≡ₚ take n l.
Proof.
  induction l as [|e l IH] using rev_ind.
  - simpl. destruct (create_min_heap_ok n) as [Hok _].
    split; [done|]. split; [apply create_min_heap_ordered|].
    split; [done|]. split; [done|]. by rewrite take_nil.
  - cbv zeta in *. rewrite push_all_snoc.
    destruct IH as (Hok & Hord & Hcap & Hsz & Hent).
    rewrite length_app. simpl.
    destruct (decide (length l < n)%nat) as [Hlt|Hge].
    + assert (size (push_all n l) < capacity (push_all n l))%nat as Hroom by lia.
      destruct (insert_min_heap_entries _ (hn_node_id e) (hn_distance e) Hok Hroom)
        as [Hperm Hsz'].
      destruct (insert_min_heap_ids _ (hn_node_id e) (hn_distance e) Hok Hroom)
        as [_ Hok'].
      split; [done|]. split; [by apply insert_min_heap_ordered|].
      split; [unfold insert_min_heap; by destruct (_ =? _)%nat|].
      split; [lia|].
      rewrite Hperm, Hent. rewrite !take_ge by (rewrite ?length_app; simpl; lia).
      destruct e. simpl. by rewrite <- Permutation_cons_append.
    + rewrite insert_min_heap_full by lia.
      split; [done|]. split; [done|]. split; [done|]. split; [lia|].
      rewrite Hent. by rewrite take_app_le by lia.
Qed.
End capacity.

(** X4.  A queue created with capacity [n] holds the first [n] entries pushed
    on it, in heap order; every later push is dropped: a point that is
    not among the first [n] is not in the queue. *)
Theorem queue_fills_to_capacity (n : nat) (l : list heap_node) :
  heap_ok (push_all n l) ∧ heap_ordered (push_all n l)
  ∧ capacity (push_all n l) = n
  ∧ size (push_all n l) = (length l `min` n)%nat
  ∧ heap_entries (push_all n l) ≡ₚ take n l
  ∧ ∀ id, id ∉ hn_node_id <$> take n l →
          is_in_min_heap (push_all n l) id = false.
Proof.
  destruct (push_all_spec n l) as (Hok & Hord & Hcap & Hsz & Hent).
  split; [done|]. split; [done|]. split; [done|]. split; [done|]. split; [done|].
  intros id Hnin. apply not_true_iff_false. rewrite is_in_min_heap_spec.
  by rewrite heap_ids_entries, Hent.
Qed.

(** ** The search loop *)

Section router_theorems_aux.
Context (L : libm) (m : ssmap).
Hypothesis Hwf : wf_map m = true.

Lemma init_heap_ok start :
  in_range m start →
  heap_ok (d_heap (dijkstra_init m start))
  ∧ heap_ids (d_heap (dijkstra_init m start)) = [start].
Proof.
  intros Hs. simpl.
  destruct (create_min_heap_ok (length (m_nodes m))) as [Hok0 Hids0].
  destruct (insert_min_heap_ids (create_min_heap (length (m_nodes m)))
              start 0%float Hok0) as [Hperm Hok].
  { simpl. pose proof (in_range_lt m start Hs). lia. }
  split; [done|]. rewrite Hids0 in Hperm. by apply Permutation_singleton_r in Hperm.
Qed.

Lemma loop_head_heap_ok start end_id st :
  in_range m start → loop_head L m start end_id st → heap_ok (d_heap st).
Proof.
  intros Hs Hh. destruct (loop_head_inv L m Hwf start end_id st Hs Hh) as [_ [->|Hinv]].
  - by apply init_heap_ok.
  - apply Hinv.
Qed.
End router_theorems_aux.

(** X6.  Each round of the search settles a queued point whose distance is
    least: the entry [extract_min] returns carries the current distance
    of its point, a number, and no queued point has a smaller one. *)
Theorem router_settles_least (L : libm) (m : ssmap) (start_id end_id : Z) (st : dstate) :
  wf_map m = true → point_exists m start_id →
  loop_head L m start_id end_id st → (0 < size (d_heap st))%nat →
  hn_node_id (extract_min (d_heap st)).1 ∈ heap_ids (d_heap st)
  ∧ hn_distance (extract_min (d_heap st)).1
    = d_dist st !!! Z.to_nat (hn_node_id (extract_min (d_heap st)).1)
  ∧ is_nan (hn_distance (extract_min (d_heap st)).1) = false
  ∧ ∀ v, v ∈ heap_ids (d_heap st) →
      (d_dist st !!! Z.to_nat v
       <? d_dist st !!! Z.to_nat (hn_node_id (extract_min (d_heap st)).1))%float = false.
Proof.
  intros Hwf [Hs _] Hh Hpos.
  pose proof (loop_head_heap_ok L m Hwf _ _ _ Hs Hh) as Hok.
  destruct (loop_head_inv L m Hwf _ _ _ Hs Hh) as [Hq _].
  destruct (extract_min_entries (d_heap st) Hok Hpos) as [Hperm Hroot].
  assert ((extract_min (d_heap st)).1 ∈ heap_entries (d_heap st)) as Hin
    by (rewrite Hperm; by left).
  destruct (q_dist _ _ _ _ Hq _ Hin) as [Hd Hnum].
  split; [|split; [done|split; [done|]]].
  { rewrite heap_ids_entries. apply list_elem_of_fmap. by eexists. }
  intros v Hv. rewrite heap_ids_entries in Hv.
  apply list_elem_of_fmap in Hv as (e & -> & He).
  destruct (q_dist _ _ _ _ Hq _ He) as [<- _]. rewrite <- Hd, Hroot.
  destruct Hok as [Hlen Hsz].
  apply heap_entries_dist in He as (i & Hi & <-); [|lia].
  apply (root_is_least (d_heap st) i); [apply Hq| |lia].
  apply Forall_forall. intros e He. by destruct (q_dist _ _ _ _ Hq _ He).
Qed.

Lemma scenario_second_round :
  loop_head RefLibm.ref scenario 0 3
    (loop_round RefLibm.ref scenario (dijkstra_init scenario 0)).
Proof.
  apply loop_head_next; [apply loop_head_init|vm_compute; lia|by vm_compute].
Qed.

Lemma router_settles_least_witness :
  let st := loop_round RefLibm.ref scenario (dijkstra_init scenario 0) in
  wf_map scenario = true
  ∧ heap_ids (d_heap st) = [1]
  ∧ hn_node_id (extract_min (d_heap st)).1 ∈ heap_ids (d_heap st)
  ∧ hn_distance (extract_min (d_heap st)).1
    = d_dist st !!! Z.to_nat (hn_node_id (extract_min (d_heap st)).1)
  ∧ is_nan (hn_distance (extract_min (d_heap st)).1) = false
  ∧ ∀ v, v ∈ heap_ids (d_heap st) →
      (d_dist st !!! Z.to_nat v
       <? d_dist st !!! Z.to_nat (hn_node_id (extract_min (d_heap st)).1))%float = false.
Proof.
  split; [by vm_compute|]. split; [by vm_compute|].
  apply (router_settles_least RefLibm.ref scenario 0 3).
  - by vm_compute.
  - split; [unfold num_nodes; simpl; lia|by eexists].
  - apply scenario_second_round.
  - vm_compute. lia.
Defined.

(** X7.  The queue never fills up during a search: at every test of the loop
    it holds fewer entries than its capacity [num_nodes], its entries
    are distinct points not yet visited, and every point that has been
    given a predecessor is visited or still queued, so no insertion was
    dropped. *)
Theorem router_queue_never_full (L : libm) (m : ssmap) (start_id end_id : Z)
    (st : dstate) :
  wf_map m = true → point_exists m start_id → point_exists m end_id →
  start_id ≠ end_id → loop_head L m start_id end_id st →
  (size (d_heap st) < capacity (d_heap st))%nat
  ∧ capacity (d_heap st) = length (m_nodes m)
  ∧ NoDup (heap_ids (d_heap st))
  ∧ (∀ v, is_in_min_heap (d_heap st) v = true → point_exists m v ∧ ¬ vis st v)
  ∧ ∀ v, point_exists m v → d_parent st !!! Z.to_nat v ≠ -1 →
      vis st v ∨ is_in_min_heap (d_heap st) v = true.
Proof.
  intros Hwf [Hs _] [He _] Hne Hh.
  destruct (loop_head_inv L m Hwf _ _ _ Hs Hh) as [Hq Hinv].
  pose proof (loop_head_heap_ok L m Hwf _ _ _ Hs Hh) as Hok.
  split; [|split; [apply Hq|split; [|split]]].
  2:{ destruct Hinv as [->|Hinv]; [|apply Hinv].
      destruct (init_heap_ok m start_id Hs) as [_ ->]. apply NoDup_singleton. }
  2:{ intros v Hv%is_in_min_heap_spec. destruct Hinv as [->|Hinv].
      - destruct (init_heap_ok m start_id Hs) as [_ Hids]. rewrite Hids in Hv.
        apply list_elem_of_singleton in Hv as ->.
        split; [by apply node_missing_false, (node_missing_range m Hwf)|].
        unfold vis. simpl. rewrite lookup_total_replicate_2; [done|].
        by apply in_range_lt.
      - destruct (inv_heap _ _ _ Hinv _ Hv) as (Hr & Hnv & _).
        split; [by apply node_missing_false, (node_missing_range m Hwf)|done]. }
  - rewrite (q_cap _ _ _ _ Hq), <- (heap_ids_length _ Hok).
    destruct Hinv as [->|Hinv].
    + destruct (init_heap_ok m start_id Hs) as [_ ->]. simpl.
      assert (length [start_id; end_id] ≤ length (m_nodes m))%nat as Hlen.
      { apply list_length_range; [|set_solver].
        apply NoDup_cons. split; [set_solver|]. apply NoDup_singleton. }
      simpl in Hlen. lia.
    + assert (length (start_id :: heap_ids (d_heap st)) ≤ length (m_nodes m))%nat
        as Hlen.
      { destruct (inv_start _ _ _ Hinv) as (_ & Hvs & _).
        apply list_length_range.
        - apply NoDup_cons. split; [|apply Hinv].
          intros Hin. by destruct (inv_heap _ _ _ Hinv _ Hin) as (_ & ? & _).
        - intros x [->|Hx]%elem_of_cons; [done|].
          by destruct (inv_heap _ _ _ Hinv _ Hx). }
      simpl in Hlen. lia.
  - intros v [Hv _] Hp. rewrite is_in_min_heap_spec. by apply Hq.
Qed.

Lemma router_queue_never_full_witness :
  let st := loop_round RefLibm.ref scenario (dijkstra_init scenario 0) in
  wf_map scenario = true
  ∧ d_parent st !!! Z.to_nat 1 = 0
  ∧ (size (d_heap st) < capacity (d_heap st))%nat
  ∧ capacity (d_heap st) = length (m_nodes scenario)
  ∧ NoDup (heap_ids (d_heap st))
  ∧ (∀ v, is_in_min_heap (d_heap st) v = true → point_exists scenario v ∧ ¬ vis st v)
  ∧ ∀ v, point_exists scenario v → d_parent st !!! Z.to_nat v ≠ -1 →
      vis st v ∨ is_in_min_heap (d_heap st) v = true.
Proof.
  split; [by vm_compute|]. split; [by vm_compute|].
  apply (router_queue_never_full RefLibm.ref scenario 0 3).
  - by vm_compute.
  - split; [unfold num_nodes; simpl; lia|by eexists].
  - split; [unfold num_nodes; simpl; lia|by eexists].
  - done.
  - apply scenario_second_round.
Defined.

(** X8.  The cost the router records for a printed path is built up leg by
    leg in path order: the start has distance 0, and the distance of
    every further point is its predecessor's plus the cost of the leg
    along a segment of the predecessor's list in which the point is next
    to the predecessor's first occurrence. *)
Theorem router_cost_by_legs (L : libm) (m : ssmap) (start_id end_id : Z) (l : list Z) :
  wf_map m = true →
  path_create_result L m start_id end_id = Some (PathFound l) →
  ∃ st, dijkstra L m start_id end_id = Some st
    ∧ path_cost L m start_id end_id = Some (d_dist st !!! Z.to_nat end_id)
    ∧ d_dist st !!! Z.to_nat start_id = 0%float
    ∧ ∀ a b, consecutive l a b →
        ∃ p, p ∈ n_ways (node_at m a) ∧ first_edge (deref_way m p) a b
             ∧ d_dist st !!! Z.to_nat b
               = (d_dist st !!! Z.to_nat a + edge_cost L m a b (deref_way m p))%float.
Proof.
  intros Hwf Hres.
  assert (in_range m start_id ∧ in_range m end_id ∧ start_id ≠ end_id)
    as (Hs & He & Hne).
  { unfold path_create_result in Hres.
    destruct (node_missing m start_id) eqn:E1; [done|].
    destruct (node_missing m end_id) eqn:E2; [done|].
    destruct (start_id =? end_id) eqn:E3; [done|].
    apply (node_missing_range m Hwf) in E1, E2. by apply Z.eqb_neq in E3. }
  destruct (path_create_result_spec L m Hwf start_id end_id Hs He Hne)
    as (st & Hst & [[_ Hn]|(l' & Hl' & _ & _ & _ & Hall & _)]); [congruence|].
  rewrite Hres in Hl'. simplify_eq.
  exists st. split; [done|]. split; [unfold path_cost; by rewrite Hst|].
  destruct (dijkstra_loop_head L m start_id end_id _ _ st
              (loop_head_init L m start_id end_id) Hst) as (st0 & Hh & Hexit).
  destruct (loop_exit_arrays _ _ _ Hexit) as [-> Hpar].
  destruct (loop_head_inv L m Hwf _ _ _ Hs Hh) as [Hq _].
  split; [apply Hq|].
  intros a b Hab.
  destruct (path_found_parents L m _ _ _ _ Hres Hst a b Hab) as [Hpa Ha].
  rewrite Hpar in Hpa.
  assert (in_range m b) as Hb.
  { destruct Hab as (i & _ & Hi). apply Hall. by eapply list_elem_of_lookup_2. }
  destruct (q_cost _ _ _ _ Hq b Hb) as (p & Hp1 & Hp2 & Hp3); [by rewrite Hpa|].
  rewrite Hpa in *. by exists p.
Qed.

Lemma router_cost_by_legs_witness :
  wf_map scenario = true
  ∧ path_create_result RefLibm.ref scenario 0 3 = Some (PathFound [0; 1; 2; 3])
  ∧ ∃ st, dijkstra RefLibm.ref scenario 0 3 = Some st
    ∧ path_cost RefLibm.ref scenario 0 3 = Some (d_dist st !!! Z.to_nat 3)
    ∧ d_dist st !!! Z.to_nat 0 = 0%float
    ∧ ∀ a b, consecutive [0; 1; 2; 3] a b →
        ∃ p, p ∈ n_ways (node_at scenario a) ∧ first_edge (deref_way scenario p) a b
             ∧ d_dist st !!! Z.to_nat b
               = PrimFloat.add (d_dist st !!! Z.to_nat a)
                   (edge_cost RefLibm.ref scenario a b (deref_way scenario p)).
Proof.
  split; [by vm_compute|]. split; [by vm_compute|].
  apply (router_cost_by_legs RefLibm.ref scenario 0 3); by vm_compute.
Defined.

(** ** The search finds what its edges reach *)

Section completeness.
Context (L : libm) (m : ssmap).
Hypothesis Hwf : wf_map m = true.
Implicit Types (st : dstate) (u v : Z).

Lemma vis_reached start st v :
  dinv m start st → in_range m v → vis st v → reached start st v.
Proof.
  intros Hinv Hv Hvis. destruct (inv_chain _ _ _ Hinv v Hv Hvis) as (l & Hl & _).
  inversion Hl; [by left|by right].
Qed.

Lemma explore_offset_cinv start st u p offset :
  dinv m start st → cinv m start st →
  in_range m u → vis st u → p ∈ n_ways (node_at m u) →
  offset = -1 ∨ offset = 1 →
  cinv m start
    (explore_offset L m u (deref_way m p)
       (find_node_index_in_way (deref_way m p) u) offset st)
  ∧ (∀ x, reached start st x →
       reached start
         (explore_offset L m u (deref_way m p)
            (find_node_index_in_way (deref_way m p) u) offset st) x)
  ∧ d_dist (explore_offset L m u (deref_way m p)
              (find_node_index_in_way (deref_way m p) u) offset st) !!! Z.to_nat u
    = d_dist st !!! Z.to_nat u.
Proof.
  intros Hinv Hcinv Hu Hvu Hp Hoff.
  destruct (in_range_exists m Hwf u Hu) as [n Hn].
  rewrite (node_at_get _ _ _ Hn) in Hp.
  destruct (wf_map_node _ _ _ _ Hwf Hn Hp) as (w & Hw & Huw).
  pose proof (deref_way_lookup _ _ _ Hw) as Hd. rewrite Hd.
  unfold explore_offset.
  destruct (_ && (_ <? _)) eqn:Hrange; [|done].
  apply andb_true_iff in Hrange as [H0%Z.leb_le Hlt%Z.ltb_lt].
  destruct (w_one_way w && (offset <? 0)) eqn:Hdir; [done|].
  destruct (explore_offset_step w u offset Huw Hoff (conj H0 Hlt) Hdir)
    as [Hstep Hvin].
  set (v := w_node_ids w !!! Z.to_nat (find_node_index_in_way w u + offset)) in *.
  destruct (negb (d_visited st !!! Z.to_nat v) && _) eqn:Hcond; [|done].
  apply andb_true_iff in Hcond as [Hnv%negb_true_iff _].
  apply vis_exists_false in Hnv.
  set (alt := (_ + _)%float).
  destruct (alt <? _)%float eqn:Halt; [|done].
  destruct (wf_map_way _ _ _ _ Hwf Hw Hvin) as (_ & nv & Hnv' & Hpv).
  assert (in_range m v) as Hv by (by eapply get_node_range).
  pose proof Hinv as [Hl1 Hl2 Hl3 Hok (Hs & Hsv & Hsp) Hnd Hheap Hpar Hchain].
  destruct Hcinv as [Hinf Hfin].
  assert (v ≠ u) as Hvu' by (intros ->; done).
  destruct (heap_update_ids (d_heap st) v alt Hok Hnd) as (Hok' & Hnd' & Hsub & Hsup).
  assert (∀ x, in_range m x → x ≠ v →
            <[Z.to_nat v:=u]> (d_parent st) !!! Z.to_nat x = d_parent st !!! Z.to_nat x)
    as Hother.
  { intros x Hx Hne. apply list_lookup_total_insert_ne.
    apply to_nat_ne; [apply Hv|apply Hx|done]. }
  assert (<[Z.to_nat v:=u]> (d_parent st) !!! Z.to_nat v = u) as Hself.
  { apply list_lookup_total_insert_eq. rewrite Hl3. by apply in_range_lt. }
  assert (∀ x, in_range m x → x ≠ v →
            <[Z.to_nat v:=alt]> (d_dist st) !!! Z.to_nat x = d_dist st !!! Z.to_nat x)
    as Hdother.
  { intros x Hx Hne. apply list_lookup_total_insert_ne.
    apply to_nat_ne; [apply Hv|apply Hx|done]. }
  assert (<[Z.to_nat v:=alt]> (d_dist st) !!! Z.to_nat v = alt) as Hdself.
  { apply list_lookup_total_insert_eq. rewrite Hl1. by apply in_range_lt. }
  assert (∀ x, reached start st x →
            reached start
              {| d_dist := <[Z.to_nat v:=alt]> (d_dist st);
                 d_visited := d_visited st;
                 d_parent := <[Z.to_nat v:=u]> (d_parent st);
                 d_heap := if negb (is_in_min_heap (d_heap st) v)
                           then insert_min_heap (d_heap st) v alt
                           else decrease_key (d_heap st) v alt |} x) as Hmono.
  { intros x [->|Hx]; [by left|]. right. cbn [d_parent].
    rewrite list_lookup_total_insert. case_decide as Hc; [|done].
    unfold in_range in Hu. lia. }
  split; [|split; [done|]].
  - constructor; cbn [d_dist d_parent d_heap].
    + intros x Hx Hnr. destruct (decide (x = v)) as [->|Hne].
      * destruct Hnr. right. cbn [d_parent]. rewrite Hself. unfold in_range in Hu. lia.
      * rewrite Hdother by done. apply Hinf; [done|].
        intros [->|Hr]; apply Hnr; [by left|right].
        cbn [d_parent]. by rewrite Hother.
    + intros x [->|Hx]%Hsub.
      * rewrite Hdself. by apply (ltb_not_infinity _ _ Halt).
      * destruct (decide (x = v)) as [->|Hne].
        -- rewrite Hdself. by apply (ltb_not_infinity _ _ Halt).
        -- rewrite Hdother; [by apply Hfin| |done]. by destruct (Hheap x Hx).
  - cbn [d_dist]. by rewrite Hdother.
Qed.

Lemma explore_offset_hits start st u p offset :
  dinv m start st → cinv m start st →
  in_range m u → vis st u → p ∈ n_ways (node_at m u) →
  offset = -1 ∨ offset = 1 →
  let w := deref_way m p in
  let next := find_node_index_in_way w u + offset in
  0 ≤ next < Z.of_nat (length (w_node_ids w)) →
  w_one_way w && (offset <? 0) = false →
  (d_dist st !!! Z.to_nat u =? infinity)%float = false →
  (d_visited st !!! Z.to_nat (w_node_ids w !!! Z.to_nat next) = false →
   (d_dist st !!! Z.to_nat u
    + edge_cost L m u (w_node_ids w !!! Z.to_nat next) w <? infinity)%float = true) →
  reached start (explore_offset L m u w (find_node_index_in_way w u) offset st)
    (w_node_ids w !!! Z.to_nat next).
Proof.
  intros Hinv Hcinv Hu Hvu Hp Hoff w next Hnext Hdir Hfinite Hok.
  subst next. unfold explore_offset.
  rewrite (proj2 (andb_true_iff _ _)); last first.
  { split; [apply Z.leb_le|apply Z.ltb_lt]; lia. }
  rewrite Hdir.
  set (v := w_node_ids w !!! Z.to_nat (find_node_index_in_way w u + offset)) in *.
  assert (in_range m v) as Hv.
  { destruct (in_range_exists m Hwf u Hu) as [n Hn].
    rewrite (node_at_get _ _ _ Hn) in Hp.
    destruct (wf_map_node _ _ _ _ Hwf Hn Hp) as (w' & Hw & Huw).
    pose proof (deref_way_lookup _ _ _ Hw) as Hd. fold w in Hd. subst w'.
    destruct (explore_offset_step w u offset Huw Hoff Hnext Hdir) as [_ Hvin].
    destruct (wf_map_way _ _ _ _ Hwf Hw Hvin) as (_ & nv & Hnv' & _).
    by eapply get_node_range. }
  destruct (d_visited st !!! Z.to_nat v) eqn:Hvis.
  { simpl. by apply (vis_reached start st v). }
  specialize (Hok eq_refl).
  rewrite Hfinite. cbn [negb andb].
  change (d_dist st !!! Z.to_nat u
          + distance_between_nodes L (node_at m u) (node_at m v) / w_max_speed w * 60)%float
    with (d_dist st !!! Z.to_nat u + edge_cost L m u v w)%float.
  destruct (_ <? d_dist st !!! Z.to_nat v)%float eqn:Halt.
  - right. cbn [d_parent]. rewrite list_lookup_total_insert_eq.
    + unfold in_range in Hu. lia.
    + rewrite (inv_len_par _ _ _ Hinv). by apply in_range_lt.
  - destruct (decide (reached start st v)) as [|Hnr]; [done|].
    rewrite (c_inf _ _ _ Hcinv v Hv Hnr) in Halt. congruence.
Qed.

Lemma first_edge_neighbours (w : way) u v : first_edge w u v → v ∈ neighbours w u.
Proof.
  intros (i0 & Hfirst & Hnext).
  pose proof (first_occurrence_index w u i0 Hfirst) as Hidx.
  unfold neighbours. apply list_elem_of_omap. rewrite Hidx.
  destruct Hnext as [Hv|(Htwo & Hpos & Hv)].
  - exists 1. split; [set_solver|]. cbv zeta.
    pose proof (lookup_lt_Some _ _ _ Hv).
    rewrite (proj2 (Z.leb_le 0 _)), (proj2 (Z.ltb_lt _ _)) by lia.
    rewrite andb_false_r. cbn [andb negb].
    replace (Z.to_nat (Z.of_nat i0 + 1)) with (S i0) by lia.
    by rewrite (list_lookup_total_correct _ _ _ Hv).
  - exists (-1). split; [set_solver|]. cbv zeta.
    pose proof (lookup_lt_Some _ _ _ Hv).
    rewrite (proj2 (Z.leb_le 0 _)), (proj2 (Z.ltb_lt _ _)) by lia.
    rewrite Htwo. cbn [andb negb].
    replace (Z.to_nat (Z.of_nat i0 + -1)) with (i0 - 1)%nat by lia.
    by rewrite (list_lookup_total_correct _ _ _ Hv).
Qed.

Lemma explore_way_complete start st u p :
  dinv m start st → cinv m start st →
  in_range m u → vis st u → p ∈ n_ways (node_at m u) →
  (d_dist st !!! Z.to_nat u =? infinity)%float = false →
  (∀ v, first_edge (deref_way m p) u v → d_visited st !!! Z.to_nat v = false →
     (d_dist st !!! Z.to_nat u + edge_cost L m u v (deref_way m p) <? infinity)%float
     = true) →
  cinv m start (explore_way L m u (deref_way m p) st)
  ∧ (∀ x, reached start st x → reached start (explore_way L m u (deref_way m p) st) x)
  ∧ d_dist (explore_way L m u (deref_way m p) st) !!! Z.to_nat u
    = d_dist st !!! Z.to_nat u
  ∧ ∀ v, first_edge (deref_way m p) u v →
         reached start (explore_way L m u (deref_way m p) st) v.
Proof.
  intros Hinv Hcinv Hu Hvu Hp Hfin Hok. unfold explore_way.
  set (w := deref_way m p) in *. set (idx := find_node_index_in_way w u).
  set (st1 := explore_offset L m u w idx (-1) st).
  assert (dinv m start st1) as Hinv1
    by (apply (explore_offset_inv L m Hwf); [done..|by left]).
  destruct (explore_offset_cinv start st u p (-1) Hinv Hcinv Hu Hvu Hp)
    as (Hcinv1 & Hmono1 & Hd1); [by left|]. fold w idx st1 in Hcinv1, Hmono1, Hd1.
  assert (vis st1 u) as Hvu1.
  { unfold vis, st1. by rewrite explore_offset_visited. }
  destruct (explore_offset_cinv start st1 u p 1 Hinv1 Hcinv1 Hu Hvu1 Hp)
    as (Hcinv2 & Hmono2 & Hd2); [by right|]. fold w idx in Hcinv2, Hmono2, Hd2.
  split; [done|]. split; [intros x Hx; by apply Hmono2, Hmono1|].
  split; [by rewrite Hd2|].
  intros v Hedge. pose proof Hedge as (i0 & Hfirst & Hnext).
  pose proof (first_occurrence_index w u i0 Hfirst) as Hidx. fold idx in Hidx.
  destruct Hnext as [Hv|(Htwo & Hpos & Hv)].
  - pose proof (explore_offset_hits start st1 u p 1 Hinv1 Hcinv1 Hu Hvu1 Hp) as Hhit.
    cbv zeta in Hhit. fold w idx in Hhit. rewrite Hidx in Hhit.
    replace (Z.to_nat (Z.of_nat i0 + 1)) with (S i0) in Hhit by lia.
    rewrite (list_lookup_total_correct _ _ _ Hv) in Hhit.
    rewrite <- Hidx in Hhit. apply Hhit.
    + by right.
    + apply lookup_lt_Some in Hv. lia.
    + by rewrite andb_false_r.
    + by rewrite Hd1.
    + rewrite Hd1. unfold st1. rewrite explore_offset_visited. by apply Hok.
  - apply Hmono2.
    pose proof (explore_offset_hits start st u p (-1) Hinv Hcinv Hu Hvu Hp) as Hhit.
    cbv zeta in Hhit. fold w idx in Hhit. rewrite Hidx in Hhit.
    replace (Z.to_nat (Z.of_nat i0 + -1)) with (i0 - 1)%nat in Hhit by lia.
    rewrite (list_lookup_total_correct _ _ _ Hv) in Hhit.
    rewrite <- Hidx in Hhit. apply Hhit.
    + by left.
    + apply lookup_lt_Some in Hv. lia.
    + by rewrite Htwo.
    + done.
    + by apply Hok.
Qed.

Lemma explore_node_complete start st u :
  dinv m start st → cinv m start st → in_range m u → vis st u →
  (d_dist st !!! Z.to_nat u =? infinity)%float = false →
  forallb (λ p,
    forallb (λ v,
      negb (negb (d_visited st !!! Z.to_nat v)
            && negb (d_dist st !!! Z.to_nat u =? infinity)%float)
      || (d_dist st !!! Z.to_nat u + edge_cost L m u v (deref_way m p) <? infinity)%float)
      (neighbours (deref_way m p) u))
    (n_ways (node_at m u)) = true →
  cinv m start (explore_node L m u st)
  ∧ (∀ x, reached start st x → reached start (explore_node L m u st) x)
  ∧ ∀ v, redge m u v → reached start (explore_node L m u st) v.
Proof.
  intros Hinv Hcinv Hu Hvu Hfin Hok. unfold explore_node.
  assert (∀ p v, p ∈ n_ways (node_at m u) → first_edge (deref_way m p) u v →
            d_visited st !!! Z.to_nat v = false →
            (d_dist st !!! Z.to_nat u + edge_cost L m u v (deref_way m p)
             <? infinity)%float = true) as Hok'.
  { intros p v Hp%list_elem_of_In Hv%first_edge_neighbours%list_elem_of_In Hnv.
    rewrite forallb_forall in Hok.
    specialize (Hok p Hp). rewrite forallb_forall in Hok.
    specialize (Hok v Hv). by rewrite Hnv, Hfin in Hok. }
  clear Hok.
  assert (∀ l st1,
            (∀ p, p ∈ l → p ∈ n_ways (node_at m u)) →
            dinv m start st1 → cinv m start st1 → vis st1 u →
            d_dist st1 !!! Z.to_nat u = d_dist st !!! Z.to_nat u →
            d_visited st1 = d_visited st →
            let st2 := foldl (λ st p, explore_way L m u (deref_way m p) st) st1 l in
            cinv m start st2
            ∧ (∀ x, reached start st1 x → reached start st2 x)
            ∧ ∀ p v, p ∈ l → first_edge (deref_way m p) u v → reached start st2 v)
    as Hfold.
  { induction l as [|p l IH]; intros st1 Hl Hinv1 Hcinv1 Hvu1 Hd1 Hv1.
    { simpl. split; [done|]. split; [done|]. intros p v Hp. by apply elem_of_nil in Hp. }
    cbn [foldl]. cbv zeta.
    assert (p ∈ n_ways (node_at m u)) as Hp by (apply Hl; by left).
    destruct (explore_way_inv L m Hwf start st1 u p Hinv1 Hu Hvu1 Hp) as [Hinv2 Hvis2].
    destruct (explore_way_complete start st1 u p Hinv1 Hcinv1 Hu Hvu1 Hp)
      as (Hcinv2 & Hmono2 & Hd2 & Hhit2).
    { by rewrite Hd1. }
    { intros v Hv Hnv. rewrite Hd1. rewrite Hv1 in Hnv. by apply Hok'. }
    destruct (IH (explore_way L m u (deref_way m p) st1)) as (Hc3 & Hmono3 & Hhit3).
    { intros q Hq. apply Hl. by right. }
    { done. } { done. } { unfold vis. by rewrite Hvis2. } { by rewrite Hd2. }
    { by rewrite Hvis2. }
    split; [done|]. split; [intros x Hx; by apply Hmono3, Hmono2|].
    intros q v [->|Hq]%elem_of_cons Hqv.
    - by apply Hmono3, Hhit2.
    - by apply (Hhit3 q). }
  destruct (Hfold (n_ways (node_at m u)) st) as (Hc & Hmono & Hhit); try done.
  split; [done|]. split; [done|]. intros v (p & Hp & Hpv). by apply (Hhit p).
Qed.

(** Extracting and marking keeps [cinv]. *)
Lemma extract_mark_cinv start st :
  heap_ok (d_heap st) → cinv m start st → (0 < size (d_heap st))%nat →
  let u := hn_node_id (extract_min (d_heap st)).1 in
  cinv m start
    (mk_dstate (d_dist st) (<[Z.to_nat u := true]> (d_visited st))
               (d_parent st) (extract_min (d_heap st)).2)
  ∧ u ∈ heap_ids (d_heap st).
Proof.
  intros Hok [Hinf Hfin] Hpos u.
  destruct (extract_min_ids (d_heap st) Hok Hpos) as (Hperm & _ & _).
  fold u in Hperm. split; [|rewrite Hperm; by left].
  constructor; cbn [d_dist d_parent d_heap].
  - intros v Hv Hnr. by apply Hinf.
  - intros v Hv. apply Hfin. rewrite Hperm. by right.
Qed.

Lemma init_cinv start :
  in_range m start → cinv m start (dijkstra_init m start) ∧ closed m start (dijkstra_init m start).
Proof.
  intros Hs. destruct (init_heap_ok m start Hs) as [_ Hids]. split.
  - constructor.
    + intros v Hv Hnr. simpl.
      rewrite list_lookup_total_insert_ne.
      * apply lookup_total_replicate_2. by apply in_range_lt.
      * apply to_nat_ne; [apply Hs|apply Hv|]. intros ->. apply Hnr. by left.
    + intros v Hv. rewrite Hids in Hv. apply list_elem_of_singleton in Hv as ->.
      simpl. rewrite list_lookup_total_insert_eq; [done|].
      rewrite length_replicate. by apply in_range_lt.
  - intros u v Hu Hvis. unfold vis in Hvis. simpl in Hvis.
    rewrite lookup_total_replicate_2 in Hvis by (by apply in_range_lt). done.
Qed.

(** Under [no_overflow] every state at the test of the loop satisfies
    [cinv] and is closed. *)
Lemma loop_head_cinv start end_id st :
  in_range m start → no_overflow L m start end_id →
  loop_head L m start end_id st →
  cinv m start st ∧ closed m start st.
Proof.
  intros Hs Hno Hh. induction Hh as [|st Hh [Hc Hcl] Hpos Hne].
  { by apply init_cinv. }
  pose proof (Hno st Hh Hpos Hne) as Hrelax.
  pose proof (loop_head_heap_ok L m Hwf _ _ _ Hs Hh) as Hok.
  destruct (extract_mark_cinv start st Hok Hc Hpos) as [Hc1 Huin].
  unfold loop_round.
  set (u := hn_node_id (extract_min (d_heap st)).1) in *.
  set (st1 := mk_dstate (d_dist st) (<[Z.to_nat u := true]> (d_visited st))
                        (d_parent st) (extract_min (d_heap st)).2) in *.
  assert (dinv m start st1 ∧ in_range m u ∧ vis st1 u
          ∧ ∀ x, in_range m x → vis st1 x → x = u ∨ vis st x) as (Hinv1 & Hu & Hvu & Hvis).
  { destruct (loop_head_inv L m Hwf _ _ _ Hs Hh) as [_ [->|Hinv]].
    - pose proof (first_round_inv m Hwf start Hs) as Hfirst.
      cbv zeta in Hfirst. destruct Hfirst as (_ & Hu' & Hinv1 & _).
      fold u in Hu', Hinv1. fold st1 in Hinv1.
      split; [done|]. split; [by rewrite Hu'|].
      split; [rewrite Hu'; apply Hinv1|].
      intros x Hx Hxv. destruct (decide (x = u)) as [|Hne']; [by left|right].
      unfold vis, st1 in Hxv. cbn [d_visited] in Hxv.
      rewrite list_lookup_total_insert_ne in Hxv; [done|].
      apply to_nat_ne; [rewrite Hu'; apply Hs|apply Hx|done].
    - destruct (extract_mark_inv m Hwf start st Hinv Hpos) as (Hinv1 & Hu & Hvu & _).
      split; [done|]. split; [done|]. split; [done|].
      intros x Hx Hxv. destruct (decide (x = u)) as [|Hne']; [by left|right].
      unfold vis, st1 in Hxv. cbn [d_visited] in Hxv.
      rewrite list_lookup_total_insert_ne in Hxv; [done|].
      apply to_nat_ne; [apply Hu|apply Hx|done]. }
  destruct (explore_node_complete start st1 u Hinv1 Hc1 Hu Hvu) as (Hc2 & Hmono & Hhit).
  { by apply (c_fin _ _ _ Hc). }
  { done. }
  split; [done|].
  destruct (explore_node_inv L m Hwf start st1 u Hinv1 Hu Hvu) as [_ Hvis2].
  intros x v Hx Hxv Hxe. unfold vis in Hxv. rewrite Hvis2 in Hxv.
  destruct (Hvis x Hx Hxv) as [->|Hxv']; [by apply Hhit|].
  apply Hmono. by apply (Hcl x v).
Qed.
End completeness.

Section completeness_final.
Context (L : libm) (m : ssmap).
Hypothesis Hwf : wf_map m = true.

Lemma redge_in_range u v : in_range m u → redge m u v → in_range m v.
Proof.
  intros Hu He. destruct (redge_way m Hwf u v Hu He) as (p & w & _ & Hw & _ & Hs).
  apply step_lists in Hs as [_ Hv].
  destruct (wf_map_way _ _ _ _ Hwf Hw Hv) as (_ & n & Hn & _).
  by eapply get_node_range.
Qed.

Lemma connected_redge u v :
  (∀ w, is_way m w → NoDup (w_node_ids w)) → connected m u v → redge m u v.
Proof.
  intros Hnd (w & [j Hw] & Hs).
  pose proof (step_lists _ _ _ Hs) as [Hu _].
  destruct (wf_map_way _ _ _ _ Hwf Hw Hu) as (_ & n & Hn & Hj).
  exists j. rewrite (node_at_get _ _ _ Hn), (deref_way_lookup _ _ _ Hw).
  split; [done|].
  assert (NoDup (w_node_ids w)) as Hndw by (apply Hnd; by exists j).
  assert (∀ i : nat, w_node_ids w !! i = Some u → first_occurrence (w_node_ids w) u i)
    as Hfirst.
  { intros i Hi. split; [done|]. intros k Hk Hku.
    pose proof (NoDup_lookup _ _ _ _ Hndw Hi Hku). lia. }
  destruct Hs as (i & Hl & Hdir).
  assert (lists_at w i u v ∨ (w_one_way w = false ∧ lists_at w i v u)) as [[H1 H2]|[Ht [H1 H2]]].
  { destruct Hdir as [Ht|[_ ?]]; [|by left]. destruct Hl; [by left|by right]. }
  - exists i. split; [by apply Hfirst|by left].
  - exists (S i). split; [by apply Hfirst|right].
    split; [done|]. split; [lia|]. by replace (S i - 1)%nat with i by lia.
Qed.
End completeness_final.

(** The search ends with a parent for the end point when the end can be
    reached along the edges of the router. *)
Lemma search_reaches_end (L : libm) (m : ssmap) (start_id end_id : Z) :
  wf_map m = true → in_range m start_id → in_range m end_id →
  start_id ≠ end_id → no_overflow L m start_id end_id →
  rtc (redge m) start_id end_id →
  ∃ l, path_create_result L m start_id end_id = Some (PathFound l).
Proof.
  intros Hwf Hs He Hne Hno Hreach.
  destruct (path_create_result_spec L m Hwf start_id end_id Hs He Hne)
    as (st & Hst & [[Hp _]|(l & Hl & _)]); [|by exists l].
  exfalso.
  destruct (dijkstra_loop_head L m start_id end_id _ _ st
              (loop_head_init L m start_id end_id) Hst) as (st0 & Hh & Hexit).
  destruct (loop_exit_arrays _ _ _ Hexit) as [_ Hpar]. rewrite Hpar in Hp.
  destruct (loop_head_inv L m Hwf _ _ _ Hs Hh) as [Hq Hinv].
  destruct (loop_head_cinv L m Hwf _ _ _ Hs Hno Hh) as [Hc Hcl].
  pose proof (loop_head_heap_ok L m Hwf _ _ _ Hs Hh) as Hok.
  destruct Hexit as [[Hsz _]|(Hpos & Hu & _)].
  - destruct Hinv as [->|Hinv]; [by destruct (first_round_inv m Hwf _ Hs) as [? _]; lia|].
    assert (heap_ids (d_heap st0) = []) as Hnil.
    { apply nil_length_inv. by rewrite heap_ids_length. }
    assert (in_range m end_id ∧ vis st0 end_id) as [_ Hve].
    { apply (rtc_ind_r (R := redge m) (λ y, in_range m y ∧ vis st0 y) start_id);
        [| |done].
      - split; [done|]. apply Hinv.
      - intros x y _ Hxy [Hxr Hxv].
        assert (in_range m y) as Hy by (by eapply redge_in_range).
        split; [done|].
        destruct (Hcl x y Hxr Hxv Hxy) as [->|Hyp]; [apply Hinv|].
        destruct (q_queued _ _ _ _ Hq y Hy Hyp) as [|Hin]; [done|].
        rewrite Hnil in Hin. by apply elem_of_nil in Hin. }
    destruct (vis_reached m start_id st0 end_id Hinv He Hve) as [|]; congruence.
  - destruct (extract_min_ids (d_heap st0) Hok Hpos) as (Hperm & _ & _).
    assert (end_id ∈ heap_ids (d_heap st0)) as Hin by (rewrite Hperm, Hu; by left).
    destruct Hinv as [->|Hinv].
    + destruct (init_heap_ok m start_id Hs) as [_ Hids]. rewrite Hids in Hin.
      by apply list_elem_of_singleton in Hin.
    + by destruct (inv_heap _ _ _ Hinv _ Hin) as (_ & _ & ?).
Qed.

(** X10.  Unless a round computes [+∞] or a NaN, the router finds a path
    between two distinct points of a well-formed map whenever the end
    can be reached from the start along its edges, those next to the
    first occurrence of a point in a segment of its list. *)
Theorem router_finds_path (L : libm) (m : ssmap) (start_id end_id : Z) :
  wf_map m = true → point_exists m start_id → point_exists m end_id →
  start_id ≠ end_id → no_overflow L m start_id end_id →
  rtc (redge m) start_id end_id →
  ∃ l, path_create_result L m start_id end_id = Some (PathFound l)
       ∧ ssmap_path_create L m start_id end_id = Some (print_ids l +:+ nl).
Proof.
  intros Hwf [Hs _] [He _] Hne Hno Hreach.
  destruct (search_reaches_end L m start_id end_id Hwf Hs He Hne Hno Hreach)
    as [l Hl].
  exists l. split; [done|]. unfold ssmap_path_create. by rewrite Hl.
Qed.

(** X11.  On a well-formed map whose segments list no point twice, and unless
    a round computes [+∞] or a NaN, the router prints a path between two
    distinct points exactly when the end is reachable from the start;
    otherwise it prints nothing. *)
Theorem router_complete_simple_ways (L : libm) (m : ssmap) (start_id end_id : Z) :
  wf_map m = true → point_exists m start_id → point_exists m end_id →
  start_id ≠ end_id → (∀ w, is_way m w → NoDup (w_node_ids w)) →
  no_overflow L m start_id end_id →
  ((∃ l, ssmap_path_create L m start_id end_id = Some (print_ids l +:+ nl)
         ∧ path_create_result L m start_id end_id = Some (PathFound l))
   ↔ reachable m start_id end_id)
  ∧ (¬ reachable m start_id end_id →
     ssmap_path_create L m start_id end_id = Some ""
     ∧ path_create_result L m start_id end_id = Some PathNone).
Proof.
  intros Hwf [Hs _] [He _] Hne Hnd Hno.
  assert (∀ l, path_create_result L m start_id end_id = Some (PathFound l) →
               reachable m start_id end_id) as Hsound.
  { intros l Hl.
    destruct (path_create_result_spec L m Hwf start_id end_id Hs He Hne)
      as (st & _ & [[_ Hn]|(l' & Hl' & Hh & Hla & _ & Hall & Hedge)]); [congruence|].
    apply (chain_reachable _ l'); [done|done|].
    intros a b Hab. apply (redge_connected m Hwf); [|by apply Hedge].
    destruct Hab as (i & Hi & _). apply Hall. by eapply list_elem_of_lookup_2. }
  split; [split|].
  - intros (l & _ & Hl). by apply (Hsound l).
  - intros Hreach.
    destruct (search_reaches_end L m start_id end_id Hwf Hs He Hne Hno) as [l Hl].
    + eapply rtc_subrel; [|done]. intros u v. by apply connected_redge.
    + exists l. split; [|done]. unfold ssmap_path_create. by rewrite Hl.
  - intros Hnr.
    destruct (path_create_result_spec L m Hwf start_id end_id Hs He Hne)
      as (st & _ & [[_ Hn]|(l & Hl & _)]).
    + split; [|done]. unfold ssmap_path_create. by rewrite Hn.
    + destruct Hnr. by apply (Hsound l).
Qed.

Lemma scenario_loop_heads st :
  loop_head RefLibm.ref scenario 0 3 st →
  let s0 := dijkstra_init scenario 0 in
  let s1 := loop_round RefLibm.ref scenario s0 in
  let s2 := loop_round RefLibm.ref scenario s1 in
  let s3 := loop_round RefLibm.ref scenario s2 in
  let s4 := loop_round RefLibm.ref scenario s3 in
  st = s0 ∨ st = s1 ∨ st = s2 ∨ st = s3 ∨ st = s4.
Proof.
  intros Hh s0 s1 s2 s3 s4. induction Hh as [|st Hh IH Hpos Hne]; [by left|].
  destruct IH as [->|[->|[->|[->| ->]]]];
    [right; by left|right; right; by left|do 3 right; by left|by do 4 right|].
  exfalso. apply Hne. by vm_compute.
Qed.

Lemma scenario_no_overflow : no_overflow RefLibm.ref scenario 0 3.
Proof.
  intros st Hh Hpos.
  destruct (scenario_loop_heads st Hh) as [->|[->|[->|[->| ->]]]]; by vm_compute.
Qed.

Lemma scenario_simple_ways w : is_way scenario w → NoDup (w_node_ids w).
Proof.
  intros [[|[|[|j]]] Hj]; simplify_eq/=; apply (bool_decide_unpack _); by vm_compute.
Qed.

Lemma scenario_points (x : Z) : 0 ≤ x < 5 → point_exists scenario x.
Proof.
  intros Hx. split; [done|].
  assert (x = 0 ∨ x = 1 ∨ x = 2 ∨ x = 3 ∨ x = 4) as [->|[->|[->|[->| ->]]]] by lia;
    by eexists.
Qed.

(** On [dead_end] the search from point 0 to point 1 has two tests of
    its loop; the second extracts the end, and the segment of speed 0
    beyond it is never looked at. *)
Lemma dead_end_loop_heads st :
  loop_head RefLibm.ref dead_end 0 1 st →
  let s0 := dijkstra_init dead_end 0 in
  let s1 := loop_round RefLibm.ref dead_end s0 in
  st = s0 ∨ st = s1.
Proof.
  intros Hh s0 s1. induction Hh as [|st Hh IH Hpos Hne]; [by left|].
  destruct IH as [->| ->]; [by right|].
  exfalso. apply Hne. by vm_compute.
Qed.

Lemma dead_end_no_overflow : no_overflow RefLibm.ref dead_end 0 1.
Proof.
  intros st Hh Hpos Hne.
  destruct (dead_end_loop_heads st Hh) as [->| ->]; [by vm_compute|].
  exfalso. apply Hne. by vm_compute.
Qed.

Lemma dead_end_edges : rtc (redge dead_end) 0 1.
Proof.
  apply rtc_once. exists 0%nat. split; [by left|].
  exists 0%nat. split; [|by left]. split; [done|]. intros j Hj. lia.
Qed.

Lemma router_finds_path_witness :
  wf_map dead_end = true
  ∧ relax_ok RefLibm.ref dead_end
      (loop_round RefLibm.ref dead_end (dijkstra_init dead_end 0)) 1 = false
  ∧ ∃ l, path_create_result RefLibm.ref dead_end 0 1 = Some (PathFound l)
         ∧ ssmap_path_create RefLibm.ref dead_end 0 1 = Some (print_ids l +:+ nl).
Proof.
  split; [by vm_compute|]. split; [by vm_compute|].
  apply (router_finds_path RefLibm.ref dead_end 0 1).
  - by vm_compute.
  - split; [unfold num_nodes; simpl; lia|by eexists].
  - split; [unfold num_nodes; simpl; lia|by eexists].
  - done.
  - apply dead_end_no_overflow.
  - apply dead_end_edges.
Defined.

Lemma router_complete_simple_ways_witness :
  wf_map scenario = true
  ∧ ((∃ l, ssmap_path_create RefLibm.ref scenario 0 3 = Some (print_ids l +:+ nl)
           ∧ path_create_result RefLibm.ref scenario 0 3 = Some (PathFound l))
     ↔ reachable scenario 0 3)
  ∧ (¬ reachable scenario 0 3 →
     ssmap_path_create RefLibm.ref scenario 0 3 = Some ""
     ∧ path_create_result RefLibm.ref scenario 0 3 = Some PathNone).
Proof.
  split; [by vm_compute|].
  apply (router_complete_simple_ways RefLibm.ref scenario 0 3).
  - by vm_compute.
  - apply scenario_points. lia.
  - apply scenario_points. lia.
  - done.
  - apply scenario_simple_ways.
  - apply scenario_no_overflow.
Defined.

(** ** The printed path *)

(** X12.  Asked for a path from an existing point to itself, the router prints
    the point twice, and the validator rejects the printed sequence as a
    repetition. *)
Theorem router_same_point (L : libm) (m : ssmap) (s : Z) :
  point_exists m s →
  path_create_result L m s s = Some (PathSame s s)
  ∧ ssmap_path_create L m s s = Some (pretty s +:+ " " +:+ pretty s +:+ nl)
  ∧ ssmap_path_travel_time L m (printed_path (PathSame s s))
    = (err_twice s, (-1)%float).
Proof.
  intros Hs%node_missing_false.
  assert (path_create_result L m s s = Some (PathSame s s)) as Hr.
  { unfold path_create_result. by rewrite Hs, Z.eqb_refl. }
  split; [done|]. split; [unfold ssmap_path_create; by rewrite Hr|].
  unfold ssmap_path_travel_time. simpl. rewrite Hs. simpl.
  by rewrite Z.eqb_refl.
Qed.

Lemma router_same_point_witness :
  point_exists scenario 2
  ∧ path_create_result RefLibm.ref scenario 2 2 = Some (PathSame 2 2)
  ∧ ssmap_path_create RefLibm.ref scenario 2 2
    = Some (pretty 2 +:+ " " +:+ pretty 2 +:+ nl)
  ∧ ssmap_path_travel_time RefLibm.ref scenario (printed_path (PathSame 2 2))
    = (err_twice 2, (-1)%float).
Proof.
  assert (point_exists scenario 2) as H
    by (split; [unfold num_nodes; simpl; lia|by eexists]).
  split; [done|]. by apply (router_same_point RefLibm.ref scenario 2).
Defined.

(** X9.  What the router prints between two distinct points of a well-formed
    map is nothing, or one line listing a path that starts at the start,
    ends at the end, has at least two points, all of the map, and visits
    no point twice. *)
Theorem router_path_shape (L : libm) (m : ssmap) (start_id end_id : Z) :
  wf_map m = true → point_exists m start_id → point_exists m end_id →
  start_id ≠ end_id →
  ssmap_path_create L m start_id end_id = Some ""
  ∨ ∃ l, ssmap_path_create L m start_id end_id = Some (print_ids l +:+ nl)
         ∧ head l = Some start_id ∧ last l = Some end_id
         ∧ (2 ≤ length l)%nat ∧ NoDup l ∧ Forall (point_exists m) l.
Proof.
  intros Hwf [Hs _] [He _] Hne.
  destruct (path_create_result_spec L m Hwf start_id end_id Hs He Hne)
    as (st & _ & [[_ Hn]|(l & Hl & Hh & Hla & Hnd & Hall & _)]).
  - left. unfold ssmap_path_create. by rewrite Hn.
  - right. exists l. split; [unfold ssmap_path_create; by rewrite Hl|].
    split; [done|]. split; [done|]. split; [|split; [done|]].
    + destruct l as [|a [|b l]]; simpl in *; [done| |lia]. congruence.
    + apply Forall_forall. intros x Hx.
      apply node_missing_false, (node_missing_range m Hwf). by apply Hall.
Qed.

Lemma router_path_shape_witness :
  wf_map scenario = true
  ∧ ssmap_path_create RefLibm.ref scenario 0 3 = Some (print_ids [0; 1; 2; 3] +:+ nl)
  ∧ (ssmap_path_create RefLibm.ref scenario 0 3 = Some ""
     ∨ ∃ l, ssmap_path_create RefLibm.ref scenario 0 3 = Some (print_ids l +:+ nl)
            ∧ head l = Some 0 ∧ last l = Some 3
            ∧ (2 ≤ length l)%nat ∧ NoDup l ∧ Forall (point_exists scenario) l).
Proof.
  split; [by vm_compute|]. split; [by vm_compute|].
  apply (router_path_shape RefLibm.ref scenario 0 3);
    [by vm_compute| | |done];
    (split; [unfold num_nodes; simpl; lia|by eexists]).
Defined.

(** X13.  Asked for a path from or to a point that does not exist, the router
    prints the error line of the first such end point, the start first,
    and nothing else. *)
Theorem router_missing_point (L : libm) (m : ssmap) (start_id end_id : Z) :
  (¬ point_exists m start_id →
   ssmap_path_create L m start_id end_id = Some (err_not_exist start_id))
  ∧ (point_exists m start_id → ¬ point_exists m end_id →
     ssmap_path_create L m start_id end_id = Some (err_not_exist end_id)).
Proof.
  unfold ssmap_path_create, path_create_result. split.
  - intros Hs. destruct (node_missing m start_id) eqn:E; [done|].
    by apply node_missing_false in E.
  - intros Hs%node_missing_false He. rewrite Hs.
    destruct (node_missing m end_id) eqn:E; [done|].
    by apply node_missing_false in E.
Qed.

(** ** The validator *)

Section validator_more.
Implicit Types (m : ssmap) (path l : list Z).

Lemma adjacent_pairs_app l1 x l2 :
  adjacent_pairs (l1 ++ x :: l2)
  = adjacent_pairs (l1 ++ [x]) ++ adjacent_pairs (x :: l2).
Proof.
  induction l1 as [|a l1 IH]; [done|].
  destruct l1 as [|b l1]; [done|].
  change ((a, b) :: adjacent_pairs ((b :: l1) ++ x :: l2)
          = (a, b) :: adjacent_pairs ((b :: l1) ++ [x]) ++ adjacent_pairs (x :: l2)).
  by rewrite IH.
Qed.

Lemma valid_split m l1 x l2 :
  verdict_holds m (l1 ++ x :: l2) Valid
  ↔ NoDup (l1 ++ x :: l2)
    ∧ verdict_holds m (l1 ++ [x]) Valid ∧ verdict_holds m (x :: l2) Valid.
Proof.
  unfold verdict_holds. rewrite adjacent_pairs_app, !Forall_app, !Forall_cons.
  split.
  - intros ((H1 & Hx & H2) & Hnd & (Ha1 & Ha2) & (Hb1 & Hb2) & (Hc1 & Hc2)).
    split; [done|]. split.
    + split; [by rewrite Forall_nil|]. split; [|done].
      apply NoDup_app in Hnd as (Hn1 & Hd & Hn2).
      apply NoDup_app. split; [done|]. split; [|apply NoDup_singleton].
      intros y Hy ->%list_elem_of_singleton. apply (Hd x Hy). by left.
    + split; [done|]. split; [|done].
      by apply NoDup_app in Hnd as (_ & _ & ?).
  - intros (Hnd & ((H1 & Hx & _) & _ & Ha1 & Hb1 & Hc1)
                & ((_ & H2) & _ & Ha2 & Hb2 & Hc2)).
    done.
Qed.

Lemma consecutive_reverse l u v : consecutive (reverse l) u v ↔ consecutive l v u.
Proof.
  assert (∀ l u v, consecutive (reverse l) u v → consecutive l v u) as Hone.
  { clear. intros l u v (i & [Hu Hi]%reverse_lookup_Some & [Hv Hi']%reverse_lookup_Some).
    exists (length l - S (S i))%nat. split; [done|].
    by replace (S (length l - S (S i)))%nat with (length l - S i)%nat by lia. }
  split; [apply Hone|]. intros H. apply Hone. by rewrite reverse_involutive.
Qed.

Lemma step_two_way (w : way) u v : w_one_way w = false → step w u v → step w v u.
Proof.
  intros Hw (i & Hl & _). exists i. split; [tauto|by left].
Qed.

Lemma valid_reverse m l :
  wf_map m = true → (∀ w, is_way m w → w_one_way w = false) →
  verdict_holds m l Valid → verdict_holds m (reverse l) Valid.
Proof.
  intros Hwf Htwo (Hex & Hnd & Ha & Hb & Hc).
  assert (Forall (point_exists m) (reverse l)) as Hex'.
  { rewrite Forall_forall in *. intros x Hx. apply Hex. by apply elem_of_reverse. }
  assert (∀ (P : Z * Z → Prop),
            (∀ u v, point_exists m u → point_exists m v → P (v, u) → P (u, v)) →
            Forall P (adjacent_pairs l) → Forall P (adjacent_pairs (reverse l)))
    as Hflip.
  { intros P HP HF. rewrite Forall_forall in HF. apply Forall_forall.
    intros [u v] Huv%consecutive_pairs.
    pose proof (proj1 (consecutive_reverse l u v) Huv) as Hvu.
    destruct Hvu as (i & Hv & Hu).
    rewrite Forall_forall in Hex.
    apply HP.
    - apply Hex. by eapply list_elem_of_lookup_2.
    - apply Hex. by eapply list_elem_of_lookup_2.
    - apply HF. apply consecutive_pairs. by exists i. }
  split; [done|]. split; [by rewrite reverse_Permutation|].
  split; [|split]; apply Hflip; try done; intros u v Hu Hv HP;
    destruct (pair_passes_spec m Hwf u v Hu Hv) as (E1 & E2 & E3);
    destruct (pair_passes_spec m Hwf v u Hv Hu) as (F1 & F2 & F3).
  - apply E1. apply F1 in HP as (w & ? & ? & ?). by exists w.
  - apply E2. apply F2 in HP as (w & i & ? & ?). exists w, i. tauto.
  - apply E3. apply F3 in HP as (w & Hw & Hs). exists w. split; [done|].
    apply step_two_way; [by apply Htwo|done].
Qed.
End validator_more.

(** X14.  A sequence of no point gives travel time 0; so does a single
    existing point; a single missing point is reported. *)
Theorem travel_time_short (L : libm) (m : ssmap) (x : Z) :
  ssmap_path_travel_time L m [] = ("", 0%float)
  ∧ ssmap_path_travel_time L m [x]
    = if node_missing m x then (err_not_exist x, (-1)%float) else ("", 0%float).
Proof.
  split; [done|]. unfold ssmap_path_travel_time. simpl.
  destruct (node_missing m x); [done|]. by rewrite Z.eqb_refl.
Qed.

(** X15.  A sequence passes the validation exactly when it repeats no point
    and its two parts on either side of any of its points pass. *)
Theorem validation_splits (L : libm) (m : ssmap) (l1 l2 : list Z) (x : Z) :
  (ssmap_path_travel_time L m (l1 ++ x :: l2)).1 = ""
  ↔ NoDup (l1 ++ x :: l2)
    ∧ (ssmap_path_travel_time L m (l1 ++ [x])).1 = ""
    ∧ (ssmap_path_travel_time L m (x :: l2)).1 = "".
Proof. rewrite !travel_time_valid. apply valid_split. Qed.

(** X16.  On a map without one-way segments a sequence passes the validation
    exactly when the reversed sequence does. *)
Theorem validation_reverse_two_way (L : libm) (m : ssmap) (path : list Z) :
  wf_map m = true → (∀ w, is_way m w → w_one_way w = false) →
  (ssmap_path_travel_time L m (reverse path)).1 = ""
  ↔ (ssmap_path_travel_time L m path).1 = "".
Proof.
  intros Hwf Htwo. rewrite !travel_time_valid. split.
  - intros H. rewrite <- (reverse_involutive path). by apply valid_reverse.
  - by apply valid_reverse.
Qed.

Lemma parallel_two_way w : is_way parallel w → w_one_way w = false.
Proof. intros [[|[|j]] Hj]; by simplify_eq/=. Qed.

Lemma validation_reverse_two_way_witness :
  wf_map parallel = true
  ∧ (ssmap_path_travel_time RefLibm.ref parallel [0; 1]).1 = ""
  ∧ ((ssmap_path_travel_time RefLibm.ref parallel (reverse [0; 1])).1 = ""
     ↔ (ssmap_path_travel_time RefLibm.ref parallel [0; 1]).1 = "").
Proof.
  split; [by vm_compute|]. split; [by vm_compute|].
  apply (validation_reverse_two_way RefLibm.ref parallel [0; 1]);
    [by vm_compute|apply parallel_two_way].
Defined.

(** X17.  When a sequence passes the validation on a well-formed map, each of
    its points is joined to the next by a step, so its last point is
    reachable from its first. *)
Theorem validated_path_reachable (L : libm) (m : ssmap) (path : list Z) (s e : Z) :
  wf_map m = true → (ssmap_path_travel_time L m path).1 = "" →
  head path = Some s → last path = Some e →
  (∀ u v, consecutive path u v → connected m u v) ∧ reachable m s e.
Proof.
  intros Hwf Hval%travel_time_valid Hs He.
  destruct Hval as (Hex & _ & _ & _ & Hc).
  assert (∀ u v, consecutive path u v → connected m u v) as Hstep.
  { intros u v Huv. pose proof Huv as (i & Hu & Hv).
    rewrite Forall_forall in Hex. rewrite Forall_forall in Hc.
    apply (pair_passes_spec m Hwf u v).
    - apply Hex. by eapply list_elem_of_lookup_2.
    - apply Hex. by eapply list_elem_of_lookup_2.
    - apply Hc. by apply consecutive_pairs. }
  split; [done|]. by apply (chain_reachable _ path).
Qed.

Lemma validated_path_reachable_witness :
  wf_map scenario = true
  ∧ (ssmap_path_travel_time RefLibm.ref scenario [0; 1; 2; 3]).1 = ""
  ∧ (∀ u v, consecutive [0; 1; 2; 3] u v → connected scenario u v)
  ∧ reachable scenario 0 3.
Proof.
  split; [by vm_compute|]. split; [by vm_compute|].
  apply (validated_path_reachable RefLibm.ref scenario [0; 1; 2; 3] 0 3);
    by vm_compute.
Defined.

(** ** Search by name *)

Section names_more.
Implicit Types (m : ssmap) (s t : string).

Lemma collect_ways_fold_none m name1 (l a1 a2 : list Z) :
  foldl (λ '(ways1, ways2) i,
    if strstr_found (w_name (way_at m i)) name1 then
      (ways1 ++ [i], if name_matches m None i then ways2 ++ [i] else ways2)
    else if name_matches m None i then (ways1, ways2 ++ [i])
    else (ways1, ways2)) (a1, a2) l
  = (a1 ++ List.filter (λ i, strstr_found (w_name (way_at m i)) name1) l, a2).
Proof.
  revert a1. induction l as [|i l IH]; intros a1.
  - simpl. by rewrite !app_nil_r.
  - cbn [foldl List.filter name_matches].
    destruct (strstr_found (w_name (way_at m i)) name1);
      cbn [name_matches] in IH; rewrite IH; by rewrite <- ?app_assoc.
Qed.

Lemma collect_ways_none m name1 :
  collect_ways m name1 None
  = (List.filter (λ i, strstr_found (w_name (way_at m i)) name1) (seqZ 0 (num_ways m)),
     []).
Proof. unfold collect_ways. by rewrite collect_ways_fold_none. Qed.

Lemma touches_name1_spec (ways1 ids : list Z) :
  touches_name1 ways1 ids = true ↔ ∃ a, a ∈ ids ∧ a ∈ ways1.
Proof.
  unfold touches_name1. rewrite existsb_elem_of. split.
  - intros (wj & Hj & (w1 & H1 & ->%Z.eqb_eq)%existsb_elem_of). by exists w1.
  - intros (a & Ha & H1). exists a. split; [done|].
    apply existsb_elem_of. exists a. split; [done|]. apply Z.eqb_refl.
Qed.

Lemma touches_both_sym (ways1 ways2 ids : list Z) :
  touches_both ways1 ways2 ids = touches_both ways2 ways1 ids.
Proof.
  apply eq_true_iff_eq. rewrite !touches_both_spec.
  split; intros (a & b & ? & ? & ? & ? & ?); exists b, a; repeat split; try done;
    congruence.
Qed.

Lemma find_node_by_names_ids_sym m name1 name2 :
  find_node_by_names_ids m name1 (Some name2)
  = find_node_by_names_ids m name2 (Some name1).
Proof.
  unfold find_node_by_names_ids. rewrite !collect_ways_spec.
  apply filter_ext. intros i. apply touches_both_sym.
Qed.

Lemma find_way_by_name_ids_spec m name i :
  i ∈ find_way_by_name_ids m name
  ↔ ∃ w, get_way m i = Some w ∧ contains (w_name w) name.
Proof.
  unfold find_way_by_name_ids. rewrite elem_of_filter_b, elem_of_seqZ. split.
  - intros [_ H]. destruct (get_way m i) as [w|]; [|done].
    exists w. split; [done|]. by apply strstr_found_spec.
  - intros (w & Hw & Hc). rewrite Hw. split; [|by apply strstr_found_spec].
    unfold get_way in Hw. destruct (i <? 0) eqn:E; [done|].
    apply Z.ltb_ge in E.
    destruct (m_ways m !! Z.to_nat i) as [ow|] eqn:El; [|done].
    apply lookup_lt_Some in El. unfold num_ways. lia.
Qed.

Lemma contains_empty s : contains s "".
Proof. by exists "", s. Qed.

Context (m : ssmap) (Hwf : wf_map m = true).

Lemma find_node_by_name_ids_spec name1 i :
  i ∈ find_node_by_names_ids m name1 None
  ↔ 0 ≤ i < num_nodes m ∧ touches_one m name1 i.
Proof.
  unfold find_node_by_names_ids. rewrite collect_ways_none.
  rewrite elem_of_filter_b, elem_of_seqZ, touches_name1_spec.
  assert (0 ≤ i < num_nodes m →
          ∀ p, p ∈ n_ways (node_at m i) →
               w_id (deref_way m p) = Z.of_nat p
               ∧ 0 ≤ Z.of_nat p < 0 + num_ways m) as Hways.
  { intros Hi p Hp. destruct (in_range_exists m Hwf i Hi) as [n Hn].
    rewrite (node_at_get _ _ _ Hn) in Hp.
    destruct (wf_map_node _ _ _ _ Hwf Hn Hp) as (w & Hw & _).
    rewrite (deref_way_lookup _ _ _ Hw), (wf_map_way_id _ _ _ Hwf Hw).
    apply lookup_lt_Some in Hw. unfold num_ways. lia. }
  split; intros [Hi H]; (split; [lia|]); assert (0 ≤ i < num_nodes m) as Hi' by lia;
    specialize (Hways Hi').
  - destruct H as (a & Ha & H1).
    unfold node_way_ids in Ha. apply list_elem_of_fmap in Ha as (p & -> & Hp).
    destruct (Hways p Hp) as [Hidp _]. rewrite Hidp in *.
    apply elem_of_filter_b in H1 as [_ H1]. rewrite way_at_deref in H1.
    exists p. split; [done|]. by apply strstr_found_spec.
  - destruct H as (p & Hp & H1). destruct (Hways p Hp) as [Hidp Hrp].
    exists (Z.of_nat p).
    split; [unfold node_way_ids; apply list_elem_of_fmap; by exists p|].
    rewrite elem_of_filter_b, elem_of_seqZ, way_at_deref, strstr_found_spec.
    split; [lia|done].
Qed.
End names_more.

(** X18.  [ssmap_find_way_by_name] prints, each once and in increasing order,
    the identifiers of the existing segments whose name contains the
    given string; the empty string selects every existing segment. *)
Theorem find_way_by_name_lists_matches (m : ssmap) (name : string) :
  ∃ ids, ssmap_find_way_by_name m name = print_ids ids +:+ nl
         ∧ StronglySorted Z.lt ids
         ∧ (∀ i, i ∈ ids ↔ ∃ w, get_way m i = Some w ∧ contains (w_name w) name)
         ∧ (name = "" → ∀ i, i ∈ ids ↔ is_Some (get_way m i)).
Proof.
  exists (find_way_by_name_ids m name). split; [done|]. split; [|split].
  - unfold find_way_by_name_ids.
    assert (∀ (f : Z → bool) l, StronglySorted Z.lt l →
              StronglySorted Z.lt (List.filter f l)) as Hf.
    { intros f l. induction 1 as [|x l Hl IH Hx]; simpl; [constructor|].
      destruct (f x); [|done]. constructor; [done|].
      rewrite Forall_forall in *. intros y [Hy _]%elem_of_filter_b. by apply Hx. }
    apply Hf. unfold seqZ.
    generalize 0%nat. induction (Z.to_nat (num_ways m)) as [|n IH]; intros k;
      simpl; constructor.
    + apply IH.
    + apply Forall_forall. intros y (j & -> & Hj)%list_elem_of_fmap.
      apply elem_of_seq in Hj. lia.
  - apply find_way_by_name_ids_spec.
  - intros -> i. rewrite find_way_by_name_ids_spec. split.
    + intros (w & Hw & _). by exists w.
    + intros [w Hw]. exists w. split; [done|]. apply contains_empty.
Qed.

(** X19.  With no second name, [ssmap_find_node_by_names] prints, each once,
    the points that touch a segment whose name contains the first name:
    each of them lies on a segment that [ssmap_find_way_by_name] lists
    for that name, and every point the two-name search prints is among
    them. *)
Theorem one_name_search_touching (m : ssmap) (name1 : string) :
  wf_map m = true →
  ∃ ids, ssmap_find_node_by_names m name1 None = print_ids ids +:+ nl
         ∧ NoDup ids
         ∧ (∀ i, i ∈ ids ↔ 0 ≤ i < num_nodes m ∧ touches_one m name1 i)
         ∧ (∀ i, i ∈ ids →
              ∃ p, p ∈ n_ways (node_at m i)
                   ∧ Z.of_nat p ∈ find_way_by_name_ids m name1)
         ∧ ∀ name2 i, i ∈ find_node_by_names_ids m name1 (Some name2) → i ∈ ids.
Proof.
  intros Hwf. exists (find_node_by_names_ids m name1 None).
  split; [done|]. split; [apply find_node_by_names_ids_NoDup|]. split; [|split].
  - apply (find_node_by_name_ids_spec m Hwf).
  - intros i (Hi & p & Hp & Hc)%(find_node_by_name_ids_spec m Hwf).
    exists p. split; [done|]. apply find_way_by_name_ids_spec.
    destruct (in_range_exists m Hwf i Hi) as [n Hn].
    rewrite (node_at_get _ _ _ Hn) in Hp.
    destruct (wf_map_node _ _ _ _ Hwf Hn Hp) as (w & Hw & _).
    rewrite (deref_way_lookup _ _ _ Hw) in Hc. exists w. split; [|done].
    unfold get_way. rewrite (proj2 (Z.ltb_ge (Z.of_nat p) 0)) by lia.
    by rewrite Nat2Z.id, Hw.
  - intros name2 i Hi.
    apply (find_node_by_names_ids_spec m Hwf) in Hi as (Hr & p & q & Hp & _ & _ & Hc & _).
    apply (find_node_by_name_ids_spec m Hwf). split; [done|]. by exists p.
Qed.

Lemma one_name_search_touching_witness :
  wf_map scenario = true
  ∧ ssmap_find_node_by_names scenario "Oak" None = "1 4 " +:+ nl
  ∧ ∃ ids, ssmap_find_node_by_names scenario "Oak" None = print_ids ids +:+ nl
         ∧ NoDup ids
         ∧ (∀ i, i ∈ ids ↔ 0 ≤ i < num_nodes scenario ∧ touches_one scenario "Oak" i)
         ∧ (∀ i, i ∈ ids →
              ∃ p, p ∈ n_ways (node_at scenario i)
                   ∧ Z.of_nat p ∈ find_way_by_name_ids scenario "Oak")
         ∧ ∀ name2 i, i ∈ find_node_by_names_ids scenario "Oak" (Some name2) → i ∈ ids.
Proof.
  split; [by vm_compute|]. split; [by vm_compute|].
  apply (one_name_search_touching scenario "Oak"). by vm_compute.
Defined.

(** X20.  The two-name search does not depend on the order of the names. *)
Theorem two_name_search_symmetric (m : ssmap) (name1 name2 : string) :
  ssmap_find_node_by_names m name1 (Some name2)
  = ssmap_find_node_by_names m name2 (Some name1).
Proof.
  unfold ssmap_find_node_by_names. by rewrite find_node_by_names_ids_sym.
Qed.

(** ** Building the map *)

Section builder.
Implicit Types (m : ssmap) (ws : list way) (ns : list (Z * float * float * list Z)).

Lemma add_way_nodes m id name sp ow ids :
  m_nodes (ssmap_add_way m id name sp ow ids) = m_nodes m
  ∧ length (m_ways (ssmap_add_way m id name sp ow ids)) = length (m_ways m).
Proof.
  unfold ssmap_add_way. destruct (id <? 0); [done|]. simpl.
  by rewrite length_insert.
Qed.

Lemma add_node_ways m id lat lon wids :
  m_ways (ssmap_add_node m id lat lon wids) = m_ways m
  ∧ length (m_nodes (ssmap_add_node m id lat lon wids)) = length (m_nodes m).
Proof.
  unfold ssmap_add_node. destruct (id <? 0); [done|]. simpl.
  by rewrite length_insert.
Qed.

Lemma add_ways_frame m ws :
  m_nodes (add_ways m ws) = m_nodes m
  ∧ length (m_ways (add_ways m ws)) = length (m_ways m).
Proof.
  revert m. induction ws as [|w ws IH]; intros m; [done|].
  simpl. destruct (IH (ssmap_add_way m (w_id w) (w_name w) (w_max_speed w)
                         (w_one_way w) (w_node_ids w))) as [-> ->].
  apply add_way_nodes.
Qed.

Lemma add_nodes_frame m ns :
  m_ways (add_nodes m ns) = m_ways m
  ∧ length (m_nodes (add_nodes m ns)) = length (m_nodes m).
Proof.
  revert m. induction ns as [|[[[id lat] lon] wids] ns IH]; intros m; [done|].
  simpl. destruct (IH (ssmap_add_node m id lat lon wids)) as [-> ->].
  apply add_node_ways.
Qed.

Lemma add_ways_lookup m ws w :
  NoDup (w_id <$> ws) → w ∈ ws → 0 ≤ w_id w < num_ways m →
  m_ways (add_ways m ws) !! Z.to_nat (w_id w) = Some (Some w).
Proof.
  revert m. induction ws as [|w' ws IH]; intros m Hnd Hin Hr; [by apply elem_of_nil in Hin|].
  rewrite fmap_cons in Hnd. apply NoDup_cons in Hnd as [Hnin Hnd].
  simpl. apply elem_of_cons in Hin as [->|Hin].
  - clear IH. unfold ssmap_add_way at 1.
    destruct (w_id w' <? 0) eqn:E; [apply Z.ltb_lt in E; lia|].
    assert (∀ m1 : ssmap,
              0 ≤ w_id w' → (∀ x, x ∈ ws → w_id x ≠ w_id w') →
              m_ways m1 !! Z.to_nat (w_id w') = Some (Some w') →
              m_ways (add_ways m1 ws) !! Z.to_nat (w_id w') = Some (Some w')) as Hkeep.
    { clear. induction ws as [|x ws IH]; intros m1 H0 Hne Hl; [done|].
      simpl. apply IH; [done|intros y Hy; apply Hne; by right|].
      unfold ssmap_add_way. destruct (w_id x <? 0) eqn:E; [done|]. simpl.
      apply Z.ltb_ge in E. rewrite list_lookup_insert_ne; [done|].
      assert (w_id x ≠ w_id w') by (apply Hne; by left). lia. }
    apply Hkeep; [lia| |].
    + intros x Hx Heq. apply Hnin. rewrite <- Heq. apply list_elem_of_fmap. by exists x.
    + simpl. destruct w'. simpl in *. apply list_lookup_insert_eq.
      unfold num_ways in Hr. lia.
  - apply IH; [done|done|]. unfold num_ways in *.
    by rewrite (proj2 (add_way_nodes _ _ _ _ _ _)).
Qed.

Lemma way_slot_length m1 m2 wid :
  length (m_ways m1) = length (m_ways m2) → way_slot m1 wid = way_slot m2 wid.
Proof. unfold way_slot. by intros ->. Qed.

Lemma add_nodes_lookup m ns id lat lon wids :
  NoDup ((λ a, a.1.1.1) <$> ns) → (id, lat, lon, wids) ∈ ns → 0 ≤ id < num_nodes m →
  m_nodes (add_nodes m ns) !! Z.to_nat id
  = Some (Some (mk_node id lat lon (way_slot m <$> wids))).
Proof.
  revert m. induction ns as [|a ns IH]; intros m Hnd Hin Hr; [by apply elem_of_nil in Hin|].
  rewrite fmap_cons in Hnd. apply NoDup_cons in Hnd as [Hnin Hnd].
  destruct a as [[[id' lat'] lon'] wids']. simpl in Hnin.
  simpl. apply elem_of_cons in Hin as [Heq|Hin].
  - simplify_eq. clear IH. unfold ssmap_add_node at 1.
    destruct (id' <? 0) eqn:E; [apply Z.ltb_lt in E; lia|].
    assert (∀ (m1 : ssmap) n,
              (∀ x, x ∈ ns → x.1.1.1 ≠ id') →
              m_nodes m1 !! Z.to_nat id' = Some n →
              m_nodes (add_nodes m1 ns) !! Z.to_nat id' = Some n) as Hkeep.
    { clear -Hr. induction ns as [|[[[i la] lo] ws] ns IH]; intros m1 n Hne Hl; [done|].
      simpl. apply IH; [intros y Hy; apply Hne; by right|].
      unfold ssmap_add_node. destruct (i <? 0) eqn:E; [done|]. simpl.
      apply Z.ltb_ge in E. rewrite list_lookup_insert_ne; [done|].
      assert (i ≠ id') by (apply (Hne (i, la, lo, ws)); by left). lia. }
    apply Hkeep.
    + intros x Hx Heq. apply Hnin. rewrite <- Heq. apply list_elem_of_fmap. by exists x.
    + simpl. apply list_lookup_insert_eq. unfold num_nodes in Hr. lia.
  - destruct (add_node_ways m id' lat' lon' wids') as [Hw Hl].
    rewrite (IH (ssmap_add_node m id' lat' lon' wids')); [|done|done|].
    + do 3 f_equal. apply list_fmap_ext. intros _ wid _.
      apply way_slot_length. by rewrite Hw.
    + unfold num_nodes in *. by rewrite Hl.
Qed.

Lemma forallbi_intro {A} (f : nat → A → bool) (i0 : nat) (l : list A) :
  (∀ (k : nat) x, l !! k = Some x → f (i0 + k)%nat x = true) → forallbi f i0 l = true.
Proof.
  revert i0. induction l as [|x l IH]; intros i0 H; [done|].
  simpl. apply andb_true_iff. split.
  - specialize (H 0%nat x eq_refl). by rewrite Nat.add_0_r in H.
  - apply IH. intros k y Hy. specialize (H (S k) y Hy).
    by replace (S i0 + k)%nat with (i0 + S k)%nat by lia.
Qed.

Lemma links_ok_spec ws ns :
  links_ok ws ns = true →
  (∀ id lat lon wids wid, (id, lat, lon, wids) ∈ ns → wid ∈ wids →
     ∃ w, w ∈ ws ∧ w_id w = wid ∧ id ∈ w_node_ids w)
  ∧ (∀ w v, w ∈ ws → v ∈ w_node_ids w →
       ∃ lat lon wids, (v, lat, lon, wids) ∈ ns ∧ w_id w ∈ wids).
Proof.
  unfold links_ok. intros [H1 H2]%andb_true_iff.
  rewrite forallb_forall in H1, H2. split.
  - intros id lat lon wids wid Hin%list_elem_of_In Hwid%list_elem_of_In.
    specialize (H1 _ Hin). simpl in H1. rewrite forallb_forall in H1.
    specialize (H1 _ Hwid). apply existsb_elem_of in H1 as (w & Hw & [E1 E2]%andb_true_iff).
    apply Z.eqb_eq in E1. apply existsb_elem_of in E2 as (x & Hx & ->%Z.eqb_eq).
    by exists w.
  - intros w v Hw%list_elem_of_In Hv%list_elem_of_In.
    specialize (H2 _ Hw). rewrite forallb_forall in H2. specialize (H2 _ Hv).
    apply existsb_elem_of in H2 as ([[[id lat] lon] wids] & Hin & [E1 E2]%andb_true_iff).
    apply Z.eqb_eq in E1. subst. apply existsb_elem_of in E2 as (x & Hx & ->%Z.eqb_eq).
    by exists lat, lon, wids.
Qed.
End builder.

(** X23.  A map filled by adding every way and then every node, one call for
    each slot and with ways and nodes that refer to each other, is
    well-formed, whatever the arrays held before. *)
Theorem loader_builds_well_formed (m0 : ssmap) (ws : list way)
    (ns : list (Z * float * float * list Z)) :
  w_id <$> ws ≡ₚ seqZ 0 (num_ways m0) →
  (λ a, a.1.1.1) <$> ns ≡ₚ seqZ 0 (num_nodes m0) →
  links_ok ws ns = true →
  wf_map (add_nodes (add_ways m0 ws) ns) = true
  ∧ num_ways (add_nodes (add_ways m0 ws) ns) = num_ways m0
  ∧ num_nodes (add_nodes (add_ways m0 ws) ns) = num_nodes m0.
Proof.
  intros Hpw Hpn [Hnw Hwn]%links_ok_spec.
  destruct (add_ways_frame m0 ws) as [Hn1 Hl1].
  destruct (add_nodes_frame (add_ways m0 ws) ns) as [Hw2 Hl2].
  set (m1 := add_ways m0 ws) in *. set (m := add_nodes m1 ns) in *.
  assert (NoDup (w_id <$> ws)) as Hndw by (rewrite Hpw; apply NoDup_seqZ).
  assert (NoDup ((λ a, a.1.1.1) <$> ns)) as Hndn by (rewrite Hpn; apply NoDup_seqZ).
  assert (∀ w, w ∈ ws → 0 ≤ w_id w < num_ways m0) as Hrw.
  { intros w Hw. assert (w_id w ∈ seqZ 0 (num_ways m0)) as Hin.
    { rewrite <- Hpw. apply list_elem_of_fmap. by exists w. }
    apply elem_of_seqZ in Hin. lia. }
  assert (∀ a, a ∈ ns → 0 ≤ a.1.1.1 < num_nodes m0) as Hrn.
  { intros a Ha. assert (a.1.1.1 ∈ seqZ 0 (num_nodes m0)) as Hin.
    { rewrite <- Hpn. apply list_elem_of_fmap. by exists a. }
    apply elem_of_seqZ in Hin. lia. }
  assert (∀ w, w ∈ ws → m_ways m !! Z.to_nat (w_id w) = Some (Some w)) as Hway.
  { intros w Hw. rewrite Hw2. apply add_ways_lookup; [done|done|by apply Hrw]. }
  assert (∀ id lat lon wids, (id, lat, lon, wids) ∈ ns →
            m_nodes m !! Z.to_nat id
            = Some (Some (mk_node id lat lon (way_slot m1 <$> wids)))) as Hnode.
  { intros id lat lon wids Hin. apply add_nodes_lookup; [done|done|].
    unfold num_nodes. rewrite Hn1. apply (Hrn _ Hin). }
  assert (∀ w, w ∈ ws → way_slot m1 (w_id w) = Z.to_nat (w_id w)) as Hslot.
  { intros w Hw. unfold way_slot. specialize (Hrw w Hw).
    destruct (w_id w <? 0) eqn:E; [apply Z.ltb_lt in E; lia|done]. }
  split; [|split; [unfold num_ways; by rewrite Hw2, Hl1
                  |unfold num_nodes; by rewrite Hl2, Hn1]].
  unfold wf_map. apply andb_true_iff. split; apply forallbi_intro; intros k x Hk.
  - assert (Z.of_nat k ∈ (λ a, a.1.1.1) <$> ns) as Hin.
    { rewrite Hpn. apply elem_of_seqZ. apply lookup_lt_Some in Hk.
      unfold num_nodes. rewrite <- Hn1, <- Hl2. fold m. lia. }
    apply list_elem_of_fmap in Hin as ([[[id lat] lon] wids] & Hid & Hin).
    simpl in Hid. subst id. pose proof (Hnode _ _ _ _ Hin) as Hn.
    rewrite Nat2Z.id, Hk in Hn.
    simplify_eq. simpl. rewrite Z.eqb_refl. simpl.
    apply forallb_forall. intros p Hp%list_elem_of_In.
    apply list_elem_of_fmap in Hp as (wid & -> & Hwid).
    destruct (Hnw _ _ _ _ _ Hin Hwid) as (w & Hw & <- & Hiw).
    rewrite (Hslot w Hw), (Hway w Hw).
    apply existsb_elem_of. exists (Z.of_nat k). split; [done|]. apply Z.eqb_refl.
  - assert (Z.of_nat k ∈ w_id <$> ws) as Hin.
    { rewrite Hpw. apply elem_of_seqZ. apply lookup_lt_Some in Hk.
      unfold num_ways. rewrite <- Hl1. fold m1. rewrite <- Hw2. lia. }
    apply list_elem_of_fmap in Hin as (w & Hid & Hin).
    pose proof (Hway w Hin) as Hw. rewrite <- Hid, Nat2Z.id in Hw.
    rewrite Hw in Hk. simplify_eq. simpl. rewrite <- Hid, Z.eqb_refl. simpl.
    apply forallb_forall. intros v Hv%list_elem_of_In.
    destruct (Hwn w v Hin Hv) as (lat & lon & wids & Hvn & Hwid).
    pose proof (Hrn _ Hvn) as Hvr. simpl in Hvr.
    unfold get_node. destruct (v <? 0) eqn:E; [apply Z.ltb_lt in E; lia|].
    rewrite (Hnode _ _ _ _ Hvn). simpl.
    apply existsb_elem_of. exists k. split; [|apply Nat.eqb_refl].
    apply list_elem_of_fmap. exists (w_id w). split; [|done].
    rewrite (Hslot w Hin), <- Hid. by rewrite Nat2Z.id.
Qed.

Lemma loader_builds_well_formed_witness :
  let m0 := mk_ssmap (replicate 5 None) (replicate 3 None) in
  let ws := [ mk_way 2 "Oak" 30 false [1; 4];
              mk_way 0 "Main" 60 false [0; 1; 2];
              mk_way 1 "Main St" 60 true [2; 3] ] in
  let ns := [ (0, 0%float, 0%float, [0]);
              (1, 0%float, step_deg, [0; 2]);
              (2, 0%float, (2 * step_deg)%float, [0; 1]);
              (3, step_deg, (2 * step_deg)%float, [1]);
              (4, step_deg, step_deg, [2]) ] in
  add_nodes (add_ways m0 ws) ns = scenario
  ∧ wf_map (add_nodes (add_ways m0 ws) ns) = true
  ∧ num_ways (add_nodes (add_ways m0 ws) ns) = num_ways m0
  ∧ num_nodes (add_nodes (add_ways m0 ws) ns) = num_nodes m0.
Proof.
  intros m0 ws ns. split; [by vm_compute|].
  apply (loader_builds_well_formed m0 ws ns).
  - vm_compute. apply (Permutation_cons_append [0; 1] 2).
  - by vm_compute.
  - by vm_compute.
Defined.

Section add_way_query.
Context (m : ssmap) (id : Z) (name : string) (sp : float) (ow : bool) (ids : list Z).

Lemma add_way_get_same :
  0 ≤ id < num_ways m →
  get_way (ssmap_add_way m id name sp ow ids) id = Some (mk_way id name sp ow ids).
Proof.
  intros Hr. unfold get_way, ssmap_add_way.
  destruct (id <? 0) eqn:E; [apply Z.ltb_lt in E; lia|]. simpl.
  rewrite list_lookup_insert_eq; [done|]. unfold num_ways in Hr. lia.
Qed.

Lemma add_way_get_other id' :
  id' ≠ id → get_way (ssmap_add_way m id name sp ow ids) id' = get_way m id'.
Proof.
  intros Hne. unfold get_way, ssmap_add_way.
  destruct (id <? 0) eqn:E; [done|]. apply Z.ltb_ge in E. simpl.
  destruct (id' <? 0) eqn:E'; [done|]. apply Z.ltb_ge in E'.
  rewrite list_lookup_insert_ne; [done|lia].
Qed.

Lemma add_way_num_ways : num_ways (ssmap_add_way m id name sp ow ids) = num_ways m.
Proof. unfold num_ways. by rewrite (proj2 (add_way_nodes _ _ _ _ _ _)). Qed.

End add_way_query.

(** X21.  After [ssmap_add_way] stores a way in a slot of [m->ways],
    [ssmap_print_way] prints its name for that slot and what it printed
    before for every other identifier, and [ssmap_find_way_by_name]
    lists the slot exactly for the strings its name contains and the
    other slots as before; the nodes and [num_ways] are unchanged. *)
Theorem add_way_then_query (m : ssmap) (id : Z) (name : string) (maxspeed : float)
    (oneway : bool) (node_ids : list Z) :
  0 ≤ id < num_ways m →
  let m' := ssmap_add_way m id name maxspeed oneway node_ids in
  ssmap_print_way m' id = "Way " +:+ pretty id +:+ ": " +:+ name +:+ nl
  ∧ (∀ id', id' ≠ id → ssmap_print_way m' id' = ssmap_print_way m id')
  ∧ (∀ sub, id ∈ find_way_by_name_ids m' sub ↔ contains name sub)
  ∧ (∀ id' sub, id' ≠ id →
       id' ∈ find_way_by_name_ids m' sub ↔ id' ∈ find_way_by_name_ids m sub)
  ∧ m_nodes m' = m_nodes m ∧ num_ways m' = num_ways m.
Proof.
  intros Hr m'. subst m'. split; [|split; [|split; [|split; [|split]]]].
  - unfold ssmap_print_way. rewrite add_way_num_ways.
    rewrite (proj2 (Z.ltb_ge id 0)) by lia.
    unfold way_at. rewrite add_way_get_same by lia.
    destruct (id >=? num_ways m) eqn:E; [|done].
    rewrite Z.geb_leb in E. apply Z.leb_le in E. lia.
  - intros id' Hne. unfold ssmap_print_way, way_at.
    by rewrite add_way_num_ways, add_way_get_other.
  - intros sub. rewrite find_way_by_name_ids_spec.
    rewrite add_way_get_same by done. split.
    + intros (w & ? & ?). by simplify_eq.
    + intros ?. by eexists.
  - intros id' sub Hne. rewrite !find_way_by_name_ids_spec.
    by rewrite add_way_get_other.
  - apply add_way_nodes.
  - apply add_way_num_ways.
Qed.

Lemma add_way_then_query_witness :
  let m' := ssmap_add_way scenario 2 "Elm Row" 50 false [1; 4] in
  0 ≤ 2 < num_ways scenario
  ∧ ssmap_print_way m' 2 = "Way " +:+ pretty 2 +:+ ": " +:+ "Elm Row" +:+ nl
  ∧ (∀ id', id' ≠ 2 → ssmap_print_way m' id' = ssmap_print_way scenario id')
  ∧ (∀ sub, 2 ∈ find_way_by_name_ids m' sub ↔ contains "Elm Row" sub)
  ∧ (∀ id' sub, id' ≠ 2 →
       id' ∈ find_way_by_name_ids m' sub ↔ id' ∈ find_way_by_name_ids scenario sub)
  ∧ m_nodes m' = m_nodes scenario ∧ num_ways m' = num_ways scenario.
Proof.
  split; [unfold num_ways; simpl; lia|].
  apply (add_way_then_query scenario 2 "Elm Row" 50 false [1; 4]).
  unfold num_ways; simpl; lia.
Defined.

Section add_node_query.
Context (m : ssmap) (id : Z) (lat lon : float) (wids : list Z).

Lemma add_node_get_same :
  0 ≤ id < num_nodes m →
  get_node (ssmap_add_node m id lat lon wids) id
  = Some (mk_node id lat lon (way_slot m <$> wids)).
Proof.
  intros Hr. unfold get_node, ssmap_add_node.
  destruct (id <? 0) eqn:E; [apply Z.ltb_lt in E; lia|]. simpl.
  rewrite list_lookup_insert_eq; [done|]. unfold num_nodes in Hr. lia.
Qed.

Lemma add_node_get_other id' :
  id' ≠ id → get_node (ssmap_add_node m id lat lon wids) id' = get_node m id'.
Proof.
  intros Hne. unfold get_node, ssmap_add_node.
  destruct (id <? 0) eqn:E; [done|]. apply Z.ltb_ge in E. simpl.
  destruct (id' <? 0) eqn:E'; [done|]. apply Z.ltb_ge in E'.
  rewrite list_lookup_insert_ne; [done|lia].
Qed.

Lemma add_node_num_nodes : num_nodes (ssmap_add_node m id lat lon wids) = num_nodes m.
Proof. unfold num_nodes. by rewrite (proj2 (add_node_ways _ _ _ _ _)). Qed.
End add_node_query.

(** X22.  After [ssmap_add_node] stores a node in a slot of the map the point
    exists: its travel time alone is 0 and the router prints it for the
    path to itself; the node holds the identifier, the coordinates and
    the slots of the ways given, and the other points are as before. *)
Theorem add_node_then_query (L : libm) (m : ssmap) (id : Z) (lat lon : float)
    (way_ids : list Z) :
  0 ≤ id < num_nodes m →
  let m' := ssmap_add_node m id lat lon way_ids in
  node_at m' id = mk_node id lat lon (way_slot m <$> way_ids)
  ∧ ssmap_path_travel_time L m' [id] = ("", 0%float)
  ∧ ssmap_path_create L m' id id = Some (pretty id +:+ " " +:+ pretty id +:+ nl)
  ∧ (∀ id', id' ≠ id → get_node m' id' = get_node m id')
  ∧ m_ways m' = m_ways m ∧ num_nodes m' = num_nodes m.
Proof.
  intros Hr m'. subst m'.
  pose proof (add_node_get_same m id lat lon way_ids Hr) as Hget.
  assert (node_missing (ssmap_add_node m id lat lon way_ids) id = false) as Hex.
  { apply node_missing_false. split; [by rewrite add_node_num_nodes|by eexists]. }
  split; [by apply node_at_get|]. split; [|split; [|split; [|split]]].
  - unfold ssmap_path_travel_time. simpl. rewrite Hex. simpl. by rewrite Z.eqb_refl.
  - unfold ssmap_path_create, path_create_result. by rewrite Hex, Z.eqb_refl.
  - intros id'. apply add_node_get_other.
  - apply add_node_ways.
  - apply add_node_num_nodes.
Qed.

Lemma add_node_then_query_witness :
  let m' := ssmap_add_node scenario 3 step_deg step_deg [1] in
  0 ≤ 3 < num_nodes scenario
  ∧ node_at m' 3 = mk_node 3 step_deg step_deg (way_slot scenario <$> [1])
  ∧ ssmap_path_travel_time RefLibm.ref m' [3] = ("", 0%float)
  ∧ ssmap_path_create RefLibm.ref m' 3 3 = Some (pretty 3 +:+ " " +:+ pretty 3 +:+ nl)
  ∧ (∀ id', id' ≠ 3 → get_node m' id' = get_node scenario id')
  ∧ m_ways m' = m_ways scenario ∧ num_nodes m' = num_nodes scenario.
Proof.
  split; [unfold num_nodes; simpl; lia|].
  apply (add_node_then_query RefLibm.ref scenario 3 step_deg step_deg [1]).
  unfold num_nodes; simpl; lia.
Defined.

(** ** Agreement of validator and router *)


Section below.
Context (L : libm) (m : ssmap).
Implicit Types (st : dstate) (u v : Z).



End below.

Section agreement.
Context (L : libm) (m : ssmap).
Hypothesis Hwf : wf_map m = true.





End agreement.




